(** * predictive-cache: LRU core, Count-Min Sketch, TinyLFU admission,
      sharded composition, Markov predictor and predictive wrapper.

    A shallow embedding of the headers under [include/] and the properties
    the specification states about them.

    Conventions.
    - [size_t] quantities that count entries or index a vector are [nat];
      the 32-bit counters and the 64-bit hash words are [N] with the
      wrap-around written out.
    - [std::unordered_map] is a [gmap], a key set a [gset]; [std::list] and
      [std::vector] are [list], most recently used entry first.
    - A method that mutates its object takes the object and returns the new
      one, together with the returned value when there is one. *)

From Stdlib Require Import NArith ZArith Lia String.
From Stdlib Require QArith.
From stdpp Require Import gmap list fin_maps fin_sets.

Set Warnings "-clear-no-such-hyp".

Local Open Scope nat_scope.

(** Outcome of running a constructor: the object, or the exception thrown. *)
Inductive ctor_result (A : Type) : Type :=
  | Constructed (a : A)
  | Thrown (what : string).
Arguments Constructed {A} a.
Arguments Thrown {A} what.

Definition usable {A : Type} (r : ctor_result A) : Prop :=
  ∃ a, r = Constructed a.

(** ** LRUCache.hpp *)

Section LRUCache.
Context {Key Value : Type} `{Countable Key}.

(** [items_] is the recency list, front = most recently used.  [map_]
    maps a key to the iterator of its node; the iterator stored under
    [k] designates the node of [items_] that carries [k], so the model
    keeps the key set of [map_] and finds the node by its key. *)
Record LRUCache : Type := mkLRUCache {
  items_ : list (Key * Value);
  map_ : gset Key;
  capacity_ : nat
}.

Definition LRUCache_new (capacity : nat) : LRUCache :=
  mkLRUCache [] ∅ capacity.

(** The constructor has no failure path. *)
Definition LRUCache_ctor (capacity : nat) : ctor_result LRUCache :=
  Constructed (LRUCache_new capacity).

(** The node an iterator for [key] points at. *)
Fixpoint node_of (key : Key) (l : list (Key * Value)) : option (Key * Value) :=
  match l with
  | [] => None
  | n :: l' => if decide (n.1 = key) then Some n else node_of key l'
  end.

(** [items_.erase(it)]: unlink that node. *)
Fixpoint unlink (key : Key) (l : list (Key * Value)) : list (Key * Value) :=
  match l with
  | [] => []
  | n :: l' => if decide (n.1 = key) then l' else n :: unlink key l'
  end.

(** [items_.splice(items_.begin(), items_, it)]: move the node to the front. *)
Definition splice_front (key : Key) (l : list (Key * Value)) : list (Key * Value) :=
  match node_of key l with
  | Some n => n :: unlink key l
  | None => l
  end.

(** [it->second->second = value]. *)
Fixpoint set_value (key : Key) (value : Value) (l : list (Key * Value))
  : list (Key * Value) :=
  match l with
  | [] => []
  | n :: l' =>
      if decide (n.1 = key) then (n.1, value) :: l' else n :: set_value key value l'
  end.

Definition LRUCache_get (key : Key) (c : LRUCache) : option Value * LRUCache :=
  if decide (key ∈ map_ c) then
    let items' := splice_front key (items_ c) in
    (snd <$> node_of key items', mkLRUCache items' (map_ c) (capacity_ c))
  else (None, c).

Definition LRUCache_put (key : Key) (value : Value) (c : LRUCache) : LRUCache :=
  if decide (key ∈ map_ c) then
    mkLRUCache (splice_front key (set_value key value (items_ c)))
               (map_ c) (capacity_ c)
  else
    let items1 := (key, value) :: items_ c in
    let map1 := {[key]} ∪ map_ c in
    if decide (capacity_ c < size map1) then
      let oldKey := (List.last items1 (key, value)).1 in
      mkLRUCache (removelast items1) (map1 ∖ {[oldKey]}) (capacity_ c)
    else mkLRUCache items1 map1 (capacity_ c).

Definition LRUCache_erase (key : Key) (c : LRUCache) : bool * LRUCache :=
  if decide (key ∈ map_ c) then
    (true, mkLRUCache (unlink key (items_ c)) (map_ c ∖ {[key]}) (capacity_ c))
  else (false, c).

Definition LRUCache_contains (key : Key) (c : LRUCache) : bool :=
  bool_decide (key ∈ map_ c).

Definition LRUCache_size (c : LRUCache) : nat := size (map_ c).

Definition LRUCache_capacity (c : LRUCache) : nat := capacity_ c.

Definition peek_lru_key (c : LRUCache) : option Key :=
  match items_ c with
  | [] => None
  | n :: l => Some (List.last (n :: l) n).1
  end.

(** Sequences of the mutating operations. *)
Inductive LRU_op : Type :=
  | OpGet (key : Key)
  | OpPut (key : Key) (value : Value)
  | OpErase (key : Key).

Definition LRU_step (c : LRUCache) (o : LRU_op) : LRUCache :=
  match o with
  | OpGet k => (LRUCache_get k c).2
  | OpPut k v => LRUCache_put k v c
  | OpErase k => (LRUCache_erase k c).2
  end.

Definition LRU_run (ops : list LRU_op) (c : LRUCache) : LRUCache :=
  foldl LRU_step c ops.

(** The states observed after each operation of a sequence, in order. *)
Fixpoint LRU_trace (ops : list LRU_op) (c : LRUCache) : list LRUCache :=
  match ops with
  | [] => []
  | o :: ops' => LRU_step c o :: LRU_trace ops' (LRU_step c o)
  end.

(** Representation invariant: index and recency list carry the same keys,
    each once. *)
Definition LRUCache_wf (c : LRUCache) : Prop :=
  NoDup (items_ c).*1 ∧ ∀ k, k ∈ map_ c ↔ k ∈ (items_ c).*1.

End LRUCache.

Arguments LRUCache Key Value {_ _}.
Arguments LRU_op Key Value : clear implicits.

(** ** CountMinSketch.hpp *)

Definition UINT32_MAX : N := 4294967295%N.

(** Unsigned arithmetic of [uint32_t] and of [uint64_t] / [size_t]. *)
Definition wrap32 (x : N) : N := (x mod 2 ^ 32)%N.
Definition wrap64 (x : N) : N := (x mod 2 ^ 64)%N.

Definition seeds : list N :=
  [ 0x9e3779b185ebca87; 0xc2b2ae3d27d4eb4f;
    0x165667b19e3779f9; 0xd6e8feb86659fd93;
    0x94d049bb133111eb; 0x2545f4914f6cdd1d;
    0x60642e2a34326f15; 0x9e3779b97f4a7c15 ]%N.

Record CountMinSketch : Type := mkCMS {
  width_ : nat;
  depth_ : nat;
  rows_ : list (list N)
}.

(** [rows_(depth, std::vector<uint32_t>(width, 0))]; nothing is checked. *)
Definition CMS_new (width depth : nat) : CountMinSketch :=
  mkCMS width depth (replicate depth (replicate width 0%N)).

Definition CMS_ctor (width depth : nat) : ctor_result CountMinSketch :=
  Constructed (CMS_new width depth).

(** [if (c != UINT32_MAX) ++c;] *)
Definition sat_inc (c : N) : N :=
  if decide (c = UINT32_MAX) then c else (c + 1)%N.

(** [rows_[i][idx]] read.  Reading or writing outside the vectors is
    undefined in the source; the model reads 0 and writes nothing there, and
    the theorems below are stated for sketches whose rows have the
    constructed shape and whose width is positive, where every access is
    in range. *)
Definition counter_at (rows : list (list N)) (i idx : nat) : N :=
  default 0%N (rows !! i ≫= (.!! idx)).

(** The access [rows_[i][idx]] is inside the vectors. *)
Definition in_range (rows : list (list N)) (i j : nat) : Prop :=
  ∃ row, rows !! i = Some row ∧ j < length row.

Definition CMS_decay_half (s : CountMinSketch) : CountMinSketch :=
  mkCMS (width_ s) (depth_ s)
    ((λ row : list N, (λ c : N, N.shiftr c 1) <$> row) <$> rows_ s).

Section CountMinSketch.
Context {Key : Type}.
(** [std::hash<Key>{}], implementation-defined in the source. *)
Variable hasher : Key → N.

Definition index (width : nat) (k : Key) (i : nat) : nat :=
  let h := wrap64 (hasher k) in
  let seed := default 0%N (seeds !! N.to_nat (N.land (N.of_nat i) 7)) in
  let h' :=
    N.lxor h (wrap64 (seed + 0x9e3779b97f4a7c15
                      + wrap64 (N.shiftl h 6) + N.shiftr h 2)) in
  N.to_nat (N.land h' (wrap64 (N.of_nat width + 2 ^ 64 - 1))).

Definition CMS_add (k : Key) (s : CountMinSketch) : CountMinSketch :=
  mkCMS (width_ s) (depth_ s)
    (foldl (λ rows i, alter (alter sat_inc (index (width_ s) k i)) i rows)
           (rows_ s) (seq 0 (depth_ s))).

Definition CMS_estimate (k : Key) (s : CountMinSketch) : N :=
  let m :=
    foldl (λ m i, N.min m (counter_at (rows_ s) i (index (width_ s) k i)))
          UINT32_MAX (seq 0 (depth_ s)) in
  if decide (m = UINT32_MAX) then 0%N else m.

(** A run of [add] calls, oldest first, with no decay in between. *)
Definition CMS_add_all (ks : list Key) (s : CountMinSketch) : CountMinSketch :=
  foldl (λ s k, CMS_add k s) s ks.

(** [n] consecutive [add(k)] calls. *)
Definition CMS_add_times (n : N) (k : Key) (s : CountMinSketch) : CountMinSketch :=
  N.iter n (CMS_add k) s.

(** How many of the added keys select column [j] in row [i]. *)
Definition hits (width : nat) (ks : list Key) (i j : nat) : nat :=
  length (filter (λ k, index width k i = j) ks).

(** How many times [k] itself was added. *)
Definition observed `{EqDecision Key} (k : Key) (ks : list Key) : nat :=
  length (filter (λ k', k' = k) ks).

(** How many adds of keys other than [k] select, in row [i], the column
    that [k] selects there. *)
Definition collisions `{EqDecision Key}
    (width : nat) (k : Key) (ks : list Key) (i : nat) : nat :=
  length (filter (λ k', k' ≠ k ∧ index width k' i = index width k i) ks).

End CountMinSketch.

(** The shape the constructor gives the sketch and [add] keeps: [depth_]
    rows of [width_] counters; with a positive width every column index is
    inside its row. *)
Definition CMS_shape (s : CountMinSketch) : Prop :=
  0 < width_ s ∧
  length (rows_ s) = depth_ s ∧
  Forall (λ row, length row = width_ s) (rows_ s).

(** ** TinyLFUAdmittingLRU.hpp *)

Section TinyLFUAdmittingLRU.
Context {Key Value : Type} `{Countable Key}.
Variable hasher : Key → N.

Record TinyLFUAdmittingLRU : Type := mkTinyLFU {
  lru_ : LRUCache Key Value;
  cms_ : CountMinSketch
}.

Definition TinyLFU_new (capacity cms_width cms_depth : nat)
  : TinyLFUAdmittingLRU :=
  mkTinyLFU (LRUCache_new capacity) (CMS_new cms_width cms_depth).

Definition TinyLFU_get (key : Key) (t : TinyLFUAdmittingLRU)
  : option Value * TinyLFUAdmittingLRU :=
  let cms1 := CMS_add hasher key (cms_ t) in
  let r := LRUCache_get key (lru_ t) in
  (r.1, mkTinyLFU r.2 cms1).

Definition TinyLFU_put (key : Key) (value : Value) (t : TinyLFUAdmittingLRU)
  : TinyLFUAdmittingLRU :=
  let cms1 := CMS_add hasher key (cms_ t) in
  if LRUCache_contains key (lru_ t) then
    mkTinyLFU (LRUCache_put key value (lru_ t)) cms1
  else if decide (LRUCache_size (lru_ t) < LRUCache_capacity (lru_ t)) then
    mkTinyLFU (LRUCache_put key value (lru_ t)) cms1
  else
    match peek_lru_key (lru_ t) with
    | None => mkTinyLFU (LRUCache_put key value (lru_ t)) cms1
    | Some victim =>
        let newEst := CMS_estimate hasher key cms1 in
        let victimEst := CMS_estimate hasher victim cms1 in
        if decide (victimEst ≤ newEst)%N then
          mkTinyLFU (LRUCache_put key value (LRUCache_erase victim (lru_ t)).2) cms1
        else mkTinyLFU (lru_ t) cms1
    end.

Definition TinyLFU_erase (key : Key) (t : TinyLFUAdmittingLRU)
  : bool * TinyLFUAdmittingLRU :=
  let r := LRUCache_erase key (lru_ t) in
  (r.1, mkTinyLFU r.2 (cms_ t)).

Definition TinyLFU_contains (key : Key) (t : TinyLFUAdmittingLRU) : bool :=
  LRUCache_contains key (lru_ t).

Definition TinyLFU_size (t : TinyLFUAdmittingLRU) : nat :=
  LRUCache_size (lru_ t).

Definition TinyLFU_capacity (t : TinyLFUAdmittingLRU) : nat :=
  LRUCache_capacity (lru_ t).

Definition TinyLFU_decay (t : TinyLFUAdmittingLRU) : TinyLFUAdmittingLRU :=
  mkTinyLFU (lru_ t) (CMS_decay_half (cms_ t)).

End TinyLFUAdmittingLRU.

Arguments TinyLFUAdmittingLRU Key Value {_ _}.

(** ** ShardedLRU.hpp and ShardedWTinyLFU.hpp

    The per-shard mutexes are not modelled: every method takes its shard's
    lock for its whole body, and the model runs the bodies one at a time. *)

(** [cap = base + (i == num_shards - 1 ? extra : 0)] for [i = 0 .. num_shards-1]. *)
Definition shard_capacities (capacity num_shards : nat) : list nat :=
  let base := capacity / num_shards in
  let extra := capacity mod num_shards in
  (λ i, base + (if decide (i = num_shards - 1) then extra else 0))
    <$> seq 0 num_shards.

Section Sharded.
Context {Key Value : Type} `{Countable Key}.
Variable hasher : Key → N.

Record ShardedLRU : Type := mkShardedLRU {
  SL_shards_ : list (LRUCache Key Value)
}.

Definition ShardedLRU_ctor (capacity num_shards : nat) : ctor_result ShardedLRU :=
  if decide (num_shards = 0) then Thrown "num_shards must be > 0"
  else Constructed
         (mkShardedLRU (LRUCache_new <$> shard_capacities capacity num_shards)).

(** [hasher_(key) % shards_.size()] *)
Definition shard_idx (key : Key) (s : ShardedLRU) : nat :=
  N.to_nat (wrap64 (hasher key) mod N.of_nat (length (SL_shards_ s))).

Definition ShardedLRU_get (key : Key) (s : ShardedLRU)
  : option Value * ShardedLRU :=
  let i := shard_idx key s in
  match SL_shards_ s !! i with
  | Some sh =>
      let r := LRUCache_get key sh in
      (r.1, mkShardedLRU (<[i := r.2]> (SL_shards_ s)))
  | None => (None, s)
  end.

Definition ShardedLRU_put (key : Key) (value : Value) (s : ShardedLRU)
  : ShardedLRU :=
  let i := shard_idx key s in
  mkShardedLRU (alter (LRUCache_put key value) i (SL_shards_ s)).

Definition ShardedLRU_size (s : ShardedLRU) : nat :=
  foldl (λ acc sh, acc + LRUCache_size sh) 0 (SL_shards_ s).

Record ShardedWTinyLFU : Type := mkShardedWTinyLFU {
  shards_ : list (TinyLFUAdmittingLRU Key Value)
}.

Definition ShardedWTinyLFU_ctor (capacity shards cms_width cms_depth : nat)
  : ctor_result ShardedWTinyLFU :=
  if decide (shards = 0) then Thrown "shards must be > 0"
  else Constructed
         (mkShardedWTinyLFU
            ((λ cap, TinyLFU_new cap cms_width cms_depth)
               <$> shard_capacities capacity shards)).

Definition idx (key : Key) (s : ShardedWTinyLFU) : nat :=
  N.to_nat (wrap64 (hasher key) mod N.of_nat (length (shards_ s))).

Definition ShardedWTinyLFU_get (key : Key) (s : ShardedWTinyLFU)
  : option Value * ShardedWTinyLFU :=
  let i := idx key s in
  match shards_ s !! i with
  | Some sh =>
      let r := TinyLFU_get hasher key sh in
      (r.1, mkShardedWTinyLFU (<[i := r.2]> (shards_ s)))
  | None => (None, s)
  end.

Definition ShardedWTinyLFU_put (key : Key) (value : Value) (s : ShardedWTinyLFU)
  : ShardedWTinyLFU :=
  let i := idx key s in
  mkShardedWTinyLFU (alter (TinyLFU_put hasher key value) i (shards_ s)).

Definition ShardedWTinyLFU_erase (key : Key) (s : ShardedWTinyLFU)
  : bool * ShardedWTinyLFU :=
  let i := idx key s in
  match shards_ s !! i with
  | Some sh =>
      let r := TinyLFU_erase key sh in
      (r.1, mkShardedWTinyLFU (<[i := r.2]> (shards_ s)))
  | None => (false, s)
  end.

(** The capacities the shards were built with, in shard order. *)
Definition ShardedLRU_capacities (s : ShardedLRU) : list nat :=
  LRUCache_capacity <$> SL_shards_ s.

Definition ShardedWTinyLFU_capacities (s : ShardedWTinyLFU) : list nat :=
  TinyLFU_capacity <$> shards_ s.

End Sharded.

Arguments ShardedLRU Key Value {_ _}.
Arguments ShardedWTinyLFU Key Value {_ _}.

(** ** MarkovPredictor.hpp *)

Section MarkovPredictor.
Context {Key : Type} `{Countable Key}.

Record MarkovPredictor : Type := mkMarkov {
  trans_ : gmap Key (gmap Key N);
  totals_ : gmap Key N
}.

Definition Markov_new : MarkovPredictor := mkMarkov ∅ ∅.

(** [operator[]] inserts a zero (an empty inner map) for a missing key;
    [++] on [uint32_t] is addition modulo 2^32. *)
Definition observe (prev cur : Key) (m : MarkovPredictor) : MarkovPredictor :=
  let inner := default ∅ (trans_ m !! prev) in
  let cnt := default 0%N (inner !! cur) in
  let tot := default 0%N (totals_ m !! prev) in
  mkMarkov (<[prev := <[cur := wrap32 (cnt + 1)]> inner]> (trans_ m))
           (<[prev := wrap32 (tot + 1)]> (totals_ m)).

(** [it->second >>= 1; if (it->second == 0) erase]. *)
Definition halve_or_erase (c : N) : option N :=
  let c' := N.shiftr c 1 in
  if decide (c' = 0%N) then None else Some c'.

(** The inner maps are pruned entry by entry; an inner map that becomes
    empty stays in [trans_]. *)
Definition Markov_decay_half (m : MarkovPredictor) : MarkovPredictor :=
  mkMarkov ((λ mp : gmap Key N, omap halve_or_erase mp) <$> trans_ m)
           (omap halve_or_erase (totals_ m)).

(** Stored count [c[p][s]] and stored total [t[p]]; an absent entry
    counts as 0. *)
Definition count_of (m : MarkovPredictor) (p s : Key) : N :=
  default 0%N (default ∅ (trans_ m !! p) !! s).

Definition total_of (m : MarkovPredictor) (p : Key) : N :=
  default 0%N (totals_ m !! p).

(** Sum over all successors [s] of the stored counts [c[p][s]]. *)
Definition sum_counts (mp : gmap Key N) : N :=
  map_fold (λ _ c acc, (c + acc)%N) 0%N mp.

Definition successor_sum (m : MarkovPredictor) (p : Key) : N :=
  sum_counts (default ∅ (trans_ m !! p)).

Inductive Markov_op : Type :=
  | MObserve (prev cur : Key)
  | MDecay.

Definition Markov_step (m : MarkovPredictor) (o : Markov_op) : MarkovPredictor :=
  match o with
  | MObserve p k => observe p k m
  | MDecay => Markov_decay_half m
  end.

Definition Markov_run (ops : list Markov_op) : MarkovPredictor :=
  foldl Markov_step Markov_new ops.

(** [n] consecutive [observe(prev, cur)] calls. *)
Definition observe_times (n : N) (prev cur : Key) (m : MarkovPredictor)
  : MarkovPredictor :=
  N.iter n (observe prev cur) m.

Definition is_observe (o : Markov_op) : bool :=
  match o with MObserve _ _ => true | MDecay => false end.

Definition observe_calls (ops : list Markov_op) : nat :=
  length (filter (λ o, is_observe o = true) ops).

End MarkovPredictor.

Arguments MarkovPredictor Key {_ _}.
Arguments Markov_op Key : clear implicits.

(** ** PredictiveShardedCache.hpp *)

Section PredictiveShardedCache.
Context {Key Value : Type} `{Countable Key}.
Variable hasher : Key → N.
(** [Value{}], the placeholder stored by a prefetch. *)
Variable default_value : Value.
(** [MarkovPredictor::topk_next] divides and compares in [double] and
    sorts candidates taken in hash-table iteration order, so its result
    is not fixed by the source text.  It is [const]: it reads the
    predictor and returns a list of keys.  The wrapper is modelled over
    any such function. *)
Context {double : Type}.
Variable topk_next : MarkovPredictor Key → Key → nat → N → double → list Key.

Record Options : Type := mkOptions {
  shards : nat;
  prefetch_topk : nat;
  min_trans_count : N;
  min_trans_prob : double;
  enable_prefetch : bool
}.

Record PredictiveShardedCache : Type := mkPredictive {
  base_ : ShardedWTinyLFU Key Value;
  opts_ : Options;
  preds_ : list (MarkovPredictor Key);
  prev_ : list (option Key)
}.

(** [base_(capacity, opt.shards)] uses the default sketch dimensions and
    throws for zero shards. *)
Definition Predictive_ctor (capacity : nat) (opt : Options)
  : ctor_result PredictiveShardedCache :=
  match ShardedWTinyLFU_ctor capacity (shards opt) 4096 4 with
  | Thrown what => Thrown what
  | Constructed b =>
      Constructed (mkPredictive b opt (replicate (shards opt) Markov_new)
                                (replicate (shards opt) None))
  end.

(** [hasher_(k) % opts_.shards] *)
Definition shidx (k : Key) (p : PredictiveShardedCache) : nat :=
  N.to_nat (wrap64 (hasher k) mod N.of_nat (shards (opts_ p))).

(** Body of the prefetch loop: [if (!base_.get(nxt)) base_.put(nxt, Value{})]. *)
Definition prefetch_one (b : ShardedWTinyLFU Key Value) (nxt : Key)
  : ShardedWTinyLFU Key Value :=
  let r := ShardedWTinyLFU_get hasher nxt b in
  match r.1 with
  | Some _ => r.2
  | None => ShardedWTinyLFU_put hasher nxt default_value r.2
  end.

Definition Predictive_get (key : Key) (p : PredictiveShardedCache)
  : option Value * PredictiveShardedCache :=
  let i := shidx key p in
  let preds1 :=
    match prev_ p !! i with
    | Some (Some pk) => alter (observe pk key) i (preds_ p)
    | _ => preds_ p
    end in
  let prev1 := <[i := Some key]> (prev_ p) in
  let r := ShardedWTinyLFU_get hasher key (base_ p) in
  let base2 :=
    if enable_prefetch (opts_ p) then
      let cand :=
        match preds1 !! i with
        | Some pr =>
            topk_next pr key (prefetch_topk (opts_ p))
                      (min_trans_count (opts_ p)) (min_trans_prob (opts_ p))
        | None => []
        end in
      foldl prefetch_one r.2 cand
    else r.2 in
  (r.1, mkPredictive base2 (opts_ p) preds1 prev1).

Definition Predictive_put (key : Key) (value : Value) (p : PredictiveShardedCache)
  : PredictiveShardedCache :=
  let i := shidx key p in
  mkPredictive (ShardedWTinyLFU_put hasher key value (base_ p)) (opts_ p)
               (preds_ p) (<[i := Some key]> (prev_ p)).

Definition Predictive_erase (key : Key) (p : PredictiveShardedCache)
  : bool * PredictiveShardedCache :=
  let r := ShardedWTinyLFU_erase hasher key (base_ p) in
  (r.1, mkPredictive r.2 (opts_ p) (preds_ p) (prev_ p)).

Definition decay_models (p : PredictiveShardedCache) : PredictiveShardedCache :=
  mkPredictive (base_ p) (opts_ p) (Markov_decay_half <$> preds_ p) (prev_ p).

(** The per-shard vectors have one slot per configured shard, as the
    constructor builds them. *)
Definition Predictive_wf (p : PredictiveShardedCache) : Prop :=
  0 < shards (opts_ p) ∧
  length (preds_ p) = shards (opts_ p) ∧
  length (prev_ p) = shards (opts_ p).

End PredictiveShardedCache.

Arguments Options double : clear implicits.
Arguments PredictiveShardedCache Key Value {_ _} double.

(** ** Operation sequences on the sketch *)

Section CountMinSketch_operations.
Context {Key : Type}.
Variable hasher : Key → N.

Inductive CMS_op : Type :=
  | CAdd (k : Key)
  | CDecay.

Definition CMS_step (s : CountMinSketch) (o : CMS_op) : CountMinSketch :=
  match o with
  | CAdd k => CMS_add hasher k s
  | CDecay => CMS_decay_half s
  end.

Definition CMS_run (ops : list CMS_op) (s : CountMinSketch) : CountMinSketch :=
  foldl CMS_step s ops.

(** The value [m] that the loop of [estimate] ends with: the least of
    [UINT32_MAX] and the counters selected for [k]. *)
Definition selected_min (k : Key) (s : CountMinSketch) : N :=
  foldl (λ m i, N.min m (counter_at (rows_ s) i (index hasher (width_ s) k i)))
        UINT32_MAX (seq 0 (depth_ s)).

End CountMinSketch_operations.

Arguments CMS_op Key : clear implicits.

(** ** Further methods and operation sequences of the composed caches *)

Section Composed_operations.
Context {Key Value : Type} `{Countable Key}.
Variable hasher : Key → N.

Inductive TinyLFU_op : Type :=
  | TGet (key : Key)
  | TPut (key : Key) (value : Value)
  | TErase (key : Key)
  | TDecay.

Definition TinyLFU_step (t : TinyLFUAdmittingLRU Key Value) (o : TinyLFU_op)
  : TinyLFUAdmittingLRU Key Value :=
  match o with
  | TGet k => (TinyLFU_get hasher k t).2
  | TPut k v => TinyLFU_put hasher k v t
  | TErase k => (TinyLFU_erase k t).2
  | TDecay => TinyLFU_decay t
  end.

Definition TinyLFU_run (ops : list TinyLFU_op) (t : TinyLFUAdmittingLRU Key Value)
  : TinyLFUAdmittingLRU Key Value :=
  foldl TinyLFU_step t ops.

Definition ShardedLRU_erase (key : Key) (s : ShardedLRU Key Value)
  : bool * ShardedLRU Key Value :=
  let i := shard_idx hasher key s in
  match SL_shards_ s !! i with
  | Some sh =>
      let r := LRUCache_erase key sh in
      (r.1, mkShardedLRU (<[i := r.2]> (SL_shards_ s)))
  | None => (false, s)
  end.

Definition ShardedLRU_contains (key : Key) (s : ShardedLRU Key Value) : bool :=
  let i := shard_idx hasher key s in
  match SL_shards_ s !! i with
  | Some sh => LRUCache_contains key sh
  | None => false
  end.

Definition ShardedLRU_num_shards (s : ShardedLRU Key Value) : nat :=
  length (SL_shards_ s).

Definition ShardedWTinyLFU_num_shards (s : ShardedWTinyLFU Key Value) : nat :=
  length (shards_ s).

(** The key an operation is about. *)
Definition LRU_op_key (o : LRU_op Key Value) : Key :=
  match o with OpGet k => k | OpPut k _ => k | OpErase k => k end.

Definition ShardedLRU_step (s : ShardedLRU Key Value) (o : LRU_op Key Value)
  : ShardedLRU Key Value :=
  match o with
  | OpGet k => (ShardedLRU_get hasher k s).2
  | OpPut k v => ShardedLRU_put hasher k v s
  | OpErase k => (ShardedLRU_erase k s).2
  end.

Definition ShardedLRU_run (ops : list (LRU_op Key Value)) (s : ShardedLRU Key Value)
  : ShardedLRU Key Value :=
  foldl ShardedLRU_step s ops.

Definition ShardedWTinyLFU_step (s : ShardedWTinyLFU Key Value) (o : LRU_op Key Value)
  : ShardedWTinyLFU Key Value :=
  match o with
  | OpGet k => (ShardedWTinyLFU_get hasher k s).2
  | OpPut k v => ShardedWTinyLFU_put hasher k v s
  | OpErase k => (ShardedWTinyLFU_erase hasher k s).2
  end.

Definition ShardedWTinyLFU_run (ops : list (LRU_op Key Value))
    (s : ShardedWTinyLFU Key Value) : ShardedWTinyLFU Key Value :=
  foldl ShardedWTinyLFU_step s ops.

(** A shard that keeps its representation invariant and holds at most
    [cap] entries, [cap] being the capacity it was built with. *)
Definition shard_within (sh : LRUCache Key Value) (cap : nat) : Prop :=
  LRUCache_wf sh ∧ LRUCache_size sh ≤ cap ∧ capacity_ sh = cap.

(** Entries held over all shards of a sharded TinyLFU cache (the class has
    no [size()] of its own). *)
Definition ShardedWTinyLFU_entries (s : ShardedWTinyLFU Key Value) : nat :=
  sum_list (TinyLFU_size <$> shards_ s).

End Composed_operations.

Arguments TinyLFU_op Key Value : clear implicits.

(** ** MarkovPredictor::topk_next

    The function works in [double] and depends on two orders the source
    leaves open: the iteration order of the inner [unordered_map] and the
    order [std::sort] gives to candidates of equal probability.  The model
    takes the [double] operations, the iteration order and the sort as
    parameters; the properties proved of it assume only that the iteration
    lists the stored entries and that the sort permutes its input. *)

Section topk_next.
Context {Key : Type} `{Countable Key}.
Context {double : Type}.
(** [static_cast<double>(uint32_t)], [/] and [>=] on [double]. *)
Variable of_uint32 : N → double.
Variable fdiv : double → double → double.
Variable fge : double → double → bool.
(** [for (const auto& [nxt, c] : it->second)] *)
Variable iterate : gmap Key N → list (Key * N).
(** [std::sort(cand.begin(), cand.end(), by descending second)] *)
Variable sort_desc : list (Key * double) → list (Key * double).

(** Body of the candidate loop for one entry. *)
Definition candidate_of (total : double) (min_count : N) (min_prob : double)
    (e : Key * N) : option (Key * double) :=
  if decide (e.2 < min_count)%N then None
  else
    let p := fdiv (of_uint32 e.2) total in
    if fge p min_prob then Some (e.1, p) else None.

Definition topk_next_model (m : MarkovPredictor Key) (cur : Key) (top_k : nat)
    (min_count : N) (min_prob : double) : list Key :=
  match trans_ m !! cur with
  | None => []
  | Some successors =>
      match totals_ m !! cur with
      | None => []
      | Some t =>
          if decide (t = 0%N) then []
          else
            let total := of_uint32 t in
            let cand :=
              omap (candidate_of total min_count min_prob) (iterate successors) in
            (take top_k (sort_desc cand)).*1
      end
  end.

End topk_next.

(** How often a run observed the transition [p -> k], and how often any
    transition out of [p]. *)
Section Markov_counting.
Context {Key : Type} `{Countable Key}.

Definition observes_pair (p k : Key) (o : Markov_op Key) : bool :=
  match o with
  | MObserve p' k' => bool_decide (p' = p ∧ k' = k)
  | MDecay => false
  end.

Definition observes_from (p : Key) (o : Markov_op Key) : bool :=
  match o with
  | MObserve p' _ => bool_decide (p' = p)
  | MDecay => false
  end.

Definition pair_count (p k : Key) (ops : list (Markov_op Key)) : nat :=
  length (filter (λ o, observes_pair p k o = true) ops).

Definition from_count (p : Key) (ops : list (Markov_op Key)) : nat :=
  length (filter (λ o, observes_from p o = true) ops).

End Markov_counting.

(** ** PredictiveShardedCache: remaining methods and operation sequences *)

Section Predictive_operations.
Context {Key Value : Type} `{Countable Key}.
Variable hasher : Key → N.
Variable default_value : Value.
Context {double : Type}.
Variable topk_next : MarkovPredictor Key → Key → nat → N → double → list Key.

Definition Predictive_num_shards (p : PredictiveShardedCache Key Value double) : nat :=
  shards (opts_ p).

Inductive Predictive_op : Type :=
  | PGet (key : Key)
  | PPut (key : Key) (value : Value)
  | PErase (key : Key)
  | PDecayModels.

Definition Predictive_step (p : PredictiveShardedCache Key Value double)
    (o : Predictive_op) : PredictiveShardedCache Key Value double :=
  match o with
  | PGet k => (Predictive_get hasher default_value topk_next k p).2
  | PPut k v => Predictive_put hasher k v p
  | PErase k => (Predictive_erase hasher k p).2
  | PDecayModels => decay_models p
  end.

Definition Predictive_run (ops : list Predictive_op)
    (p : PredictiveShardedCache Key Value double)
  : PredictiveShardedCache Key Value double :=
  foldl Predictive_step p ops.

End Predictive_operations.

Arguments Predictive_op Key Value : clear implicits.

(** ** LFUCache.hpp

    [kv_] maps a key to its node: value, frequency and an iterator into the
    list of its frequency; as in the LRU core the iterator designates the
    entry of that list that carries the key, so the model keeps value and
    frequency and finds the entry by its key.  [freq_list_] maps a frequency
    to the keys at that frequency, most recently touched first. *)

Section LFUCache.
Context {Key Value : Type} `{Countable Key}.

(** A [Node] is its value and frequency; its list iterator designates the
    entry of [freq_list_[freq]] that carries the key.  The [size_t]
    frequencies are read as naturals: one key would have to be touched
    2^64 times for its frequency to wrap. *)
Record LFUCache : Type := mkLFUCache {
  LFU_capacity_ : nat;
  min_freq_ : nat;
  kv_ : gmap Key (Value * nat);
  freq_list_ : gmap nat (list Key)
}.

Definition LFUCache_ctor (capacity : nat) : ctor_result LFUCache :=
  if decide (capacity = 0) then Thrown "capacity must be > 0"
  else Constructed (mkLFUCache capacity 0 ∅ ∅).

(** [freq_list_[f]]: [operator[]] reads an absent list as empty. *)
Definition bucket (fl : gmap nat (list Key)) (f : nat) : list Key :=
  default [] (fl !! f).

(** [list.erase(it)] for the entry carrying [key]. *)
Fixpoint remove_key (key : Key) (l : list Key) : list Key :=
  match l with
  | [] => []
  | x :: l' => if decide (x = key) then l' else x :: remove_key key l'
  end.

(** [touch] is private and only called for a key just found in [kv_]. *)
Definition LFU_touch (key : Key) (c : LFUCache) : LFUCache :=
  match kv_ c !! key with
  | None => c
  | Some (value, f) =>
      let l := remove_key key (bucket (freq_list_ c) f) in
      let fl1 := <[f := l]> (freq_list_ c) in
      let min1 :=
        if decide (l = [] ∧ f = min_freq_ c) then S (min_freq_ c) else min_freq_ c in
      let fl2 := <[S f := key :: bucket fl1 (S f)]> fl1 in
      mkLFUCache (LFU_capacity_ c) min1 (<[key := (value, S f)]> (kv_ c)) fl2
  end.

(** [evict]: [back()] of an empty list is undefined; the model answers
    [None] there. *)
Definition LFU_evict (c : LFUCache) : option LFUCache :=
  let l := bucket (freq_list_ c) (min_freq_ c) in
  match last l with
  | None => None
  | Some evict_key =>
      let l' := removelast l in
      let fl' :=
        if decide (l' = []) then delete (min_freq_ c) (freq_list_ c)
        else <[min_freq_ c := l']> (freq_list_ c) in
      Some (mkLFUCache (LFU_capacity_ c) (min_freq_ c)
                       (delete evict_key (kv_ c)) fl')
  end.

Definition LFUCache_get (key : Key) (c : LFUCache) : option Value * LFUCache :=
  match kv_ c !! key with
  | None => (None, c)
  | Some (value, _) => (Some value, LFU_touch key c)
  end.

Definition LFUCache_put (key : Key) (value : Value) (c : LFUCache)
  : option LFUCache :=
  if decide (LFU_capacity_ c = 0) then Some c
  else
    match kv_ c !! key with
    | Some (_, f) =>
        Some (LFU_touch key
                (mkLFUCache (LFU_capacity_ c) (min_freq_ c)
                            (<[key := (value, f)]> (kv_ c)) (freq_list_ c)))
    | None =>
        c1 ← (if decide (LFU_capacity_ c ≤ size (kv_ c)) then LFU_evict c
              else Some c);
        Some (mkLFUCache (LFU_capacity_ c1) 1
                         (<[key := (value, 1)]> (kv_ c1))
                         (<[1 := key :: bucket (freq_list_ c1) 1]> (freq_list_ c1)))
    end.

Definition LFUCache_erase (key : Key) (c : LFUCache) : bool * LFUCache :=
  match kv_ c !! key with
  | None => (false, c)
  | Some (_, f) =>
      let l := remove_key key (bucket (freq_list_ c) f) in
      let min1 :=
        if decide (l = [] ∧ min_freq_ c = f) then min_freq_ c + 1 else min_freq_ c in
      (true, mkLFUCache (LFU_capacity_ c) min1 (delete key (kv_ c))
                        (<[f := l]> (freq_list_ c)))
  end.

Definition LFUCache_contains (key : Key) (c : LFUCache) : bool :=
  bool_decide (is_Some (kv_ c !! key)).

Definition LFUCache_size (c : LFUCache) : nat := size (kv_ c).

Definition LFUCache_capacity (c : LFUCache) : nat := LFU_capacity_ c.

(** The frequency recorded for a resident key. *)
Definition LFU_freq (key : Key) (c : LFUCache) : option nat :=
  snd <$> kv_ c !! key.

Definition LFU_step (c : LFUCache) (o : LRU_op Key Value) : option LFUCache :=
  match o with
  | OpGet k => Some (LFUCache_get k c).2
  | OpPut k v => LFUCache_put k v c
  | OpErase k => Some (LFUCache_erase k c).2
  end.

(** A run is defined as long as no step is undefined. *)
Fixpoint LFU_run (ops : list (LRU_op Key Value)) (c : LFUCache) : option LFUCache :=
  match ops with
  | [] => Some c
  | o :: ops' => c' ← LFU_step c o; LFU_run ops' c'
  end.

(** What the operations keep: the frequency lists and [kv_] describe the
    same residents, each key once and at a frequency of at least 1, within
    capacity; and whenever the cache is full, [min_freq_] is the least
    frequency present and its list is not empty. *)
Definition LFU_inv (c : LFUCache) : Prop :=
  1 ≤ LFU_capacity_ c ∧
  size (kv_ c) ≤ LFU_capacity_ c ∧
  (∀ k v f, kv_ c !! k = Some (v, f) → k ∈ bucket (freq_list_ c) f ∧ 1 ≤ f) ∧
  (∀ f k, k ∈ bucket (freq_list_ c) f → ∃ v, kv_ c !! k = Some (v, f)) ∧
  (∀ f, NoDup (bucket (freq_list_ c) f)) ∧
  (size (kv_ c) = LFU_capacity_ c →
     bucket (freq_list_ c) (min_freq_ c) ≠ [] ∧
     ∀ k v f, kv_ c !! k = Some (v, f) → min_freq_ c ≤ f).

End LFUCache.

Arguments LFUCache Key Value {_ _}.

(** ** The instance used by the drivers: [Key = int], [Value = std::string].
    libstdc++'s [std::hash<int>] converts the key to [size_t]. *)

Definition int_hasher (k : Z) : N := Z.to_N (k mod 2 ^ 64)%Z.

(** For the worked examples of the predictive wrapper: thresholds as
    rationals, and a candidate function that proposes the next integer key,
    cut to [top_k] entries.  The theorems hold for every candidate function;
    this one only drives the prefetch loop in an example. *)
Definition next_key_candidates (pr : MarkovPredictor Z) (cur : Z) (top_k : nat)
    (min_count : N) (min_prob : QArith_base.Q) : list Z :=
  take top_k [(cur + 1)%Z].

(** Exact rationals in the place of [double], the map's own listing as
    iteration order and an insertion sort by descending probability, for
    running [topk_next_model] in examples. *)
Definition Q_of_uint32 (n : N) : QArith_base.Q := QArith_base.inject_Z (Z.of_N n).

Definition Q_ge (a b : QArith_base.Q) : bool := QArith_base.Qle_bool b a.

Fixpoint insert_desc (x : Z * QArith_base.Q) (l : list (Z * QArith_base.Q))
  : list (Z * QArith_base.Q) :=
  match l with
  | [] => [x]
  | y :: l' =>
      if QArith_base.Qle_bool y.2 x.2 then x :: y :: l' else y :: insert_desc x l'
  end.

Definition insertion_sort_desc (l : list (Z * QArith_base.Q))
  : list (Z * QArith_base.Q) :=
  foldr insert_desc [] l.

Definition topk_next_Q : MarkovPredictor Z → Z → nat → N → QArith_base.Q → list Z :=
  topk_next_model Q_of_uint32 QArith_base.Qdiv Q_ge map_to_list insertion_sort_desc.

Definition example_options : Options QArith_base.Q :=
  mkOptions 4 1 2%N (QArith_base.Qmake 1 5) true.

(** What the constructor builds for capacity 8 and [example_options]. *)
Definition example_predictive : PredictiveShardedCache Z string QArith_base.Q :=
  mkPredictive
    (mkShardedWTinyLFU ((λ cap, TinyLFU_new cap 4096 4) <$> shard_capacities 8 4))
    example_options (replicate 4 Markov_new) (replicate 4 None).

(** * Properties *)

(** ** LRU core: representation invariant *)

Section LRUCache_facts.
Context {Key Value : Type} `{Countable Key}.
Implicit Types (l : list (Key * Value)) (c : LRUCache Key Value).

Lemma unlink_keys_elem l key k :
  NoDup l.*1 → k ∈ (unlink key l).*1 ↔ k ∈ l.*1 ∧ k ≠ key.
Proof.
  induction l as [|n l IH]; simpl; intros Hnd.
  - set_solver.
  - apply NoDup_cons in Hnd as [Hn Hnd].
    destruct (decide (n.1 = key)) as [<-|Hne]; simpl.
    + set_solver.
    + rewrite !elem_of_cons, IH by done. naive_solver.
Qed.

Lemma unlink_keys_NoDup l key : NoDup l.*1 → NoDup (unlink key l).*1.
Proof.
  induction l as [|n l IH]; simpl; intros Hnd; [done|].
  apply NoDup_cons in Hnd as [Hn Hnd].
  destruct (decide (n.1 = key)); simpl; [done|].
  apply NoDup_cons. split; [|by apply IH].
  rewrite unlink_keys_elem by done. tauto.
Qed.

Lemma unlink_length l key :
  key ∈ l.*1 → S (length (unlink key l)) = length l.
Proof.
  induction l as [|n l IH]; simpl; intros Hin.
  - by apply elem_of_nil in Hin.
  - destruct (decide (n.1 = key)); simpl; [done|].
    apply elem_of_cons in Hin as [?|Hin]; [congruence|].
    by rewrite IH.
Qed.

Lemma unlink_absent l key : key ∉ l.*1 → unlink key l = l.
Proof.
  induction l as [|n l IH]; simpl; intros Hin; [done|].
  apply not_elem_of_cons in Hin as [? ?].
  destruct (decide (n.1 = key)); [congruence|]. by rewrite IH.
Qed.

Lemma set_value_keys l key value : (set_value key value l).*1 = l.*1.
Proof.
  induction l as [|n l IH]; simpl; [done|].
  destruct (decide (n.1 = key)); rewrite !fmap_cons; simpl; [done|].
  by rewrite IH.
Qed.

Lemma node_of_Some l key n : node_of key l = Some n → n.1 = key ∧ n ∈ l.
Proof.
  induction l as [|n' l IH]; simpl; [done|].
  destruct (decide (n'.1 = key)).
  - intros [= <-]. split; [done|apply elem_of_cons; by left].
  - intros Hn. destruct (IH Hn). split; [done|apply elem_of_cons; by right].
Qed.

Lemma node_of_present l key : key ∈ l.*1 → is_Some (node_of key l).
Proof.
  induction l as [|n l IH]; simpl; intros Hin.
  - by apply elem_of_nil in Hin.
  - destruct (decide (n.1 = key)); [by eexists|].
    apply elem_of_cons in Hin as [?|?]; [congruence|by apply IH].
Qed.

Lemma node_of_set_value l key value :
  key ∈ l.*1 → node_of key (set_value key value l) = Some (key, value).
Proof.
  induction l as [|n l IH]; simpl; intros Hin.
  - by apply elem_of_nil in Hin.
  - destruct (decide (n.1 = key)) as [->|Hne]; simpl.
    + by rewrite decide_True.
    + rewrite decide_False by done.
      apply elem_of_cons in Hin as [?|?]; [congruence|by apply IH].
Qed.

Lemma splice_front_keys_elem l key k :
  NoDup l.*1 → k ∈ (splice_front key l).*1 ↔ k ∈ l.*1.
Proof.
  intros Hnd. unfold splice_front.
  destruct (node_of key l) as [n|] eqn:Hn; [|done].
  apply node_of_Some in Hn as [Hk Hin].
  rewrite fmap_cons, elem_of_cons, unlink_keys_elem by done.
  assert (key ∈ l.*1) by (subst key; by apply list_elem_of_fmap_2).
  destruct (decide (k = key)); naive_solver.
Qed.

Lemma splice_front_keys_NoDup l key :
  NoDup l.*1 → NoDup (splice_front key l).*1.
Proof.
  intros Hnd. unfold splice_front.
  destruct (node_of key l) as [n|] eqn:Hn; [|done].
  apply node_of_Some in Hn as [Hk Hin].
  rewrite fmap_cons. apply NoDup_cons. split.
  - rewrite unlink_keys_elem by done. naive_solver.
  - by apply unlink_keys_NoDup.
Qed.

Lemma splice_front_length l key : length (splice_front key l) = length l.
Proof.
  unfold splice_front.
  destruct (node_of key l) as [n|] eqn:Hn; [|done].
  apply node_of_Some in Hn as [Hk Hin]. simpl.
  apply unlink_length. subst key. by apply list_elem_of_fmap_2.
Qed.

Lemma LRUCache_wf_size c : LRUCache_wf c → LRUCache_size c = length (items_ c).
Proof.
  intros [Hnd Hdom]. unfold LRUCache_size.
  assert (map_ c = list_to_set (items_ c).*1) as ->.
  { apply set_eq. intros k. rewrite elem_of_list_to_set. apply Hdom. }
  rewrite size_list_to_set by done. by rewrite length_fmap.
Qed.

Lemma LRUCache_new_wf capacity : LRUCache_wf (LRUCache_new (Key:=Key) (Value:=Value) capacity).
Proof. split; simpl; [constructor|set_solver]. Qed.

Lemma LRUCache_get_wf key c : LRUCache_wf c → LRUCache_wf (LRUCache_get key c).2.
Proof.
  intros [Hnd Hdom]. unfold LRUCache_get.
  destruct (decide (key ∈ map_ c)); simpl; [|done].
  split; simpl.
  - by apply splice_front_keys_NoDup.
  - intros k. by rewrite splice_front_keys_elem.
Qed.

Lemma LRUCache_erase_wf key c : LRUCache_wf c → LRUCache_wf (LRUCache_erase key c).2.
Proof.
  intros [Hnd Hdom]. unfold LRUCache_erase.
  destruct (decide (key ∈ map_ c)); simpl; [|done].
  split; simpl.
  - by apply unlink_keys_NoDup.
  - intros k. rewrite unlink_keys_elem, elem_of_difference, Hdom by done.
    set_solver.
Qed.

(** Shape of [put] of a key that is not resident. *)
Lemma LRUCache_put_fresh key value c :
  LRUCache_wf c → key ∉ map_ c →
  LRUCache_put key value c =
    if decide (capacity_ c < S (length (items_ c))) then
      mkLRUCache (removelast ((key, value) :: items_ c))
        (({[key]} ∪ map_ c) ∖ {[(List.last ((key, value) :: items_ c) (key, value)).1]})
        (capacity_ c)
    else mkLRUCache ((key, value) :: items_ c) ({[key]} ∪ map_ c) (capacity_ c).
Proof.
  intros Hwf Hk. unfold LRUCache_put. rewrite decide_False by done.
  rewrite size_union by set_solver. rewrite size_singleton.
  fold (LRUCache_size c). by rewrite LRUCache_wf_size.
Qed.

Lemma LRUCache_put_wf key value c :
  LRUCache_wf c → LRUCache_wf (LRUCache_put key value c).
Proof.
  intros Hwf. destruct (decide (key ∈ map_ c)) as [Hin|Hout].
  - destruct Hwf as [Hnd Hdom]. unfold LRUCache_put. rewrite decide_True by done.
    split; simpl.
    + apply splice_front_keys_NoDup. by rewrite set_value_keys.
    + intros k. rewrite splice_front_keys_elem by (by rewrite set_value_keys).
      by rewrite set_value_keys.
  - rewrite LRUCache_put_fresh by done. destruct Hwf as [Hnd Hdom].
    assert (NoDup ((key, value) :: items_ c).*1) as Hnd1.
    { rewrite fmap_cons. apply NoDup_cons. split; [by rewrite <-Hdom|done]. }
    assert (∀ k, k ∈ {[key]} ∪ map_ c ↔ k ∈ ((key, value) :: items_ c).*1) as Hdom1.
    { intros k. rewrite fmap_cons, elem_of_cons, elem_of_union, Hdom. set_solver. }
    destruct (decide _); [|by split].
    destruct (exists_last (l:=(key, value) :: items_ c)) as (l' & a & Heq); [done|].
    rewrite Heq in *. rewrite removelast_last, last_last.
    rewrite fmap_app in Hnd1. apply NoDup_app in Hnd1 as (Hl' & Hdisj & _).
    split; simpl; [done|].
    intros k. rewrite elem_of_difference, Hdom1, fmap_app, elem_of_app.
    simpl. rewrite list_elem_of_singleton, elem_of_singleton.
    specialize (Hdisj k). set_solver.
Qed.

Lemma LRU_step_wf c o : LRUCache_wf c → LRUCache_wf (LRU_step c o).
Proof.
  destruct o; simpl; auto using LRUCache_get_wf, LRUCache_put_wf, LRUCache_erase_wf.
Qed.

Lemma LRU_run_wf ops c : LRUCache_wf c → LRUCache_wf (LRU_run ops c).
Proof.
  revert c. induction ops as [|o ops IH]; intros c Hwf; simpl; [done|].
  apply IH. by apply LRU_step_wf.
Qed.

End LRUCache_facts.

(** ** LRU core: capacity bound and eviction of the tail *)

Section LRUCache_bound.
Context {Key Value : Type} `{Countable Key}.
Implicit Types (l : list (Key * Value)) (c : LRUCache Key Value).

Lemma peek_lru_key_snoc c l' a : items_ c = l' ++ [a] → peek_lru_key c = Some a.1.
Proof.
  unfold peek_lru_key. intros Heq.
  destruct (items_ c) as [|n l] eqn:Hi.
  - by destruct l'.
  - rewrite Heq. by rewrite last_last.
Qed.

Lemma peek_lru_key_Some c t :
  peek_lru_key c = Some t → ∃ l' a, items_ c = l' ++ [a] ∧ a.1 = t.
Proof.
  intros Hp. destruct (items_ c) as [|n l] eqn:Hi.
  - unfold peek_lru_key in Hp. by rewrite Hi in Hp.
  - destruct (exists_last (l:=n :: l)) as (l' & a & Heq); [done|].
    exists l', a. split; [done|].
    rewrite Heq in Hi. rewrite (peek_lru_key_snoc c l' a Hi) in Hp. congruence.
Qed.

(** [put] of a new key into a cache that is full: the tail goes, the new
    entry is at the front. *)
Lemma LRUCache_put_full key value c l' a :
  LRUCache_wf c → key ∉ map_ c → items_ c = l' ++ [a] →
  capacity_ c ≤ length (items_ c) →
  LRUCache_put key value c =
    mkLRUCache ((key, value) :: l') (({[key]} ∪ map_ c) ∖ {[a.1]}) (capacity_ c).
Proof.
  intros Hwf Hk Heq Hfull. rewrite LRUCache_put_fresh by done.
  rewrite decide_True by lia. rewrite Heq.
  change ((key, value) :: l' ++ [a]) with (((key, value) :: l') ++ [a]).
  by rewrite removelast_last, last_last.
Qed.

Lemma LRUCache_put_room key value c :
  LRUCache_wf c → key ∉ map_ c → length (items_ c) < capacity_ c →
  LRUCache_put key value c =
    mkLRUCache ((key, value) :: items_ c) ({[key]} ∪ map_ c) (capacity_ c).
Proof.
  intros Hwf Hk Hroom. rewrite LRUCache_put_fresh by done.
  by rewrite decide_False by lia.
Qed.

Lemma LRU_step_capacity c o : capacity_ (LRU_step c o) = capacity_ c.
Proof.
  destruct o; simpl;
    unfold LRUCache_get, LRUCache_put, LRUCache_erase;
    repeat (destruct (decide _); simpl); done.
Qed.

Lemma LRU_step_size c o :
  LRUCache_wf c → LRUCache_size c ≤ capacity_ c →
  LRUCache_size (LRU_step c o) ≤ capacity_ c.
Proof.
  intros Hwf Hle. destruct o as [k|k v|k]; simpl.
  - unfold LRUCache_get. by destruct (decide _).
  - destruct (decide (k ∈ map_ c)) as [Hin|Hout].
    + unfold LRUCache_put. by rewrite decide_True.
    + pose proof (LRUCache_put_wf k v c Hwf) as Hwf'.
      rewrite (LRUCache_wf_size _ Hwf').
      rewrite (LRUCache_wf_size _ Hwf) in Hle.
      destruct (decide (length (items_ c) < capacity_ c)) as [Hroom|Hfull].
      * rewrite LRUCache_put_room by done. simpl. lia.
      * destruct (decide (items_ c = [])) as [Hnil|Hne].
        { rewrite LRUCache_put_fresh by done. rewrite Hnil in *.
          rewrite decide_True by (simpl in *; lia). simpl. lia. }
        destruct (exists_last Hne) as (l' & a & Heq).
        rewrite (LRUCache_put_full k v c l' a) by (done || lia). simpl.
        rewrite Heq, length_app in Hle. simpl in Hle. lia.
  - unfold LRUCache_erase. destruct (decide _); simpl; [|done].
    unfold LRUCache_size in *. simpl.
    etrans; [|exact Hle]. apply subseteq_size. set_solver.
Qed.

Lemma LRU_run_capacity ops c : capacity_ (LRU_run ops c) = capacity_ c.
Proof.
  revert c. induction ops as [|o ops IH]; intros c; simpl; [done|].
  by rewrite IH, LRU_step_capacity.
Qed.

Lemma LRU_run_size ops c :
  LRUCache_wf c → LRUCache_size c ≤ capacity_ c →
  LRUCache_size (LRU_run ops c) ≤ capacity_ c.
Proof.
  revert c. induction ops as [|o ops IH]; intros c Hwf Hle; simpl; [done|].
  rewrite <-(LRU_step_capacity c o). apply IH.
  - by apply LRU_step_wf.
  - rewrite LRU_step_capacity. by apply LRU_step_size.
Qed.

Lemma LRU_trace_size ops c :
  LRUCache_wf c → LRUCache_size c ≤ capacity_ c →
  Forall (λ c', LRUCache_size c' ≤ capacity_ c) (LRU_trace ops c).
Proof.
  revert c. induction ops as [|o ops IH]; intros c Hwf Hle; simpl; [constructor|].
  pose proof (LRU_step_size c o Hwf Hle) as Hs.
  constructor; [done|].
  rewrite <-(LRU_step_capacity c o). apply IH.
  - by apply LRU_step_wf.
  - by rewrite LRU_step_capacity.
Qed.

Lemma LRUCache_new_size capacity :
  LRUCache_size (LRUCache_new (Key:=Key) (Value:=Value) capacity) = 0.
Proof. reflexivity. Qed.

(** C2. For every sequence of get/put/erase operations on an LRUCache
    built with capacity [C], [size() <= C] after every operation; and when
    [put(k, v)] is called with [k] not present and [size() = C], the key
    that [peek_lru_key()] reported before the put is absent after it. *)
Theorem LRUCache_size_bound_and_tail_evicted (C : nat) (ops : list (LRU_op Key Value)) :
  Forall (λ c, LRUCache_size c ≤ C) (LRU_trace ops (LRUCache_new C)) ∧
  ∀ (k : Key) (v : Value) (t : Key),
    let c := LRU_run ops (LRUCache_new C) in
    LRUCache_contains k c = false →
    LRUCache_size c = C →
    peek_lru_key c = Some t →
    LRUCache_contains t (LRUCache_put k v c) = false.
Proof.
  split.
  - apply (LRU_trace_size ops (LRUCache_new C)).
    + apply LRUCache_new_wf.
    + rewrite LRUCache_new_size. lia.
  - intros k v t c Hk Hsz Hpeek.
    assert (LRUCache_wf c) as Hwf by apply LRU_run_wf, LRUCache_new_wf.
    assert (capacity_ c = C) as Hcap by apply LRU_run_capacity.
    apply bool_decide_eq_false in Hk.
    apply peek_lru_key_Some in Hpeek as (l' & a & Heq & <-).
    rewrite (LRUCache_wf_size _ Hwf) in Hsz.
    rewrite (LRUCache_put_full k v c l' a) by (done || lia).
    apply bool_decide_eq_false. simpl. set_solver.
Qed.

(** C9. Constructing an LRUCache with capacity 0 succeeds, and on such a
    cache every [put(k, v)] leaves the cache empty: right after the put
    [size() = 0], [contains(k)] is false and [get(k)] returns absent. *)
Theorem LRUCache_capacity_zero_put_evicts_itself
    (ops : list (LRU_op Key Value)) (k : Key) (v : Value) :
  LRUCache_ctor (Key:=Key) (Value:=Value) 0 = Constructed (LRUCache_new 0) ∧
  let c := LRUCache_put k v (LRU_run ops (LRUCache_new 0)) in
  LRUCache_size c = 0 ∧
  LRUCache_contains k c = false ∧
  (LRUCache_get k c).1 = None.
Proof.
  split; [done|].
  set (c0 := LRU_run ops (LRUCache_new 0)). intros c.
  assert (LRUCache_wf c0) as Hwf0 by apply LRU_run_wf, LRUCache_new_wf.
  assert (capacity_ c0 = 0) as Hcap by apply LRU_run_capacity.
  assert (LRUCache_size c0 ≤ capacity_ c0) as Hle0.
  { rewrite Hcap. apply (LRU_run_size ops (LRUCache_new 0)).
    - apply LRUCache_new_wf.
    - by rewrite LRUCache_new_size. }
  assert (LRUCache_size c = 0) as Hsz.
  { pose proof (LRU_step_size c0 (OpPut k v) Hwf0 Hle0) as Hs.
    simpl in Hs. fold c in Hs. lia. }
  assert (k ∉ map_ c) as Hk.
  { unfold LRUCache_size in Hsz. apply size_empty_inv in Hsz. set_solver. }
  split; [done|]. split.
  - by apply bool_decide_eq_false.
  - unfold LRUCache_get. by rewrite decide_False.
Qed.

End LRUCache_bound.

(** Scenario 1 of the specification, up to the put of a third key:
    capacity 2, [put(1,a); put(2,b); get(1)], then [put(3,c)] evicts key 2. *)
Lemma LRUCache_size_bound_and_tail_evicted_witness :
  let ops := [OpPut 1%Z "a"%string; OpPut 2%Z "b"%string; OpGet 1%Z] in
  let c := LRU_run ops (LRUCache_new 2) in
  LRUCache_contains 3%Z c = false ∧
  LRUCache_size c = 2 ∧
  peek_lru_key c = Some 2%Z ∧
  LRUCache_contains 2%Z (LRUCache_put 3%Z "c"%string c) = false.
Proof.
  intros ops c.
  assert (LRUCache_contains 3%Z c = false) as H1 by (vm_compute; reflexivity).
  assert (LRUCache_size c = 2) as H2 by (vm_compute; reflexivity).
  assert (peek_lru_key c = Some 2%Z) as H3 by (vm_compute; reflexivity).
  split; [exact H1|]. split; [exact H2|]. split; [exact H3|].
  exact (proj2 (LRUCache_size_bound_and_tail_evicted 2 ops) 3%Z "c"%string 2%Z H1 H2 H3).
Defined.

(** ** Count-Min Sketch: what the counters hold *)

Section CountMinSketch_facts.
Context {Key : Type} `{EqDecision Key}.
Variable hasher : Key → N.
Implicit Types (s : CountMinSketch) (rows : list (list N)) (k : Key).

Lemma index_lt width k i : 0 < width → index hasher width k i < width.
Proof.
  intros Hw. unfold index.
  set (h' := N.lxor _ _). set (mask := wrap64 _).
  pose proof (N.land_le_r h' mask) as Hle.
  assert (mask ≤ N.of_nat width - 1)%N as Hmask.
  { unfold mask, wrap64.
    replace (N.of_nat width + 2 ^ 64 - 1)%N
      with ((N.of_nat width - 1) + 1 * 2 ^ 64)%N by lia.
    rewrite N.Div0.mod_add. apply N.Div0.mod_le. }
  lia.
Qed.

Lemma in_range_alter rows (f : N → N) i' j' i j :
  in_range rows i j → in_range (alter (alter f j') i' rows) i j.
Proof.
  intros (row & Hrow & Hj). unfold in_range.
  rewrite list_lookup_alter. destruct (decide (i' = i)) as [->|]; [|eauto].
  rewrite Hrow. simpl. eexists. split; [done|]. by rewrite length_alter.
Qed.

Lemma counter_at_alter rows (f : N → N) i' j' i j :
  in_range rows i j →
  counter_at (alter (alter f j') i' rows) i j =
    if decide (i = i' ∧ j = j') then f (counter_at rows i j)
    else counter_at rows i j.
Proof.
  intros (row & Hrow & Hj). unfold counter_at.
  destruct (lookup_lt_is_Some_2 row j Hj) as [c Hc].
  destruct (decide (i' = i)) as [->|Hi].
  - rewrite list_lookup_alter_eq, Hrow. simpl.
    destruct (decide (j' = j)) as [->|Hj'].
    + rewrite list_lookup_alter_eq, Hc. simpl. by rewrite decide_True.
    + rewrite list_lookup_alter_ne, Hc by done. simpl.
      rewrite decide_False by naive_solver. done.
  - rewrite list_lookup_alter_ne, Hrow by done. simpl. rewrite Hc. simpl.
    rewrite decide_False by naive_solver. done.
Qed.

(** The loop of [add] over the rows [ixs]. *)
Lemma add_loop_in_range width k (ixs : list nat) rows i j :
  in_range rows i j →
  in_range
    (foldl (λ rows i, alter (alter sat_inc (index hasher width k i)) i rows) rows ixs)
    i j.
Proof.
  revert rows. induction ixs as [|i0 ixs IH]; intros rows Hr; simpl; [done|].
  by apply IH, in_range_alter.
Qed.

Lemma add_loop_counter width k (ixs : list nat) rows i j :
  NoDup ixs → in_range rows i j →
  counter_at
    (foldl (λ rows i, alter (alter sat_inc (index hasher width k i)) i rows) rows ixs)
    i j =
    if decide (i ∈ ixs ∧ j = index hasher width k i)
    then sat_inc (counter_at rows i j) else counter_at rows i j.
Proof.
  intros Hnd. revert rows.
  induction Hnd as [|i0 ixs Hi0 Hnd IH]; intros rows Hr; cbn [foldl].
  - rewrite decide_False; [done|]. intros [Hin _]. by apply elem_of_nil in Hin.
  - rewrite IH by by apply in_range_alter.
    rewrite counter_at_alter by done.
    destruct (decide (i = i0 ∧ j = index hasher width k i0)) as [[-> ->]|Hne].
    + rewrite decide_False by naive_solver.
      rewrite decide_True; [done|]. split; [apply elem_of_cons; by left|done].
    + destruct (decide (i ∈ ixs ∧ j = index hasher width k i)) as [[Hin ->]|Hn2].
      * rewrite decide_True; [done|]. split; [apply elem_of_cons; by right|done].
      * rewrite decide_False; [done|]. intros [Hin ->].
        apply elem_of_cons in Hin as [->|Hin]; naive_solver.
Qed.

Lemma CMS_shape_in_range s i j :
  CMS_shape s → i < depth_ s → j < width_ s → in_range (rows_ s) i j.
Proof.
  intros (Hw & Hlen & Hrows) Hi Hj.
  destruct (lookup_lt_is_Some_2 (rows_ s) i) as [row Hrow]; [lia|].
  exists row. split; [done|].
  rewrite Forall_lookup in Hrows. by rewrite (Hrows i row Hrow).
Qed.

Lemma CMS_add_shape k s : CMS_shape s → CMS_shape (CMS_add hasher k s).
Proof.
  intros (Hw & Hlen & Hrows). unfold CMS_add, CMS_shape. simpl.
  split; [done|].
  generalize (seq 0 (depth_ s)). intros ixs.
  revert Hlen Hrows. generalize (rows_ s) as rows.
  induction ixs as [|i0 ixs IH]; intros rows Hlen Hrows; simpl; [done|].
  apply IH.
  - by rewrite length_alter.
  - apply Forall_alter; [done|]. intros row _ Hrow. by rewrite length_alter.
Qed.

Lemma CMS_add_counter k s i j :
  CMS_shape s → i < depth_ s → j < width_ s →
  counter_at (rows_ (CMS_add hasher k s)) i j =
    if decide (j = index hasher (width_ s) k i)
    then sat_inc (counter_at (rows_ s) i j) else counter_at (rows_ s) i j.
Proof.
  intros Hs Hi Hj. unfold CMS_add. simpl.
  rewrite add_loop_counter by (apply NoDup_seq || by apply CMS_shape_in_range).
  destruct (decide (j = index hasher (width_ s) k i)) as [->|Hne].
  - rewrite decide_True; [done|]. split; [|done]. apply elem_of_seq. lia.
  - rewrite decide_False by naive_solver. done.
Qed.

Lemma CMS_new_shape width depth : 0 < width → CMS_shape (CMS_new width depth).
Proof.
  intros Hw. unfold CMS_shape, CMS_new. simpl.
  split; [done|]. split; [by rewrite length_replicate|].
  apply Forall_replicate. by rewrite length_replicate.
Qed.

Lemma CMS_new_counter width depth i j :
  counter_at (rows_ (CMS_new width depth)) i j = 0%N.
Proof.
  unfold counter_at, CMS_new. simpl.
  destruct (replicate depth (replicate width 0%N) !! i) as [row|] eqn:Hrow; [|done].
  apply lookup_replicate in Hrow as [-> _]. simpl.
  destruct (replicate width 0%N !! j) as [c|] eqn:Hc; [|done].
  by apply lookup_replicate in Hc as [-> _].
Qed.

Lemma CMS_add_all_snoc ks k s :
  CMS_add_all hasher (ks ++ [k]) s = CMS_add hasher k (CMS_add_all hasher ks s).
Proof. unfold CMS_add_all. by rewrite foldl_app. Qed.

Lemma CMS_add_all_shape ks s :
  CMS_shape s →
  CMS_shape (CMS_add_all hasher ks s) ∧
  width_ (CMS_add_all hasher ks s) = width_ s ∧
  depth_ (CMS_add_all hasher ks s) = depth_ s.
Proof.
  intros Hs. induction ks as [|k ks IH] using rev_ind; [done|].
  rewrite CMS_add_all_snoc. destruct IH as (Hs' & Hw & Hd).
  split; [by apply CMS_add_shape|]. done.
Qed.

Lemma sat_inc_min (n : N) :
  sat_inc (N.min UINT32_MAX n) = N.min UINT32_MAX (n + 1).
Proof. unfold sat_inc, UINT32_MAX. destruct (decide _); lia. Qed.

Lemma hits_snoc width ks k i j :
  hits hasher width (ks ++ [k]) i j =
    hits hasher width ks i j + (if decide (index hasher width k i = j) then 1 else 0).
Proof.
  unfold hits. rewrite filter_app, length_app. f_equal.
  rewrite filter_cons, filter_nil. by destruct (decide _).
Qed.

(** Every counter holds the number of adds that selected it, capped at
    [UINT32_MAX]. *)
Lemma CMS_add_all_counter width depth ks i j :
  0 < width → i < depth → j < width →
  counter_at (rows_ (CMS_add_all hasher ks (CMS_new width depth))) i j =
    N.min UINT32_MAX (N.of_nat (hits hasher width ks i j)).
Proof.
  intros Hw Hi Hj. induction ks as [|k ks IH] using rev_ind.
  - unfold CMS_add_all. cbn [foldl]. by rewrite CMS_new_counter.
  - destruct (CMS_add_all_shape ks (CMS_new width depth) (CMS_new_shape _ _ Hw))
      as (Hs & Hwd & Hd).
    rewrite CMS_add_all_snoc, CMS_add_counter by (done || by rewrite ?Hwd, ?Hd).
    rewrite IH, Hwd, hits_snoc. simpl.
    destruct (decide (j = _)) as [->|Hne].
    + rewrite decide_True by done. rewrite sat_inc_min. f_equal. lia.
    + rewrite decide_False by done. f_equal. lia.
Qed.

(** The minimum loop of [estimate]. *)
Lemma min_loop_le (g : nat → N) (ixs : list nat) (a b : N) :
  (b ≤ foldl (λ m i, N.min m (g i)) a ixs)%N ↔
  (b ≤ a)%N ∧ ∀ i, i ∈ ixs → (b ≤ g i)%N.
Proof.
  revert a. induction ixs as [|i0 ixs IH]; intros a; simpl.
  - split; [|tauto]. intros Hb. split; [done|]. intros i Hi.
    by apply elem_of_nil in Hi.
  - rewrite IH. split.
    + intros [Hm Hall]. split; [lia|]. intros i Hi.
      apply elem_of_cons in Hi as [->|Hi]; [lia|by apply Hall].
    + intros [Ha Hall]. split.
      * pose proof (Hall i0 (list_elem_of_here _ _)). lia.
      * intros i Hi. apply Hall, elem_of_cons. by right.
Qed.

Lemma min_loop_upper (g : nat → N) (ixs : list nat) (a : N) :
  (foldl (λ m i, N.min m (g i)) a ixs ≤ a)%N ∧
  ∀ i, i ∈ ixs → (foldl (λ m i, N.min m (g i)) a ixs ≤ g i)%N.
Proof. by apply min_loop_le. Qed.

Lemma min_loop_attained (g : nat → N) (ixs : list nat) (a : N) :
  foldl (λ m i, N.min m (g i)) a ixs = a ∨
  ∃ i, i ∈ ixs ∧ foldl (λ m i, N.min m (g i)) a ixs = g i.
Proof.
  revert a. induction ixs as [|i0 ixs IH]; intros a; [by left|].
  cbn [foldl]. destruct (IH (N.min a (g i0))) as [Heq|(i & Hi & Heq)].
  - rewrite Heq. destruct (N.min_spec a (g i0)) as [[_ ->]|[_ ->]].
    + by left.
    + right. exists i0. split; [apply elem_of_cons; by left|done].
  - right. exists i. split; [apply elem_of_cons; by right|done].
Qed.

End CountMinSketch_facts.

(** ** Count-Min Sketch: estimates *)

Section CountMinSketch_estimate.
Context {Key : Type} `{EqDecision Key}.
Variable hasher : Key → N.
Implicit Types (s : CountMinSketch) (k : Key).

Lemma observed_le_hits width ks k i :
  observed k ks ≤ hits hasher width ks i (index hasher width k i).
Proof.
  unfold observed, hits. induction ks as [|k' ks IH]; [done|].
  rewrite !filter_cons.
  destruct (decide (k' = k)) as [->|Hne].
  - rewrite decide_True by done. simpl. lia.
  - destruct (decide _); simpl; lia.
Qed.

Lemma hits_le_length width ks i j : hits hasher width ks i j ≤ length ks.
Proof. unfold hits. apply length_filter. Qed.

Lemma min_loop_const (g : nat → N) (ixs : list nat) (a c : N) :
  (∀ i, i ∈ ixs → g i = c) →
  foldl (λ m i, N.min m (g i)) a ixs = if decide (ixs = []) then a else N.min a c.
Proof.
  revert a. induction ixs as [|i0 ixs IH]; intros a Hg; [done|].
  cbn [foldl]. rewrite IH by (intros i Hi; apply Hg, elem_of_cons; by right).
  rewrite (Hg i0) by (apply elem_of_cons; by left).
  rewrite (decide_False (P:=i0 :: ixs = [])) by done.
  destruct (decide (ixs = [])); lia.
Qed.

Lemma hits_split width ks k i :
  hits hasher width ks i (index hasher width k i) =
    observed k ks + collisions hasher width k ks i.
Proof.
  unfold hits, observed, collisions. induction ks as [|k' ks IH]; [done|].
  rewrite !filter_cons.
  destruct (decide (k' = k)) as [->|Hne].
  - rewrite decide_True by done. rewrite decide_False by naive_solver.
    simpl. lia.
  - destruct (decide (index hasher width k' i = index hasher width k i)).
    + rewrite decide_True by done. simpl. lia.
    + rewrite decide_False by naive_solver. done.
Qed.

(** C4, as amended.  The sketch over-estimates only through collisions:
    after any run of [add] calls on a fresh sketch, [estimate(k)] is, for
    each row, at most the number of times [k] was added plus the number of
    adds of other keys that select [k]'s counter in that row; a sketch
    without rows reads 0.  As long as fewer than [UINT32_MAX] adds were made
    and there is at least one row, [estimate(k)] is at least the number of
    times [k] was added, and it is that number plus the collisions of
    some row. *)
Theorem CMS_estimate_brackets_observed (width depth : nat) (ks : list Key) (k : Key) :
  0 < width →
  let s := CMS_add_all hasher ks (CMS_new width depth) in
  (∀ i, i < depth →
        (CMS_estimate hasher k s
         ≤ N.of_nat (observed k ks + collisions hasher width k ks i))%N) ∧
  (depth = 0 → CMS_estimate hasher k s = 0%N) ∧
  (0 < depth → (N.of_nat (length ks) < UINT32_MAX)%N →
   (N.of_nat (observed k ks) ≤ CMS_estimate hasher k s)%N ∧
   ∃ i, i < depth ∧
        CMS_estimate hasher k s
        = N.of_nat (observed k ks + collisions hasher width k ks i)).
Proof.
  intros Hw s.
  destruct (CMS_add_all_shape hasher ks (CMS_new width depth)
              (CMS_new_shape _ _ Hw)) as (Hs & Hwd & Hd).
  fold s in Hs, Hwd, Hd. simpl in Hwd, Hd.
  unfold CMS_estimate. rewrite Hwd, Hd.
  set (g := λ i, counter_at (rows_ s) i (index hasher width k i)).
  assert (∀ i, i < depth →
            g i = N.min UINT32_MAX
                    (N.of_nat (observed k ks + collisions hasher width k ks i)))
    as Hg.
  { intros i Hi. unfold g, s. rewrite <- hits_split.
    apply CMS_add_all_counter; [done..|by apply index_lt]. }
  assert (∀ i, observed k ks + collisions hasher width k ks i ≤ length ks) as Hlen.
  { intros i. rewrite <- hits_split. apply hits_le_length. }
  change (foldl _ UINT32_MAX (seq 0 depth))
    with (foldl (λ m i, N.min m (g i)) UINT32_MAX (seq 0 depth)).
  set (m := foldl _ _ _).
  assert (∀ i, i < depth → (m ≤ g i)%N) as Hrow.
  { intros i Hi.
    destruct (min_loop_upper g (seq 0 depth) UINT32_MAX) as [_ Hall].
    apply Hall, elem_of_seq. lia. }
  split; [|split].
  - intros i Hi. specialize (Hrow i Hi). rewrite Hg in Hrow by done.
    destruct (decide (m = UINT32_MAX)); lia.
  - intros ->. done.
  - intros Hdep Hlt.
    assert (m ≠ UINT32_MAX) as Hm.
    { pose proof (Hrow 0 Hdep) as H0. rewrite Hg in H0 by done.
      pose proof (Hlen 0). lia. }
    rewrite decide_False by done. split.
    + apply min_loop_le. split.
      * pose proof (Hlen 0). lia.
      * intros i Hi. apply elem_of_seq in Hi. rewrite Hg by lia.
        pose proof (Hlen i). lia.
    + destruct (min_loop_attained g (seq 0 depth) UINT32_MAX)
        as [Hmax|(i & Hi & Hatt)]; [done|].
      apply elem_of_seq in Hi. exists i. split; [lia|].
      fold m in Hatt. rewrite Hatt, Hg by lia. pose proof (Hlen i). lia.
Qed.

Lemma CMS_add_times_shape width depth n k :
  0 < width →
  CMS_shape (CMS_add_times hasher n k (CMS_new width depth)) ∧
  width_ (CMS_add_times hasher n k (CMS_new width depth)) = width ∧
  depth_ (CMS_add_times hasher n k (CMS_new width depth)) = depth.
Proof.
  intros Hw. unfold CMS_add_times.
  induction n as [|n IH] using N.peano_ind.
  - split; [by apply CMS_new_shape|done].
  - rewrite N.iter_succ. destruct IH as (Hs & Hwd & Hd).
    split; [by apply CMS_add_shape|done].
Qed.

(** After [n] adds of [k] alone, each of its counters holds [n], capped. *)
Lemma CMS_add_times_counter width depth n k i :
  0 < width → i < depth →
  counter_at (rows_ (CMS_add_times hasher n k (CMS_new width depth))) i
             (index hasher width k i) = N.min UINT32_MAX n.
Proof.
  intros Hw Hi. induction n as [|n IH] using N.peano_ind.
  - unfold CMS_add_times. cbn [N.iter]. by rewrite CMS_new_counter.
  - destruct (CMS_add_times_shape width depth n k Hw) as (Hs & Hwd & Hd).
    unfold CMS_add_times in *. rewrite N.iter_succ.
    rewrite CMS_add_counter by (done || rewrite ?Hwd, ?Hd; done || by apply index_lt).
    rewrite Hwd, decide_True by done. rewrite IH.
    rewrite sat_inc_min. f_equal. lia.
Qed.

Lemma CMS_add_times_estimate width depth n k :
  0 < width → 1 ≤ depth →
  CMS_estimate hasher k (CMS_add_times hasher n k (CMS_new width depth)) =
    if decide (N.min UINT32_MAX n = UINT32_MAX) then 0%N else N.min UINT32_MAX n.
Proof.
  intros Hw Hd.
  destruct (CMS_add_times_shape width depth n k Hw) as (Hs & Hwd & Hdp).
  unfold CMS_estimate. rewrite Hwd, Hdp.
  rewrite (min_loop_const _ _ _ (N.min UINT32_MAX n)).
  - rewrite (decide_False (P:=seq 0 depth = [])).
    + by rewrite N.min_assoc, N.min_id.
    + intros Heq. apply (f_equal length) in Heq.
      rewrite length_seq in Heq. simpl in Heq. lia.
  - intros i Hi. apply elem_of_seq in Hi.
    apply CMS_add_times_counter; [done|lia].
Qed.

(** C10. On a sketch with at least one row, when all of [k]'s selected
    counters are at [UINT32_MAX], [estimate(k)] returns 0 rather than
    [UINT32_MAX]; so some run of [add(k)] calls on a fresh sketch has a
    strictly smaller estimate after one more [add(k)]. *)
Theorem CMS_estimate_saturated_reads_zero (width depth : nat) (k : Key) :
  0 < width → 1 ≤ depth →
  (∀ s, width_ s = width → depth_ s = depth →
        (∀ i, i < depth →
              counter_at (rows_ s) i (index hasher width k i) = UINT32_MAX) →
        CMS_estimate hasher k s = 0%N ∧ CMS_estimate hasher k s ≠ UINT32_MAX) ∧
  ∃ n : N,
    (CMS_estimate hasher k (CMS_add_times hasher (n + 1) k (CMS_new width depth))
     < CMS_estimate hasher k (CMS_add_times hasher n k (CMS_new width depth)))%N.
Proof.
  intros Hw Hd. split.
  - intros s Hws Hds Hsat.
    assert (CMS_estimate hasher k s = 0%N) as Hz.
    { unfold CMS_estimate. rewrite Hws, Hds.
      rewrite (min_loop_const _ _ _ UINT32_MAX).
      - destruct (decide (seq 0 depth = [])); by rewrite ?N.min_id.
      - intros i Hi. apply elem_of_seq in Hi. apply Hsat. lia. }
    rewrite Hz. done.
  - exists (UINT32_MAX - 1)%N.
    rewrite !CMS_add_times_estimate by done.
    unfold UINT32_MAX. rewrite decide_True by lia. rewrite decide_False by lia. lia.
Qed.

End CountMinSketch_estimate.

(** With the default dimensions (width 4096, depth 4) the column index
    depends only on the low 14 bits of the hash, so the [int] keys 0 and
    16384 select the same counter in every row: one [add(0)] makes
    [estimate(16384)] read 1 although 16384 was never added. *)
Lemma CMS_estimate_exceeds_observed :
  let s := CMS_add_all int_hasher [0%Z] (CMS_new 4096 4) in
  CMS_estimate int_hasher 16384%Z s = 1%N ∧
  observed 16384%Z [0%Z] = 0 ∧
  ¬ (CMS_estimate int_hasher 16384%Z s ≤ N.of_nat (observed 16384%Z [0%Z]))%N.
Proof.
  intros s.
  assert (CMS_estimate int_hasher 16384%Z s = 1%N) as He by (vm_compute; reflexivity).
  assert (observed 16384%Z [0%Z] = 0) as Ho by (vm_compute; reflexivity).
  split; [exact He|]. split; [exact Ho|].
  rewrite He, Ho. intros Hle. vm_compute in Hle. by apply Hle.
Qed.

Lemma CMS_estimate_brackets_observed_witness :
  let ks := [0%Z; 1%Z; 2%Z; 3%Z] in
  let s := CMS_add_all int_hasher ks (CMS_new 4096 4) in
  0 < 4096 ∧ 0 < 4 ∧ (N.of_nat (length ks) < UINT32_MAX)%N ∧
  collisions int_hasher 4096 0%Z ks 0 = 0 ∧
  (CMS_estimate int_hasher 0%Z s
   ≤ N.of_nat (observed 0%Z ks + collisions int_hasher 4096 0%Z ks 0))%N ∧
  (N.of_nat (observed 0%Z ks) ≤ CMS_estimate int_hasher 0%Z s)%N.
Proof.
  intros ks s.
  assert (0 < 4096) as Hw by lia.
  assert (0 < 4) as Hd by lia.
  assert (N.of_nat (length ks) < UINT32_MAX)%N as Hlt by (vm_compute; reflexivity).
  split; [exact Hw|]. split; [exact Hd|]. split; [exact Hlt|].
  split; [vm_compute; reflexivity|].
  pose proof (CMS_estimate_brackets_observed int_hasher 4096 4 ks 0%Z Hw)
    as (Hup & _ & Hlo).
  split; [exact (Hup 0 Hd)|exact (proj1 (Hlo Hd Hlt))].
Defined.

Lemma CMS_estimate_saturated_reads_zero_witness :
  0 < 4096 ∧ 1 ≤ 4 ∧
  ∃ n : N,
    (CMS_estimate int_hasher 7%Z (CMS_add_times int_hasher (n + 1) 7%Z (CMS_new 4096 4))
     < CMS_estimate int_hasher 7%Z (CMS_add_times int_hasher n 7%Z (CMS_new 4096 4)))%N.
Proof.
  assert (0 < 4096) as Hw by lia.
  assert (1 ≤ 4) as Hd by lia.
  split; [exact Hw|]. split; [exact Hd|].
  exact (proj2 (CMS_estimate_saturated_reads_zero int_hasher 4096 4 7%Z Hw Hd)).
Defined.

(** ** TinyLFU admission *)

Section TinyLFU_admission.
Context {Key Value : Type} `{Countable Key}.
Variable hasher : Key → N.
Implicit Types (t : TinyLFUAdmittingLRU Key Value) (c : LRUCache Key Value).

Lemma unlink_snoc (l' : list (Key * Value)) (a : Key * Value) :
  NoDup (l' ++ [a]).*1 → unlink a.1 (l' ++ [a]) = l'.
Proof.
  rewrite fmap_app. intros Hnd. apply NoDup_app in Hnd as (_ & Hdisj & _).
  induction l' as [|n l' IH]; simpl.
  - by rewrite decide_True.
  - destruct (decide (n.1 = a.1)) as [Heq|Hne].
    + exfalso. apply (Hdisj n.1).
      * rewrite fmap_cons. apply elem_of_cons. by left.
      * rewrite Heq. simpl. apply elem_of_cons. by left.
    + f_equal. apply IH. intros x Hx. apply Hdisj.
      rewrite fmap_cons. apply elem_of_cons. by right.
Qed.

Lemma TinyLFU_put_wf key value t :
  LRUCache_wf (lru_ t) → LRUCache_wf (lru_ (TinyLFU_put hasher key value t)).
Proof.
  intros Hwf. unfold TinyLFU_put.
  destruct (LRUCache_contains key (lru_ t)); simpl; [by apply LRUCache_put_wf|].
  destruct (decide _); simpl; [by apply LRUCache_put_wf|].
  destruct (peek_lru_key (lru_ t)); simpl; [|by apply LRUCache_put_wf].
  destruct (decide _); simpl; [|done].
  by apply LRUCache_put_wf, LRUCache_erase_wf.
Qed.

(** C1. [put(k, v)] with [k] not resident, the core full and not empty:
    [k] is admitted iff [estimate(k) >= estimate(victim)], both read after
    this put's sketch increment for [k], the victim being
    [peek_lru_key()].  On admission the victim is erased and [k] enters
    at the MRU end; on rejection the core is left as it was. *)
Theorem TinyLFU_put_admits_iff_estimate_ge
    (t : TinyLFUAdmittingLRU Key Value) (k : Key) (v : Value) (victim : Key) :
  LRUCache_wf (lru_ t) →
  LRUCache_contains k (lru_ t) = false →
  LRUCache_size (lru_ t) = LRUCache_capacity (lru_ t) →
  peek_lru_key (lru_ t) = Some victim →
  let cms1 := CMS_add hasher k (cms_ t) in
  let newEst := CMS_estimate hasher k cms1 in
  let victimEst := CMS_estimate hasher victim cms1 in
  let t' := TinyLFU_put hasher k v t in
  cms_ t' = cms1 ∧
  (TinyLFU_contains k t' = true ↔ (victimEst ≤ newEst)%N) ∧
  ((victimEst ≤ newEst)%N →
     items_ (lru_ t') = (k, v) :: unlink victim (items_ (lru_ t)) ∧
     TinyLFU_contains victim t' = false ∧
     TinyLFU_size t' = TinyLFU_capacity t) ∧
  ((newEst < victimEst)%N → lru_ t' = lru_ t).
Proof.
  intros Hwf Hk Hsz Hpeek cms1 newEst victimEst t'.
  pose proof Hk as Hk'. apply bool_decide_eq_false in Hk'.
  apply peek_lru_key_Some in Hpeek as (l' & a & Heq & <-).
  pose proof Hwf as [Hnd Hdom].
  assert (a.1 ∈ map_ (lru_ t)) as Hvic.
  { apply Hdom. rewrite Heq, fmap_app. apply elem_of_app. right.
    apply elem_of_cons. by left. }
  assert (k ≠ a.1) as Hne by (intros ->; done).
  rewrite (LRUCache_wf_size _ Hwf) in Hsz. unfold LRUCache_capacity in Hsz.
  assert (t' =
    if decide (victimEst ≤ newEst)%N then
      mkTinyLFU (LRUCache_put k v (LRUCache_erase a.1 (lru_ t)).2) cms1
    else mkTinyLFU (lru_ t) cms1) as Ht'.
  { unfold t', TinyLFU_put. rewrite Hk.
    rewrite decide_False
      by (unfold LRUCache_capacity; rewrite (LRUCache_wf_size _ Hwf); lia).
    by rewrite (peek_lru_key_snoc _ l' a Heq). }
  assert (LRUCache_put k v (LRUCache_erase a.1 (lru_ t)).2 =
          mkLRUCache ((k, v) :: unlink a.1 (items_ (lru_ t)))
                     ({[k]} ∪ map_ (lru_ t) ∖ {[a.1]}) (capacity_ (lru_ t))) as Hput.
  { pose proof (LRUCache_erase_wf a.1 _ Hwf) as Hwf1.
    unfold LRUCache_erase in *. rewrite decide_True in * by done. simpl in *.
    rewrite LRUCache_put_room; [done|done|set_solver|]. simpl.
    assert (a.1 ∈ (items_ (lru_ t)).*1) as Hin by by apply Hdom.
    pose proof (unlink_length _ _ Hin). lia. }
  rewrite Ht'. destruct (decide (victimEst ≤ newEst)%N) as [Hge|Hlt]; simpl.
  - rewrite Hput. unfold TinyLFU_contains, TinyLFU_size, TinyLFU_capacity,
      LRUCache_contains, LRUCache_size, LRUCache_capacity. simpl.
    split; [done|]. split.
    + split; [done|]. intros _. apply bool_decide_eq_true. set_solver.
    + split; [|intros; lia]. intros _. split; [done|]. split.
      * apply bool_decide_eq_false. set_solver.
      * rewrite size_union by set_solver. rewrite size_singleton.
        rewrite size_difference by set_solver. rewrite size_singleton.
        fold (LRUCache_size (lru_ t)). rewrite (LRUCache_wf_size _ Hwf).
        rewrite Heq, length_app in *. simpl in *. lia.
  - split; [done|]. unfold TinyLFU_contains. simpl. rewrite Hk.
    split; [split; [done|intros; lia]|]. split; [intros; lia|done].
Qed.

End TinyLFU_admission.

(** Capacity 2 holding keys 1 and 2, each seen once; [put(3, c)] ties with
    the victim 1 on the estimate and is admitted. *)
Lemma TinyLFU_put_admits_iff_estimate_ge_witness :
  let t := mkTinyLFU
             (LRU_run [OpPut 1%Z "a"%string; OpPut 2%Z "b"%string] (LRUCache_new 2))
             (CMS_add_all int_hasher [1%Z; 2%Z] (CMS_new 4096 4)) in
  let t' := TinyLFU_put int_hasher 3%Z "c"%string t in
  LRUCache_contains 3%Z (lru_ t) = false ∧
  LRUCache_size (lru_ t) = LRUCache_capacity (lru_ t) ∧
  peek_lru_key (lru_ t) = Some 1%Z ∧
  (TinyLFU_contains 3%Z t' = true ↔
   (CMS_estimate int_hasher 1%Z (CMS_add int_hasher 3%Z (cms_ t))
    ≤ CMS_estimate int_hasher 3%Z (CMS_add int_hasher 3%Z (cms_ t)))%N).
Proof.
  intros t t'.
  assert (LRUCache_wf (lru_ t)) as Hwf by apply LRU_run_wf, LRUCache_new_wf.
  assert (LRUCache_contains 3%Z (lru_ t) = false) as Hk by (vm_compute; reflexivity).
  assert (LRUCache_size (lru_ t) = LRUCache_capacity (lru_ t)) as Hsz
    by (vm_compute; reflexivity).
  assert (peek_lru_key (lru_ t) = Some 1%Z) as Hp by (vm_compute; reflexivity).
  split; [exact Hk|]. split; [exact Hsz|]. split; [exact Hp|].
  exact (proj1 (proj2 (TinyLFU_put_admits_iff_estimate_ge int_hasher t 3%Z "c"%string
                         1%Z Hwf Hk Hsz Hp))).
Defined.

(** ** Sharded construction *)

Section Sharded_construction.
Context {Key Value : Type} `{Countable Key}.

Lemma shard_capacities_eq (capacity n : nat) :
  shard_capacities capacity (S n) =
    replicate n (capacity / S n) ++ [capacity / S n + capacity mod S n].
Proof.
  unfold shard_capacities. rewrite seq_S, fmap_app. simpl.
  rewrite Nat.sub_0_r. rewrite decide_True by done. f_equal.
  assert (∀ start len, start + len ≤ n →
            (λ i, capacity / S n + (if decide (i = n) then capacity mod S n else 0))
              <$> seq start len = replicate len (capacity / S n)) as Hgen.
  { intros start len. revert start.
    induction len as [|len IH]; intros start Hle; simpl; [done|].
    rewrite decide_False by lia. rewrite IH by lia. f_equal. lia. }
  apply Hgen. lia.
Qed.

Lemma sum_list_snoc (l : list nat) (x : nat) :
  sum_list (l ++ [x]) = sum_list l + x.
Proof. induction l as [|y l IH]; simpl; lia. Qed.

Lemma shard_capacities_sum (capacity num_shards : nat) :
  1 ≤ num_shards → sum_list (shard_capacities capacity num_shards) = capacity.
Proof.
  intros Hn. destruct num_shards as [|n]; [lia|].
  rewrite shard_capacities_eq, sum_list_snoc, sum_list_replicate.
  pose proof (Nat.div_mod_eq capacity (S n)). lia.
Qed.

Lemma ShardedLRU_capacities_new (caps : list nat) :
  ShardedLRU_capacities
    (mkShardedLRU (LRUCache_new (Key:=Key) (Value:=Value) <$> caps)) = caps.
Proof.
  unfold ShardedLRU_capacities. cbn [SL_shards_].
  induction caps as [|c caps IH]; [done|]. rewrite !fmap_cons. by f_equal.
Qed.

Lemma ShardedWTinyLFU_capacities_new (caps : list nat) (w d : nat) :
  ShardedWTinyLFU_capacities
    (mkShardedWTinyLFU
       ((λ cap, TinyLFU_new (Key:=Key) (Value:=Value) cap w d) <$> caps)) = caps.
Proof.
  unfold ShardedWTinyLFU_capacities. cbn [shards_].
  induction caps as [|c caps IH]; [done|]. rewrite !fmap_cons. by f_equal.
Qed.

(** C8. A sharded cache built with total capacity [T] and [N >= 1] shards
    gives shards [0 .. N-2] capacity [T / N] each and shard [N-1]
    capacity [T / N + T mod N]; the capacities add up to [T].  Both
    sharded constructors do so. *)
Theorem sharded_capacity_split (T N cms_width cms_depth : nat) :
  1 ≤ N →
  ∃ (sl : ShardedLRU Key Value) (sw : ShardedWTinyLFU Key Value) (caps : list nat),
    ShardedLRU_ctor T N = Constructed sl ∧
    ShardedWTinyLFU_ctor T N cms_width cms_depth = Constructed sw ∧
    ShardedLRU_capacities sl = caps ∧
    ShardedWTinyLFU_capacities sw = caps ∧
    length caps = N ∧
    (∀ i, i < N - 1 → caps !! i = Some (T / N)) ∧
    caps !! (N - 1) = Some (T / N + T mod N) ∧
    sum_list caps = T.
Proof.
  intros HN. unfold ShardedLRU_ctor, ShardedWTinyLFU_ctor.
  rewrite !decide_False by lia.
  eexists _, _, (shard_capacities T N).
  split; [done|]. split; [done|].
  split; [apply ShardedLRU_capacities_new|].
  split; [apply ShardedWTinyLFU_capacities_new|].
  split; [|split; [|split]].
  - unfold shard_capacities. by rewrite length_fmap, length_seq.
  - intros i Hi. destruct N as [|n]; [lia|].
    rewrite shard_capacities_eq, lookup_app_l by (rewrite length_replicate; lia).
    apply lookup_replicate_2. lia.
  - destruct N as [|n]; [lia|].
    rewrite shard_capacities_eq. simpl. rewrite Nat.sub_0_r.
    rewrite lookup_app_r by (rewrite length_replicate; lia).
    by rewrite length_replicate, Nat.sub_diag.
  - by apply shard_capacities_sum.
Qed.

End Sharded_construction.

(** The driver's configuration with an uneven split: total capacity 10 over
    4 shards gives 2, 2, 2, 4. *)
Lemma sharded_capacity_split_witness :
  1 ≤ 4 ∧
  ∃ (sl : ShardedLRU Z string) (sw : ShardedWTinyLFU Z string) (caps : list nat),
    ShardedLRU_ctor 10 4 = Constructed sl ∧
    ShardedWTinyLFU_ctor 10 4 4096 4 = Constructed sw ∧
    ShardedLRU_capacities sl = caps ∧
    ShardedWTinyLFU_capacities sw = caps ∧
    length caps = 4 ∧
    (∀ i, i < 4 - 1 → caps !! i = Some (10 / 4)) ∧
    caps !! (4 - 1) = Some (10 / 4 + 10 mod 4) ∧
    sum_list caps = 10.
Proof.
  assert (1 ≤ 4) as HN by lia.
  split; [exact HN|].
  exact (sharded_capacity_split (Key:=Z) (Value:=string) 10 4 4096 4 HN).
Defined.

(** ** Markov predictor: counts and totals *)

Section MarkovPredictor_facts.
Context {Key : Type} `{Countable Key}.
Implicit Types (m : MarkovPredictor Key) (mp : gmap Key N) (p k : Key).

Lemma sum_counts_empty : sum_counts (∅ : gmap Key N) = 0%N.
Proof. unfold sum_counts. by rewrite map_fold_empty. Qed.

Lemma sum_counts_insert_fresh mp k (c : N) :
  mp !! k = None → sum_counts (<[k := c]> mp) = (c + sum_counts mp)%N.
Proof.
  intros Hk. unfold sum_counts. rewrite map_fold_insert_L; [done| |done].
  intros. lia.
Qed.

Lemma sum_counts_split mp k (c : N) :
  mp !! k = Some c → sum_counts mp = (c + sum_counts (delete k mp))%N.
Proof.
  intros Hk. rewrite <-(insert_id mp k c Hk) at 1.
  rewrite <-insert_delete_eq. apply sum_counts_insert_fresh, lookup_delete_eq.
Qed.

Lemma sum_counts_delete mp k :
  (sum_counts (delete k mp) + default 0 (mp !! k) = sum_counts mp)%N.
Proof.
  destruct (mp !! k) as [c|] eqn:Hk; simpl.
  - rewrite (sum_counts_split mp k c Hk). lia.
  - rewrite delete_id by done. lia.
Qed.

(** Overwriting one successor's count moves the sum by the difference. *)
Lemma sum_counts_insert mp k (c : N) :
  (sum_counts (<[k := c]> mp) + default 0 (mp !! k) = c + sum_counts mp)%N.
Proof.
  rewrite <-insert_delete_eq.
  rewrite sum_counts_insert_fresh by apply lookup_delete_eq.
  pose proof (sum_counts_delete mp k). lia.
Qed.

Lemma sum_counts_lookup_le mp k : (default 0 (mp !! k) ≤ sum_counts mp)%N.
Proof. pose proof (sum_counts_delete mp k). lia. Qed.

Lemma halve_or_erase_default (o : option N) :
  default 0%N (o ≫= halve_or_erase) = N.shiftr (default 0%N o) 1.
Proof.
  destruct o as [c|]; simpl; [|done]. unfold halve_or_erase.
  destruct (decide _) as [->|]; done.
Qed.

(** Halving entry by entry loses at least as much as halving the sum. *)
Lemma sum_counts_decay mp :
  (sum_counts (omap halve_or_erase mp) ≤ N.shiftr (sum_counts mp) 1)%N.
Proof.
  induction mp as [|k c mp Hk IH] using map_ind.
  - rewrite omap_empty, sum_counts_empty. done.
  - rewrite sum_counts_insert_fresh by done.
    assert (omap halve_or_erase mp !! k = None) as Hk'
      by by rewrite lookup_omap, Hk.
    rewrite !N.shiftr_div_pow2 in *. change (2 ^ 1)%N with 2%N in *.
    rewrite omap_insert. unfold halve_or_erase at 1.
    rewrite N.shiftr_div_pow2. change (2 ^ 1)%N with 2%N.
    pose proof (N.Div0.mul_div_le c 2) as Hc.
    pose proof (N.Div0.mul_div_le (sum_counts mp) 2) as Hs.
    assert (c `div` 2 + sum_counts mp `div` 2 ≤ (c + sum_counts mp) `div` 2)%N
      as Hsum by (apply N.div_le_lower_bound; lia).
    destruct (decide (c `div` 2 = 0)%N) as [Hz|Hnz].
    + rewrite delete_id by done. lia.
    + rewrite sum_counts_insert_fresh by done. lia.
Qed.

Lemma total_of_observe m p' k p :
  total_of (observe p' k m) p =
    if decide (p = p') then wrap32 (total_of m p + 1) else total_of m p.
Proof.
  unfold total_of, observe. simpl.
  destruct (decide (p = p')) as [->|Hne].
  - by rewrite lookup_insert_eq.
  - by rewrite lookup_insert_ne.
Qed.

Lemma successors_observe m p' k p :
  default ∅ (trans_ (observe p' k m) !! p) =
    if decide (p = p')
    then <[k := wrap32 (count_of m p k + 1)]> (default ∅ (trans_ m !! p))
    else default ∅ (trans_ m !! p).
Proof.
  unfold count_of, observe. simpl.
  destruct (decide (p = p')) as [->|Hne].
  - by rewrite lookup_insert_eq.
  - by rewrite lookup_insert_ne.
Qed.

Lemma count_of_observe m p' k' p k :
  count_of (observe p' k' m) p k =
    if decide (p = p' ∧ k = k') then wrap32 (count_of m p k + 1)
    else count_of m p k.
Proof.
  unfold count_of at 1. rewrite successors_observe.
  destruct (decide (p = p')) as [->|Hne].
  - destruct (decide (k = k')) as [->|Hk].
    + rewrite lookup_insert_eq, decide_True by done. done.
    + rewrite lookup_insert_ne, decide_False by naive_solver. done.
  - rewrite decide_False by naive_solver. done.
Qed.

Lemma total_of_decay m p :
  total_of (Markov_decay_half m) p = N.shiftr (total_of m p) 1.
Proof.
  unfold total_of, Markov_decay_half. simpl.
  rewrite lookup_omap. apply halve_or_erase_default.
Qed.

Lemma successors_decay m p :
  default ∅ (trans_ (Markov_decay_half m) !! p) =
    omap halve_or_erase (default ∅ (trans_ m !! p)).
Proof.
  unfold Markov_decay_half. simpl. rewrite lookup_fmap.
  destruct (trans_ m !! p); simpl; [done|]. by rewrite omap_empty.
Qed.

Lemma count_of_decay m p k :
  count_of (Markov_decay_half m) p k = N.shiftr (count_of m p k) 1.
Proof.
  unfold count_of. rewrite successors_decay, lookup_omap.
  apply halve_or_erase_default.
Qed.

End MarkovPredictor_facts.

Section MarkovPredictor_counters.
Context {Key : Type} `{Countable Key}.
Implicit Types (m : MarkovPredictor Key) (p k : Key).

Lemma wrap32_small (c : N) : (c < 2 ^ 32)%N → wrap32 c = c.
Proof. intros Hc. unfold wrap32. by apply N.mod_small. Qed.

Lemma wrap32_max_succ : wrap32 (UINT32_MAX + 1) = 0%N.
Proof. reflexivity. Qed.

Lemma observe_at_max m p k :
  count_of m p k = UINT32_MAX → total_of m p = UINT32_MAX →
  count_of (observe p k m) p k = 0%N ∧ total_of (observe p k m) p = 0%N.
Proof.
  intros Hc Ht. rewrite count_of_observe, total_of_observe.
  rewrite !decide_True by done. rewrite Hc, Ht. split; apply wrap32_max_succ.
Qed.

(** What the two [++] of [observe(p, k)] compute on the [uint32_t]
    counters: below the 32-bit maximum [c[p][k]] and [t[p]] each grow by
    exactly 1, as the saturating counter of [CountMinSketch::add] does; at
    the maximum the increment has no guard and the counter becomes 0. *)
Lemma observe_increments_modulo_2_32 m p k :
  let c := count_of m p k in
  let t := total_of m p in
  count_of (observe p k m) p k = wrap32 (c + 1) ∧
  total_of (observe p k m) p = wrap32 (t + 1) ∧
  ((c < UINT32_MAX)%N → count_of (observe p k m) p k = (c + 1)%N) ∧
  ((t < UINT32_MAX)%N → total_of (observe p k m) p = (t + 1)%N) ∧
  (c = UINT32_MAX → count_of (observe p k m) p k = 0%N) ∧
  (t = UINT32_MAX → total_of (observe p k m) p = 0%N).
Proof.
  intros c t.
  assert (count_of (observe p k m) p k = wrap32 (c + 1)) as Hc
    by (rewrite count_of_observe; by rewrite decide_True).
  assert (total_of (observe p k m) p = wrap32 (t + 1)) as Ht
    by (rewrite total_of_observe; by rewrite decide_True).
  rewrite Hc, Ht. unfold UINT32_MAX.
  repeat split; try done.
  - intros Hlt. apply wrap32_small. change (2 ^ 32)%N with 4294967296%N. lia.
  - intros Hlt. apply wrap32_small. change (2 ^ 32)%N with 4294967296%N. lia.
  - by intros ->.
  - by intros ->.
Qed.

(** Repeating one transition on a fresh predictor counts it, up to the
    32-bit maximum. *)
Lemma observe_times_counts (n : N) p k :
  (n ≤ UINT32_MAX)%N →
  count_of (observe_times n p k Markov_new) p k = n ∧
  total_of (observe_times n p k Markov_new) p = n.
Proof.
  unfold observe_times. induction n as [|n IH] using N.peano_ind; intros Hn.
  - cbn [N.iter]. unfold count_of, total_of. simpl.
    by rewrite !lookup_empty.
  - rewrite N.iter_succ. destruct IH as [Hc Ht]; [lia|].
    rewrite count_of_observe, total_of_observe, !decide_True by done.
    rewrite Hc, Ht. unfold UINT32_MAX in Hn.
    rewrite wrap32_small by (change (2 ^ 32)%N with 4294967296%N; lia).
    split; lia.
Qed.

Lemma observe_calls_snoc (ops : list (Markov_op Key)) o :
  observe_calls (ops ++ [o]) =
    observe_calls ops + (if is_observe o then 1 else 0).
Proof.
  unfold observe_calls. rewrite filter_app, length_app. f_equal.
  rewrite filter_cons, filter_nil.
  by destruct o.
Qed.

Lemma Markov_run_snoc (ops : list (Markov_op Key)) o :
  Markov_run (ops ++ [o]) = Markov_step (Markov_run ops) o.
Proof. unfold Markov_run. by rewrite foldl_app. Qed.

(** Along a run with fewer than 2^32 observations, for every predecessor
    the successor counts sum to at most the total, and the total to at
    most the number of observations made. *)
Lemma Markov_run_sum_le_total (ops : list (Markov_op Key)) :
  (N.of_nat (observe_calls ops) < 2 ^ 32)%N →
  ∀ p, (successor_sum (Markov_run ops) p ≤ total_of (Markov_run ops) p)%N ∧
       (total_of (Markov_run ops) p ≤ N.of_nat (observe_calls ops))%N.
Proof.
  induction ops as [|o ops IH] using rev_ind; intros Hcalls p.
  - unfold successor_sum, total_of, Markov_run. simpl.
    rewrite !lookup_empty. simpl. rewrite sum_counts_empty. done.
  - rewrite observe_calls_snoc in *. rewrite Markov_run_snoc.
    destruct o as [p' k|]; simpl in *.
    + destruct (IH ltac:(lia) p) as [Hsum Htot].
      unfold successor_sum in *.
      rewrite successors_observe, total_of_observe.
      destruct (decide (p = p')) as [<-|Hne]; [|lia].
      pose proof (sum_counts_insert (default ∅ (trans_ (Markov_run ops) !! p)) k
                    (wrap32 (count_of (Markov_run ops) p k + 1))) as Hins.
      pose proof (sum_counts_lookup_le (default ∅ (trans_ (Markov_run ops) !! p)) k)
        as Hle.
      fold (count_of (Markov_run ops) p k) in Hins, Hle.
      rewrite wrap32_small in Hins by lia.
      rewrite wrap32_small by lia.
      rewrite wrap32_small by lia. lia.
    + destruct (IH ltac:(lia) p) as [Hsum Htot].
      unfold successor_sum in *.
      rewrite successors_decay, total_of_decay.
      pose proof (sum_counts_decay (default ∅ (trans_ (Markov_run ops) !! p))) as Hd.
      rewrite !N.shiftr_div_pow2 in *. change (2 ^ 1)%N with 2%N in *.
      pose proof (N.Div0.div_le_mono _ _ 2 Hsum).
      pose proof (N.Div0.div_le_upper_bound (total_of (Markov_run ops) p) 2
                    (total_of (Markov_run ops) p)) as Hhalf.
      specialize (Hhalf ltac:(lia)). lia.
Qed.

(** C6, as amended.  With fewer than 2^32 observations in the run, the
    stored total [t[p]] is never below the sum of the stored counts
    [c[p][s]], and equals it as long as no [decay_half] was run. *)
Theorem Markov_total_covers_successor_sum (ops : list (Markov_op Key)) (p : Key) :
  (N.of_nat (observe_calls ops) < 2 ^ 32)%N →
  let m := Markov_run ops in
  (successor_sum m p ≤ total_of m p)%N ∧
  (Forall (λ o, is_observe o = true) ops → total_of m p = successor_sum m p).
Proof.
  intros Hcalls m. split; [by apply Markov_run_sum_le_total|].
  unfold m. clear m. revert p Hcalls.
  induction ops as [|o ops IH] using rev_ind; intros p Hcalls Hobs.
  - unfold successor_sum, total_of, Markov_run. simpl.
    rewrite !lookup_empty. simpl. symmetry. apply sum_counts_empty.
  - apply Forall_app in Hobs as [Hobs Ho]. rewrite Forall_singleton in Ho.
    rewrite observe_calls_snoc in Hcalls. rewrite Markov_run_snoc.
    destruct o as [p' k|]; [|simpl in Ho; discriminate]. simpl in *.
    specialize (IH p ltac:(lia) Hobs).
    destruct (Markov_run_sum_le_total ops ltac:(lia) p) as [Hsum Htot].
    unfold successor_sum in *.
    rewrite successors_observe, total_of_observe.
    destruct (decide (p = p')) as [<-|Hne]; [|done].
    pose proof (sum_counts_insert (default ∅ (trans_ (Markov_run ops) !! p)) k
                  (wrap32 (count_of (Markov_run ops) p k + 1))) as Hins.
    pose proof (sum_counts_lookup_le (default ∅ (trans_ (Markov_run ops) !! p)) k)
      as Hle.
    fold (count_of (Markov_run ops) p k) in Hins, Hle.
    rewrite wrap32_small in Hins by lia.
    rewrite wrap32_small by lia.
    rewrite wrap32_small by lia. lia.
Qed.

End MarkovPredictor_counters.

(** Three observations of 1 -> 2 and three of 1 -> 3, then one decay: the
    counts 3 and 3 become 1 and 1, the total 6 becomes 3. *)
Lemma decay_half_breaks_total_sum :
  let m := Markov_run [MObserve 1%Z 2%Z; MObserve 1%Z 2%Z; MObserve 1%Z 2%Z;
                       MObserve 1%Z 3%Z; MObserve 1%Z 3%Z; MObserve 1%Z 3%Z;
                       MDecay] in
  is_Some (trans_ m !! 1%Z) ∧
  count_of m 1%Z 2%Z = 1%N ∧ count_of m 1%Z 3%Z = 1%N ∧
  successor_sum m 1%Z = 2%N ∧
  totals_ m !! 1%Z = Some 3%N ∧
  total_of m 1%Z ≠ successor_sum m 1%Z.
Proof.
  intros m.
  assert (successor_sum m 1%Z = 2%N) as Hs by (vm_compute; reflexivity).
  assert (totals_ m !! 1%Z = Some 3%N) as Ht by (vm_compute; reflexivity).
  split; [by vm_compute; eexists|].
  split; [vm_compute; reflexivity|]. split; [vm_compute; reflexivity|].
  split; [exact Hs|]. split; [exact Ht|].
  unfold total_of. rewrite Hs, Ht. simpl. lia.
Qed.

Lemma Markov_total_covers_successor_sum_witness :
  let ops := [MObserve 1%Z 2%Z; MObserve 1%Z 3%Z; MObserve 1%Z 2%Z] in
  (N.of_nat (observe_calls ops) < 2 ^ 32)%N ∧
  Forall (λ o, is_observe o = true) ops ∧
  (successor_sum (Markov_run ops) 1%Z ≤ total_of (Markov_run ops) 1%Z)%N ∧
  total_of (Markov_run ops) 1%Z = successor_sum (Markov_run ops) 1%Z.
Proof.
  intros ops.
  assert (N.of_nat (observe_calls ops) < 2 ^ 32)%N as Hc by (vm_compute; reflexivity).
  assert (Forall (λ o, is_observe o = true) ops) as Ho by (repeat constructor).
  split; [exact Hc|]. split; [exact Ho|].
  pose proof (Markov_total_covers_successor_sum ops 1%Z Hc) as [Hle Heq].
  split; [exact Hle|exact (Heq Ho)].
Defined.

(** C7, the code evaluated where it departs from the claim.  After
    2^32 - 1 calls [observe(1, 2)] on a fresh predictor the count [c[1][2]]
    and the total [t[1]] are at the 32-bit maximum; the next [observe(1, 2)]
    sets both to 0, where the claim has them stay at the maximum.
    [MarkovPredictor::observe] increments with a plain [++]; the sibling
    counter of [CountMinSketch::add] is guarded by [if (c != UINT32_MAX)]. *)
Lemma observe_wraps_to_zero :
  count_of (observe_times UINT32_MAX 1%Z 2%Z Markov_new) 1%Z 2%Z = UINT32_MAX ∧
  total_of (observe_times UINT32_MAX 1%Z 2%Z Markov_new) 1%Z = UINT32_MAX ∧
  count_of (observe 1%Z 2%Z (observe_times UINT32_MAX 1%Z 2%Z Markov_new)) 1%Z 2%Z
    = 0%N ∧
  total_of (observe 1%Z 2%Z (observe_times UINT32_MAX 1%Z 2%Z Markov_new)) 1%Z
    = 0%N.
Proof.
  pose proof (observe_times_counts UINT32_MAX 1%Z 2%Z (N.le_refl _)) as [Hc Ht].
  revert Hc Ht.
  generalize (observe_times UINT32_MAX 1%Z 2%Z Markov_new). intros m Hc Ht.
  split; [exact Hc|]. split; [exact Ht|].
  exact (observe_at_max m 1%Z 2%Z Hc Ht).
Qed.

Lemma observe_increments_modulo_2_32_witness :
  let m := observe 1%Z 2%Z Markov_new in
  (count_of m 1%Z 2%Z < UINT32_MAX)%N ∧
  (total_of m 1%Z < UINT32_MAX)%N ∧
  count_of (observe 1%Z 2%Z m) 1%Z 2%Z = (count_of m 1%Z 2%Z + 1)%N ∧
  total_of (observe 1%Z 2%Z m) 1%Z = (total_of m 1%Z + 1)%N.
Proof.
  intros m.
  assert (count_of m 1%Z 2%Z < UINT32_MAX)%N as Hc by (vm_compute; reflexivity).
  assert (total_of m 1%Z < UINT32_MAX)%N as Ht by (vm_compute; reflexivity).
  split; [exact Hc|]. split; [exact Ht|].
  pose proof (observe_increments_modulo_2_32 m 1%Z 2%Z) as (_ & _ & H1 & H2 & _).
  split; [exact (H1 Hc)|exact (H2 Ht)].
Defined.

(** ** Construction failures *)

Section Construction.
Context {Key Value : Type} `{Countable Key}.
Variable double : Type.

(** The sharded constructors validate their shard count: with 0 shards
    each of them throws and yields no object. *)
Lemma zero_shards_is_rejected
    (T cms_width cms_depth topk : nat) (min_count : N) (min_prob : double)
    (prefetch : bool) :
  ¬ usable (ShardedLRU_ctor (Key:=Key) (Value:=Value) T 0) ∧
  ¬ usable (ShardedWTinyLFU_ctor (Key:=Key) (Value:=Value) T 0 cms_width cms_depth) ∧
  ¬ usable (Predictive_ctor (Key:=Key) (Value:=Value) T
              (mkOptions 0 topk min_count min_prob prefetch)).
Proof.
  repeat split.
  - intros [a Ha]. discriminate Ha.
  - intros [a Ha]. discriminate Ha.
  - intros [a Ha]. discriminate Ha.
Qed.

End Construction.

(** C3, the code evaluated where it departs from the claim.  The
    constructors of [LRUCache] and [CountMinSketch] check nothing:
    [LRUCache(0)] returns an object, where the sibling [LFUCache(0)] throws;
    [CountMinSketch(3, 4)], whose width is no power of two, returns an
    object that counts an added key; [CountMinSketch(0, 4)] returns an
    object whose rows are empty, so that no access of [add] or [estimate]
    is inside them.  The claim has each of these constructions fail. *)
Lemma invalid_configuration_is_constructed :
  usable (LRUCache_ctor (Key:=Z) (Value:=string) 0) ∧
  ¬ usable (LFUCache_ctor (Key:=Z) (Value:=string) 0) ∧
  (∀ e : nat, 2 ^ e ≠ 3) ∧
  usable (CMS_ctor 3 4) ∧
  CMS_estimate int_hasher 5%Z (CMS_add int_hasher 5%Z (CMS_new 3 4)) = 1%N ∧
  usable (CMS_ctor 0 4) ∧
  (∀ i j : nat, ¬ in_range (rows_ (CMS_new 0 4)) i j) ∧
  ¬ (¬ usable (LRUCache_ctor (Key:=Z) (Value:=string) 0) ∧
     ¬ usable (CMS_ctor 3 4) ∧
     ¬ usable (ShardedLRU_ctor (Key:=Z) (Value:=string) 8 0)).
Proof.
  assert (usable (LRUCache_ctor (Key:=Z) (Value:=string) 0)) as Hl by by eexists.
  split; [exact Hl|].
  split; [intros [a Ha]; discriminate Ha|].
  split.
  { intros [|[|e]]; simpl; lia. }
  split; [by eexists|]. split; [vm_compute; reflexivity|].
  split; [by eexists|].
  split.
  { intros i j (row & Hrow & Hj). unfold CMS_new in Hrow. cbn [rows_] in Hrow.
    apply lookup_replicate in Hrow as [-> _]. simpl in Hj. lia. }
  intros [Hn _]. exact (Hn Hl).
Qed.

(** ** Predictive wrapper: transition learning *)

Section Predictive_facts.
Context {Key Value : Type} `{Countable Key}.
Variable hasher : Key → N.
Variable default_value : Value.
Context {double : Type}.
Variable topk_next : MarkovPredictor Key → Key → nat → N → double → list Key.
Implicit Types (pc : PredictiveShardedCache Key Value double) (k : Key).

Lemma shidx_lt k pc : Predictive_wf pc → shidx hasher k pc < shards (opts_ pc).
Proof.
  intros (Hpos & _ & _). unfold shidx.
  pose proof (N.mod_lt (wrap64 (hasher k)) (N.of_nat (shards (opts_ pc)))). lia.
Qed.

Lemma Predictive_ctor_wf capacity (opt : Options double) pc :
  Predictive_ctor (Key:=Key) (Value:=Value) capacity opt = Constructed pc →
  Predictive_wf pc.
Proof.
  unfold Predictive_ctor, ShardedWTinyLFU_ctor.
  destruct (decide (shards opt = 0)) as [|Hne]; [done|].
  intros [= <-]. unfold Predictive_wf. simpl.
  rewrite !length_replicate. split; [lia|done].
Qed.

Lemma Predictive_get_wf k pc :
  Predictive_wf pc →
  Predictive_wf (Predictive_get hasher default_value topk_next k pc).2.
Proof.
  intros (Hpos & Hpreds & Hprev). unfold Predictive_wf, Predictive_get. simpl.
  rewrite length_insert. split; [done|]. split; [|done].
  destruct (prev_ pc !! shidx hasher k pc) as [[p|]|]; [|done..].
  by rewrite length_alter.
Qed.

Lemma Predictive_put_wf k (v : Value) pc :
  Predictive_wf pc → Predictive_wf (Predictive_put hasher k v pc).
Proof.
  intros (Hpos & Hpreds & Hprev). unfold Predictive_wf, Predictive_put. simpl.
  by rewrite length_insert.
Qed.

(** C5. [get(k)]: when [prev[shard(k)]] held a key [p], the shard's
    predictor is the old one with exactly one [observe(p, k)] applied, and
    otherwise no predictor changes; afterwards [prev[shard(k)] = k]; the
    value returned is the underlying cache's lookup of [k] on the state
    before any prefetch.  [put(k, v)] is the underlying put, sets
    [prev[shard(k)] = k] and leaves every predictor as it was. *)
Theorem Predictive_get_put_learning (pc : PredictiveShardedCache Key Value double)
    (k : Key) (v : Value) :
  Predictive_wf pc →
  let i := shidx hasher k pc in
  let r := Predictive_get hasher default_value topk_next k pc in
  let q := Predictive_put hasher k v pc in
  (∀ p, prev_ pc !! i = Some (Some p) →
        ∃ pr, preds_ pc !! i = Some pr ∧
              preds_ r.2 !! i = Some (observe p k pr)) ∧
  (prev_ pc !! i = Some None → preds_ r.2 = preds_ pc) ∧
  (∀ j, j ≠ i → preds_ r.2 !! j = preds_ pc !! j) ∧
  prev_ r.2 !! i = Some (Some k) ∧
  r.1 = (ShardedWTinyLFU_get hasher k (base_ pc)).1 ∧
  base_ q = ShardedWTinyLFU_put hasher k v (base_ pc) ∧
  prev_ q !! i = Some (Some k) ∧
  preds_ q = preds_ pc.
Proof.
  intros Hwf i r q.
  pose proof (shidx_lt k pc Hwf) as Hi. fold i in Hi.
  destruct Hwf as (Hpos & Hpreds & Hprev).
  unfold r, q, Predictive_get, Predictive_put. simpl. fold i.
  split; [|split; [|split; [|split; [|split; [|split; [|split]]]]]].
  - intros p Hp. rewrite Hp.
    destruct (lookup_lt_is_Some_2 (preds_ pc) i) as [pr Hpr]; [lia|].
    exists pr. split; [done|]. by rewrite list_lookup_alter_eq, Hpr.
  - intros Hp. by rewrite Hp.
  - intros j Hj. destruct (prev_ pc !! i) as [[p|]|]; [|done..].
    by rewrite list_lookup_alter_ne.
  - apply list_lookup_insert_eq. lia.
  - done.
  - done.
  - apply list_lookup_insert_eq. lia.
  - done.
Qed.

End Predictive_facts.

(** After [put(1, a)] on a fresh wrapper with 4 shards, [get(5)] lands on
    the shard of key 1 and records the transition 1 -> 5 there. *)
Lemma Predictive_get_put_learning_witness :
  let pc := Predictive_put int_hasher 1%Z "a"%string example_predictive in
  let i := shidx int_hasher 5%Z pc in
  let r := Predictive_get int_hasher ""%string next_key_candidates 5%Z pc in
  Predictive_ctor 8 example_options = Constructed example_predictive ∧
  prev_ pc !! i = Some (Some 1%Z) ∧
  (∃ pr, preds_ pc !! i = Some pr ∧ preds_ r.2 !! i = Some (observe 1%Z 5%Z pr)) ∧
  prev_ r.2 !! i = Some (Some 5%Z).
Proof.
  intros pc i r.
  assert (Predictive_ctor 8 example_options = Constructed example_predictive) as Hc
    by reflexivity.
  assert (Predictive_wf pc) as Hwf
    by exact (Predictive_put_wf int_hasher 1%Z "a"%string example_predictive
                (Predictive_ctor_wf 8 example_options example_predictive Hc)).
  assert (prev_ pc !! i = Some (Some 1%Z)) as Hp by (vm_compute; reflexivity).
  pose proof (Predictive_get_put_learning int_hasher ""%string next_key_candidates
                pc 5%Z "b"%string Hwf) as (Hobs & _ & _ & Hprev & _).
  split; [exact Hc|]. split; [exact Hp|].
  split; [exact (Hobs 1%Z Hp)|exact Hprev].
Defined.

(** ** The specification's end-to-end scenarios, run on the model *)

(** LRU, capacity 2: [put(1,a); put(2,b); get(1); put(3,c)], then
    [get(2)] is absent, [get(1) = a] and [get(3) = c]. *)
Example scenario_lru_capacity_two :
  let c0 := LRU_run [OpPut 1%Z "a"%string; OpPut 2%Z "b"%string] (LRUCache_new 2) in
  let g1 := LRUCache_get 1%Z c0 in
  let c1 := LRUCache_put 3%Z "c"%string g1.2 in
  let g2 := LRUCache_get 2%Z c1 in
  let g3 := LRUCache_get 1%Z g2.2 in
  let g4 := LRUCache_get 3%Z g3.2 in
  g1.1 = Some "a"%string ∧ g2.1 = None ∧
  g3.1 = Some "a"%string ∧ g4.1 = Some "c"%string ∧
  (items_ g4.2).*1 = [3%Z; 1%Z].
Proof. vm_compute. repeat split. Qed.

(** TinyLFU, capacity 2: keys 1 and 2 are made hot, then a single
    [put(3,c)] is rejected and both residents stay. *)
Example scenario_tinylfu_rejects_one_shot :
  let hot k v t :=
    N.iter 5 (λ t, (TinyLFU_get int_hasher k (TinyLFU_put int_hasher k v t)).2) t in
  let t0 := TinyLFU_new (Key:=Z) (Value:=string) 2 4096 4 in
  let t1 := hot 2%Z "b"%string (hot 1%Z "a"%string t0) in
  let t2 := TinyLFU_put int_hasher 3%Z "c"%string t1 in
  (TinyLFU_get int_hasher 3%Z t2).1 = None ∧
  (TinyLFU_get int_hasher 1%Z t2).1 = Some "a"%string ∧
  (TinyLFU_get int_hasher 2%Z t2).1 = Some "b"%string ∧
  lru_ t2 = lru_ t1.
Proof. vm_compute. repeat split. Qed.

(** Sketch of width 1024 and depth 4: 1000 adds of one key read back as
    1000, and as 500 after one [decay_half]. *)
Example scenario_sketch_thousand_adds :
  let s := CMS_add_times int_hasher 1000 42%Z (CMS_new 1024 4) in
  CMS_estimate int_hasher 42%Z s = 1000%N ∧
  CMS_estimate int_hasher 42%Z (CMS_decay_half s) = 500%N.
Proof. vm_compute. repeat split. Qed.

(** Sharded LRU of the driver: total capacity 8 over 4 shards. *)
Example scenario_sharded_lru_eight_over_four :
  ∃ s : ShardedLRU Z string,
    ShardedLRU_ctor 8 4 = Constructed s ∧
    ShardedLRU_capacities s = [2; 2; 2; 2] ∧
    ShardedLRU_size
      (foldl (λ s k, ShardedLRU_put int_hasher k "X"%string s) s
             (Z.of_nat <$> seq 0 100)) = 8.
Proof. eexists. split; [reflexivity|]. vm_compute. repeat split. Qed.

(** * Further properties of the modelled code *)

(** ** LRU core: lookups, updates and removals *)

Section LRUCache_lookup.
Context {Key Value : Type} `{Countable Key}.
Implicit Types (l : list (Key * Value)) (c : LRUCache Key Value).

Lemma node_of_absent l k : k ∉ l.*1 → node_of k l = None.
Proof.
  induction l as [|n l IH]; simpl; intros Hk; [done|].
  apply not_elem_of_cons in Hk as [Hne Hk].
  rewrite decide_False by done. by apply IH.
Qed.

Lemma node_of_unlink_ne l k k' : k' ≠ k → node_of k' (unlink k l) = node_of k' l.
Proof.
  intros Hne. induction l as [|n l IH]; simpl; [done|].
  destruct (decide (n.1 = k)) as [Hk|Hk]; simpl.
  - rewrite decide_False by congruence. done.
  - by rewrite IH.
Qed.

Lemma node_of_unlink_eq l k : NoDup l.*1 → node_of k (unlink k l) = None.
Proof.
  intros Hnd. apply node_of_absent. rewrite unlink_keys_elem by done. tauto.
Qed.

Lemma node_of_splice_front l k k' : node_of k' (splice_front k l) = node_of k' l.
Proof.
  unfold splice_front. destruct (node_of k l) as [n|] eqn:Hn; [|done].
  pose proof (node_of_Some _ _ _ Hn) as [Hk _]. simpl.
  destruct (decide (n.1 = k')) as [Hk'|Hk'].
  - assert (k' = k) as -> by congruence. done.
  - apply node_of_unlink_ne. congruence.
Qed.

Lemma node_of_set_value_ne l k k' (v : Value) :
  k' ≠ k → node_of k' (set_value k v l) = node_of k' l.
Proof.
  intros Hne. induction l as [|n l IH]; simpl; [done|].
  destruct (decide (n.1 = k)) as [Hk|Hk]; simpl.
  - rewrite !decide_False by congruence. done.
  - by rewrite IH.
Qed.

Lemma unlink_set_value l k (v : Value) : unlink k (set_value k v l) = unlink k l.
Proof.
  induction l as [|n l IH]; simpl; [done|].
  destruct (decide (n.1 = k)) as [Hk|Hk]; simpl.
  - by rewrite decide_True.
  - rewrite decide_False by done. by rewrite IH.
Qed.

Lemma node_of_snoc_ne l (a : Key * Value) k :
  a.1 ≠ k → node_of k (l ++ [a]) = node_of k l.
Proof.
  intros Hne. induction l as [|n l IH]; simpl.
  - by rewrite decide_False.
  - by rewrite IH.
Qed.

(** What [get] returns, read off the state. *)
Lemma LRUCache_get_value k c :
  (LRUCache_get k c).1 =
    if decide (k ∈ map_ c) then snd <$> node_of k (items_ c) else None.
Proof.
  unfold LRUCache_get. destruct (decide (k ∈ map_ c)); simpl; [|done].
  by rewrite node_of_splice_front.
Qed.

Lemma LRUCache_put_resident_shape k (v : Value) c :
  LRUCache_wf c → k ∈ map_ c →
  LRUCache_put k v c =
    mkLRUCache ((k, v) :: unlink k (items_ c)) (map_ c) (capacity_ c).
Proof.
  intros [Hnd Hdom] Hk. unfold LRUCache_put. rewrite decide_True by done.
  f_equal. unfold splice_front.
  rewrite node_of_set_value by by apply Hdom. by rewrite unlink_set_value.
Qed.

(** After [put(k, v)] on a cache of capacity at least 1 the entry is at the
    front with the value just written. *)
Lemma LRUCache_put_front k (v : Value) c :
  LRUCache_wf c → 1 ≤ capacity_ c →
  ∃ rest, items_ (LRUCache_put k v c) = (k, v) :: rest ∧
          k ∈ map_ (LRUCache_put k v c).
Proof.
  intros Hwf Hcap. destruct (decide (k ∈ map_ c)) as [Hin|Hout].
  - rewrite LRUCache_put_resident_shape by done. simpl. eauto.
  - destruct (decide (length (items_ c) < capacity_ c)) as [Hroom|Hfull].
    + rewrite LRUCache_put_room by done. simpl. eexists. split; [done|set_solver].
    + assert (items_ c ≠ []) as Hne.
      { intros Hnil. rewrite Hnil in Hfull. simpl in Hfull. lia. }
      destruct (exists_last Hne) as (l' & a & Heq).
      rewrite (LRUCache_put_full k v c l' a) by (done || lia). simpl.
      eexists. split; [done|].
      assert (a.1 ∈ map_ c).
      { apply Hwf. rewrite Heq, fmap_app. apply elem_of_app. right.
        apply elem_of_cons. by left. }
      set_solver.
Qed.

Lemma LRUCache_get_front k (v : Value) c rest :
  items_ c = (k, v) :: rest → k ∈ map_ c → (LRUCache_get k c).1 = Some v.
Proof.
  intros Hi Hk. rewrite LRUCache_get_value, decide_True by done.
  rewrite Hi. simpl. by rewrite decide_True.
Qed.

(** X1. On a cache of capacity at least 1, [put(k, v)] followed by
    [get(k)] returns [v]; the key is resident and sits at the MRU end. *)
Theorem LRUCache_put_then_get (c : LRUCache Key Value) (k : Key) (v : Value) :
  LRUCache_wf c → 1 ≤ capacity_ c →
  (LRUCache_get k (LRUCache_put k v c)).1 = Some v ∧
  LRUCache_contains k (LRUCache_put k v c) = true ∧
  head (items_ (LRUCache_put k v c)) = Some (k, v).
Proof.
  intros Hwf Hcap.
  destruct (LRUCache_put_front k v c Hwf Hcap) as (rest & Hi & Hk).
  split; [by eapply LRUCache_get_front|].
  split; [by apply bool_decide_eq_true|]. by rewrite Hi.
Qed.

(** X2. [put(k, v)] of a resident key overwrites the value and moves the
    entry to the MRU end; the number of entries, the order of the other
    entries and what [get] returns for every other key stay the same. *)
Theorem LRUCache_put_resident_overwrites (c : LRUCache Key Value) (k : Key) (v : Value) :
  LRUCache_wf c → LRUCache_contains k c = true →
  LRUCache_size (LRUCache_put k v c) = LRUCache_size c ∧
  items_ (LRUCache_put k v c) = (k, v) :: unlink k (items_ c) ∧
  (LRUCache_get k (LRUCache_put k v c)).1 = Some v ∧
  ∀ k', k' ≠ k →
        (LRUCache_get k' (LRUCache_put k v c)).1 = (LRUCache_get k' c).1.
Proof.
  intros Hwf Hk. apply bool_decide_eq_true in Hk.
  rewrite LRUCache_put_resident_shape by done.
  split; [done|]. split; [done|]. split.
  - by eapply LRUCache_get_front.
  - intros k' Hne. rewrite !LRUCache_get_value. simpl.
    destruct (decide (k' ∈ map_ c)); [|done].
    rewrite decide_False by congruence. by rewrite node_of_unlink_ne.
Qed.

(** X3. [get(k)] on a miss returns absent and changes nothing.  On a hit it
    returns the stored value and moves that entry to the MRU end.  Either
    way the number of entries and the result of any later [get] are as
    before: a read never changes what the cache holds. *)
Theorem LRUCache_get_reads_without_changing_contents (c : LRUCache Key Value) (k : Key) :
  LRUCache_wf c →
  (LRUCache_contains k c = false → LRUCache_get k c = (None, c)) ∧
  (LRUCache_contains k c = true →
     ∃ v, (LRUCache_get k c).1 = Some v ∧
          items_ (LRUCache_get k c).2 = (k, v) :: unlink k (items_ c)) ∧
  LRUCache_size (LRUCache_get k c).2 = LRUCache_size c ∧
  ∀ k', (LRUCache_get k' (LRUCache_get k c).2).1 = (LRUCache_get k' c).1.
Proof.
  intros Hwf. split; [|split; [|split]].
  - intros Hk. apply bool_decide_eq_false in Hk.
    unfold LRUCache_get. by rewrite decide_False.
  - intros Hk. apply bool_decide_eq_true in Hk.
    assert (k ∈ (items_ c).*1) as Hin by by apply Hwf.
    destruct (node_of_present _ _ Hin) as [n Hn].
    pose proof (node_of_Some _ _ _ Hn) as [Hn1 _].
    exists n.2. unfold LRUCache_get. rewrite decide_True by done. simpl.
    rewrite node_of_splice_front, Hn. split; [done|].
    unfold splice_front. rewrite Hn. destruct n as [k0 v0]. simpl in *. by subst.
  - unfold LRUCache_get. by destruct (decide _).
  - intros k'. rewrite !LRUCache_get_value.
    unfold LRUCache_get. destruct (decide (k ∈ map_ c)); simpl; [|done].
    by rewrite node_of_splice_front.
Qed.

(** X4. [erase(k)] returns whether [k] was resident.  Afterwards [k] is
    absent, a second [erase(k)] returns false, the size has dropped by one
    exactly when [k] was resident, and [get] of every other key returns
    what it returned before. *)
Theorem LRUCache_erase_removes_only_that_key (c : LRUCache Key Value) (k : Key) :
  LRUCache_wf c →
  (LRUCache_erase k c).1 = LRUCache_contains k c ∧
  LRUCache_contains k (LRUCache_erase k c).2 = false ∧
  (LRUCache_erase k (LRUCache_erase k c).2).1 = false ∧
  LRUCache_size (LRUCache_erase k c).2 + (if LRUCache_contains k c then 1 else 0)
    = LRUCache_size c ∧
  ∀ k', k' ≠ k →
        (LRUCache_get k' (LRUCache_erase k c).2).1 = (LRUCache_get k' c).1.
Proof.
  intros Hwf. pose proof (LRUCache_erase_wf k c Hwf) as Hwf'.
  unfold LRUCache_contains.
  assert (k ∉ map_ (LRUCache_erase k c).2) as Hgone.
  { unfold LRUCache_erase. destruct (decide (k ∈ map_ c)); simpl; set_solver. }
  split; [|split; [|split; [|split]]].
  - unfold LRUCache_erase. destruct (decide (k ∈ map_ c)); simpl.
    + by rewrite bool_decide_eq_true_2.
    + by rewrite bool_decide_eq_false_2.
  - by apply bool_decide_eq_false.
  - unfold LRUCache_erase at 1. by rewrite decide_False.
  - rewrite (LRUCache_wf_size _ Hwf), (LRUCache_wf_size _ Hwf').
    unfold LRUCache_erase. destruct (decide (k ∈ map_ c)) as [Hk|Hk]; simpl.
    + rewrite bool_decide_eq_true_2 by done.
      assert (k ∈ (items_ c).*1) as Hin by by apply Hwf.
      pose proof (unlink_length _ _ Hin). lia.
    + rewrite bool_decide_eq_false_2 by done. lia.
  - intros k' Hne. rewrite !LRUCache_get_value.
    unfold LRUCache_erase. destruct (decide (k ∈ map_ c)); simpl; [|done].
    destruct (decide (k' ∈ map_ c)).
    + rewrite decide_True by set_solver. by rewrite node_of_unlink_ne.
    + rewrite decide_False by set_solver. done.
Qed.

(** X5. [put(k, v)] disturbs no other key except the one it evicts: for
    [k' ≠ k], [get(k')] after the put returns what it returned before,
    unless [k] was new, the cache was full and [k'] was the LRU key, in
    which case [k'] is gone. *)
Theorem LRUCache_put_drops_only_the_lru_key
    (c : LRUCache Key Value) (k k' : Key) (v : Value) :
  LRUCache_wf c → k' ≠ k →
  (LRUCache_get k' (LRUCache_put k v c)).1 =
    if decide (LRUCache_contains k c = false ∧
               LRUCache_capacity c ≤ LRUCache_size c ∧
               peek_lru_key c = Some k')
    then None else (LRUCache_get k' c).1.
Proof.
  intros Hwf Hne. unfold LRUCache_contains, LRUCache_capacity.
  rewrite (LRUCache_wf_size _ Hwf).
  destruct (decide (k ∈ map_ c)) as [Hin|Hout].
  - rewrite decide_False.
    2:{ intros [Hk _]. apply bool_decide_eq_false in Hk. done. }
    rewrite LRUCache_put_resident_shape by done.
    rewrite !LRUCache_get_value. simpl.
    destruct (decide (k' ∈ map_ c)); [|done]. by rewrite decide_False, node_of_unlink_ne.
  - destruct (decide (length (items_ c) < capacity_ c)) as [Hroom|Hfull].
    + rewrite decide_False by lia.
      rewrite LRUCache_put_room by done. rewrite !LRUCache_get_value. simpl.
      rewrite (decide_False (P:=k = k')) by congruence.
      destruct (decide (k' ∈ map_ c)).
      * by rewrite decide_True by set_solver.
      * by rewrite decide_False by set_solver.
    + destruct (decide (items_ c = [])) as [Hnil|Hnn].
      * rewrite decide_False.
        2:{ intros (_ & _ & Hp). unfold peek_lru_key in Hp. by rewrite Hnil in Hp. }
        assert (k' ∉ map_ c) as Hk'.
        { intros Hk'. apply Hwf in Hk'. rewrite Hnil in Hk'. by apply elem_of_nil in Hk'. }
        rewrite LRUCache_put_fresh by done. rewrite Hnil. simpl.
        rewrite !LRUCache_get_value.
        destruct (decide (capacity_ c < 1)); simpl.
        -- rewrite decide_False by set_solver. by rewrite decide_False.
        -- rewrite (decide_False (P:=k = k')) by congruence.
           destruct (decide (k' ∈ {[k]} ∪ map_ c)); [set_solver|].
           by rewrite decide_False.
      * destruct (exists_last Hnn) as (l' & a & Heq).
        rewrite (LRUCache_put_full k v c l' a) by (done || lia).
        rewrite (peek_lru_key_snoc c l' a Heq).
        rewrite !LRUCache_get_value. simpl. rewrite (decide_False (P:=k = k')) by congruence.
        pose proof Hwf as [Hnd Hdom]. rewrite Heq, fmap_app in Hnd.
        apply NoDup_app in Hnd as (_ & Hdisj & _).
        destruct (decide (a.1 = k')) as [Ha|Ha].
        -- rewrite (decide_True (P:=_ ∧ _)).
           2:{ split; [by apply bool_decide_eq_false|]. split; [lia|by rewrite Ha]. }
           rewrite decide_False; [done|set_solver].
        -- rewrite (decide_False (P:=_ ∧ _)).
           2:{ intros (_ & _ & [= Hp]). done. }
           rewrite Heq, node_of_snoc_ne by done.
           destruct (decide (k' ∈ map_ c)).
           ++ by rewrite decide_True by set_solver.
           ++ by rewrite decide_False by set_solver.
Qed.

(** X6. In every state reached from a new cache by get/put/erase, the index
    and the recency list hold the same keys, every key once, and [size()]
    is the length of the recency list. *)
Theorem LRUCache_index_matches_recency_list (C : nat) (ops : list (LRU_op Key Value)) :
  let c := LRU_run ops (LRUCache_new C) in
  NoDup (items_ c).*1 ∧
  (∀ k, LRUCache_contains k c = true ↔ k ∈ (items_ c).*1) ∧
  LRUCache_size c = length (items_ c) ∧
  LRUCache_capacity c = C.
Proof.
  intros c.
  assert (LRUCache_wf c) as Hwf by apply LRU_run_wf, LRUCache_new_wf.
  split; [apply Hwf|]. split; [|split].
  - intros k. unfold LRUCache_contains. rewrite bool_decide_eq_true. apply Hwf.
  - by apply LRUCache_wf_size.
  - apply LRU_run_capacity.
Qed.

End LRUCache_lookup.

(** Worked instances on the cache of capacity 2 that holds keys 2 and 1
    (2 most recent). *)
Lemma LRUCache_put_then_get_witness :
  let c := LRU_run [OpPut 1%Z "a"%string; OpPut 2%Z "b"%string] (LRUCache_new 2) in
  1 ≤ capacity_ c ∧
  (LRUCache_get 3%Z (LRUCache_put 3%Z "c"%string c)).1 = Some "c"%string ∧
  LRUCache_contains 3%Z (LRUCache_put 3%Z "c"%string c) = true ∧
  head (items_ (LRUCache_put 3%Z "c"%string c)) = Some (3%Z, "c"%string).
Proof.
  intros c.
  assert (LRUCache_wf c) as Hwf by apply LRU_run_wf, LRUCache_new_wf.
  assert (1 ≤ capacity_ c) as Hcap by (vm_compute; lia).
  split; [exact Hcap|].
  exact (LRUCache_put_then_get c 3%Z "c"%string Hwf Hcap).
Defined.

Lemma LRUCache_put_resident_overwrites_witness :
  let c := LRU_run [OpPut 1%Z "a"%string; OpPut 2%Z "b"%string] (LRUCache_new 2) in
  LRUCache_contains 1%Z c = true ∧
  LRUCache_size (LRUCache_put 1%Z "z"%string c) = LRUCache_size c ∧
  items_ (LRUCache_put 1%Z "z"%string c) = (1%Z, "z"%string) :: unlink 1%Z (items_ c).
Proof.
  intros c.
  assert (LRUCache_wf c) as Hwf by apply LRU_run_wf, LRUCache_new_wf.
  assert (LRUCache_contains 1%Z c = true) as Hk by (vm_compute; reflexivity).
  split; [exact Hk|].
  pose proof (LRUCache_put_resident_overwrites c 1%Z "z"%string Hwf Hk)
    as (Hs & Hi & _).
  split; [exact Hs|exact Hi].
Defined.

Lemma LRUCache_get_reads_without_changing_contents_witness :
  let c := LRU_run [OpPut 1%Z "a"%string; OpPut 2%Z "b"%string] (LRUCache_new 2) in
  LRUCache_contains 1%Z c = true ∧
  LRUCache_contains 7%Z c = false ∧
  LRUCache_get 7%Z c = (None, c) ∧
  (∃ v, (LRUCache_get 1%Z c).1 = Some v ∧
        items_ (LRUCache_get 1%Z c).2 = (1%Z, v) :: unlink 1%Z (items_ c)).
Proof.
  intros c.
  assert (LRUCache_wf c) as Hwf by apply LRU_run_wf, LRUCache_new_wf.
  assert (LRUCache_contains 1%Z c = true) as H1 by (vm_compute; reflexivity).
  assert (LRUCache_contains 7%Z c = false) as H7 by (vm_compute; reflexivity).
  split; [exact H1|]. split; [exact H7|].
  split.
  - exact (proj1 (LRUCache_get_reads_without_changing_contents c 7%Z Hwf) H7).
  - exact (proj1 (proj2 (LRUCache_get_reads_without_changing_contents c 1%Z Hwf)) H1).
Defined.

Lemma LRUCache_erase_removes_only_that_key_witness :
  let c := LRU_run [OpPut 1%Z "a"%string; OpPut 2%Z "b"%string] (LRUCache_new 2) in
  (LRUCache_erase 1%Z c).1 = LRUCache_contains 1%Z c ∧
  LRUCache_contains 1%Z (LRUCache_erase 1%Z c).2 = false ∧
  (LRUCache_erase 1%Z (LRUCache_erase 1%Z c).2).1 = false.
Proof.
  intros c.
  assert (LRUCache_wf c) as Hwf by apply LRU_run_wf, LRUCache_new_wf.
  pose proof (LRUCache_erase_removes_only_that_key c 1%Z Hwf) as (H1 & H2 & H3 & _).
  split; [exact H1|]. split; [exact H2|exact H3].
Defined.

Lemma LRUCache_put_drops_only_the_lru_key_witness :
  let c := LRU_run [OpPut 1%Z "a"%string; OpPut 2%Z "b"%string] (LRUCache_new 2) in
  2%Z ≠ 3%Z ∧
  (LRUCache_get 2%Z (LRUCache_put 3%Z "c"%string c)).1 =
    if decide (LRUCache_contains 3%Z c = false ∧
               LRUCache_capacity c ≤ LRUCache_size c ∧
               peek_lru_key c = Some 2%Z)
    then None else (LRUCache_get 2%Z c).1.
Proof.
  intros c.
  assert (LRUCache_wf c) as Hwf by apply LRU_run_wf, LRUCache_new_wf.
  assert (2%Z ≠ 3%Z) as Hne by lia.
  split; [exact Hne|].
  exact (LRUCache_put_drops_only_the_lru_key c 3%Z 2%Z "c"%string Hwf Hne).
Defined.

(** ** Count-Min Sketch: bounds, growth and aging *)

Section CountMinSketch_more.
Context {Key : Type} `{EqDecision Key}.
Variable hasher : Key → N.
Implicit Types (s : CountMinSketch) (k : Key).

Lemma CMS_decay_half_shape s : CMS_shape s → CMS_shape (CMS_decay_half s).
Proof.
  intros (Hw & Hlen & Hrows). unfold CMS_shape, CMS_decay_half. simpl.
  split; [done|]. split; [by rewrite length_fmap|].
  apply Forall_fmap. eapply Forall_impl; [exact Hrows|].
  intros row Hrow. simpl. by rewrite length_fmap.
Qed.

Lemma counter_at_decay_half s i j :
  counter_at (rows_ (CMS_decay_half s)) i j = N.shiftr (counter_at (rows_ s) i j) 1.
Proof.
  unfold counter_at, CMS_decay_half. simpl. rewrite list_lookup_fmap.
  destruct (rows_ s !! i) as [row|]; simpl; [|done].
  rewrite list_lookup_fmap. by destruct (row !! j).
Qed.

Lemma CMS_run_shape (ops : list (CMS_op Key)) s :
  CMS_shape s →
  CMS_shape (CMS_run hasher ops s) ∧
  width_ (CMS_run hasher ops s) = width_ s ∧
  depth_ (CMS_run hasher ops s) = depth_ s.
Proof.
  revert s. induction ops as [|o ops IH]; intros s Hs; [done|].
  unfold CMS_run in *. simpl.
  assert (CMS_shape (CMS_step hasher s o) ∧
          width_ (CMS_step hasher s o) = width_ s ∧
          depth_ (CMS_step hasher s o) = depth_ s) as (Hs' & Hw & Hd).
  { destruct o; simpl; (split; [|done]).
    - by apply CMS_add_shape.
    - by apply CMS_decay_half_shape. }
  destruct (IH _ Hs') as (? & ? & ?). split; [done|]. split; congruence.
Qed.

(** X7. A sketch built with a positive width, power of two or not, never
    reads or writes outside its rows: after any sequence of [add] and
    [decay_half], it still has [depth] rows of [width] counters, and the
    column [index(k, i)] of every key lies inside row [i]. *)
Theorem CMS_accesses_stay_in_bounds
    (width depth : nat) (ops : list (CMS_op Key)) (k : Key) (i : nat) :
  0 < width → i < depth →
  let s := CMS_run hasher ops (CMS_new width depth) in
  length (rows_ s) = depth ∧
  Forall (λ row, length row = width) (rows_ s) ∧
  index hasher (width_ s) k i < width ∧
  in_range (rows_ s) i (index hasher (width_ s) k i).
Proof.
  intros Hw Hi s.
  destruct (CMS_run_shape ops (CMS_new width depth) (CMS_new_shape _ _ Hw))
    as (Hs & Hwd & Hd).
  fold s in Hs, Hwd, Hd. simpl in Hwd, Hd.
  pose proof Hs as (_ & Hlen & Hrows). rewrite Hwd, Hd in *.
  split; [done|]. split; [done|].
  pose proof (index_lt hasher width k i Hw) as Hlt. split; [done|].
  apply CMS_shape_in_range; [done|lia|lia].
Qed.

Lemma min_loop_ext (g g' : nat → N) (ixs : list nat) (a : N) :
  (∀ i, i ∈ ixs → g i = g' i) →
  foldl (λ m i, N.min m (g i)) a ixs = foldl (λ m i, N.min m (g' i)) a ixs.
Proof.
  revert a. induction ixs as [|i0 ixs IH]; intros a Hg; [done|].
  cbn [foldl]. rewrite (Hg i0) by (apply elem_of_cons; by left).
  apply IH. intros i Hi. apply Hg, elem_of_cons. by right.
Qed.

Lemma sat_inc_ge (c : N) : (c ≤ sat_inc c)%N.
Proof. unfold sat_inc. destruct (decide _); lia. Qed.

Lemma CMS_estimate_selected_min k s :
  CMS_estimate hasher k s =
    if decide (selected_min hasher k s = UINT32_MAX) then 0%N
    else selected_min hasher k s.
Proof. reflexivity. Qed.

Lemma selected_min_ge k s (b : N) :
  (b ≤ selected_min hasher k s)%N ↔
  (b ≤ UINT32_MAX)%N ∧
  ∀ i, i < depth_ s →
       (b ≤ counter_at (rows_ s) i (index hasher (width_ s) k i))%N.
Proof.
  unfold selected_min.
  rewrite (min_loop_le (λ i, counter_at (rows_ s) i (index hasher (width_ s) k i))).
  split; intros [Ha Hall]; (split; [done|]); intros i Hi; apply Hall.
  - apply elem_of_seq. lia.
  - apply elem_of_seq in Hi. lia.
Qed.

Lemma selected_min_le k s :
  (selected_min hasher k s ≤ UINT32_MAX)%N ∧
  ∀ i, i < depth_ s →
       (selected_min hasher k s
        ≤ counter_at (rows_ s) i (index hasher (width_ s) k i))%N.
Proof. by apply selected_min_ge. Qed.

Lemma selected_min_attained k s :
  selected_min hasher k s = UINT32_MAX ∨
  ∃ i, i < depth_ s ∧
       selected_min hasher k s =
         counter_at (rows_ s) i (index hasher (width_ s) k i).
Proof.
  unfold selected_min.
  destruct (min_loop_attained
              (λ i, counter_at (rows_ s) i (index hasher (width_ s) k i))
              (seq 0 (depth_ s)) UINT32_MAX) as [Heq|(i & Hi & Heq)].
  - by left.
  - right. exists i. apply elem_of_seq in Hi. split; [lia|done].
Qed.

(** X8. [add] never lowers a counter, so the estimate of any key can only
    go up, except through the saturation reading: if after the add some
    selected counter of [k] is still below [UINT32_MAX], then
    [estimate(k)] is at least what it was. *)
Theorem CMS_add_estimate_monotone (s : CountMinSketch) (k k' : Key) :
  CMS_shape s →
  (∃ i, i < depth_ s ∧
        (counter_at (rows_ (CMS_add hasher k' s)) i (index hasher (width_ s) k i)
         < UINT32_MAX)%N) →
  (CMS_estimate hasher k s ≤ CMS_estimate hasher k (CMS_add hasher k' s))%N.
Proof.
  intros Hs (j & Hj & Hlt). pose proof Hs as (Hw & _ & _).
  rewrite !CMS_estimate_selected_min.
  set (s' := CMS_add hasher k' s) in *.
  assert (width_ s' = width_ s) as Hws by done.
  assert (depth_ s' = depth_ s) as Hds by done.
  destruct (selected_min_le k s) as [Hm Hmi].
  destruct (selected_min_le k s') as [Hm' Hmi'].
  rewrite Hws, Hds in Hmi'.
  assert (selected_min hasher k s ≤ selected_min hasher k s')%N as Hle.
  { apply selected_min_ge. split; [done|]. rewrite Hws, Hds. intros i Hi.
    etrans; [apply (Hmi i Hi)|]. unfold s'.
    rewrite CMS_add_counter by (done || by apply index_lt).
    destruct (decide _); [apply sat_inc_ge|done]. }
  specialize (Hmi' j Hj).
  rewrite (decide_False (P:=selected_min hasher k s' = UINT32_MAX)) by lia.
  destruct (decide _); lia.
Qed.

(** X9. [add(k)] raises [estimate(k)] by exactly 1 whenever some selected
    counter of [k] is below [UINT32_MAX - 1], whatever other keys share
    its counters. *)
Theorem CMS_add_raises_own_estimate_by_one (s : CountMinSketch) (k : Key) :
  CMS_shape s →
  (∃ i, i < depth_ s ∧
        (counter_at (rows_ s) i (index hasher (width_ s) k i) < UINT32_MAX - 1)%N) →
  CMS_estimate hasher k (CMS_add hasher k s) = (CMS_estimate hasher k s + 1)%N.
Proof.
  intros Hs (j & Hj & Hlt). pose proof Hs as (Hw & _ & _).
  rewrite !CMS_estimate_selected_min.
  set (s' := CMS_add hasher k s) in *.
  assert (width_ s' = width_ s) as Hws by done.
  assert (depth_ s' = depth_ s) as Hds by done.
  assert (∀ i, i < depth_ s →
            counter_at (rows_ s') i (index hasher (width_ s) k i) =
              sat_inc (counter_at (rows_ s) i (index hasher (width_ s) k i)))
    as Hstep.
  { intros i Hi. unfold s'.
    rewrite CMS_add_counter by (done || by apply index_lt).
    by rewrite decide_True. }
  destruct (selected_min_le k s) as [Hm Hmi].
  pose proof (Hmi j Hj) as Hmj. unfold UINT32_MAX in *.
  destruct (selected_min_attained k s) as [Hmax|(a & Ha & Hma)];
    [unfold UINT32_MAX in Hmax; lia|].
  assert (selected_min hasher k s' = selected_min hasher k s + 1)%N as Hsucc.
  { apply N.le_antisymm.
    - destruct (selected_min_le k s') as [_ Hmi'].
      rewrite Hws, Hds in Hmi'. specialize (Hmi' a Ha).
      rewrite Hstep in Hmi' by done. rewrite <- Hma in Hmi'.
      unfold sat_inc, UINT32_MAX in Hmi'. destruct (decide _); lia.
    - apply selected_min_ge. split; [unfold UINT32_MAX; lia|].
      rewrite Hws, Hds. intros i Hi. rewrite Hstep by done.
      specialize (Hmi i Hi). unfold sat_inc, UINT32_MAX.
      destruct (decide _); lia. }
  rewrite Hsucc. rewrite !decide_False by lia. done.
Qed.

(** X10. [decay_half] halves the estimate (rounding down) of every key that
    has a selected counter below [UINT32_MAX]. *)
Theorem CMS_decay_half_halves_estimate (s : CountMinSketch) (k : Key) :
  (∃ i, i < depth_ s ∧
        (counter_at (rows_ s) i (index hasher (width_ s) k i) < UINT32_MAX)%N) →
  CMS_estimate hasher k (CMS_decay_half s) = N.shiftr (CMS_estimate hasher k s) 1.
Proof.
  intros (j & Hj & Hlt).
  rewrite !CMS_estimate_selected_min.
  set (s' := CMS_decay_half s) in *.
  assert (width_ s' = width_ s) as Hws by done.
  assert (depth_ s' = depth_ s) as Hds by done.
  destruct (selected_min_le k s) as [Hm Hmi].
  pose proof (Hmi j Hj) as Hmj.
  destruct (selected_min_attained k s) as [Hmax|(a & Ha & Hma)]; [lia|].
  assert (selected_min hasher k s' = N.shiftr (selected_min hasher k s) 1) as Hhalf.
  { apply N.le_antisymm.
    - destruct (selected_min_le k s') as [_ Hmi'].
      rewrite Hws, Hds in Hmi'. specialize (Hmi' a Ha).
      unfold s' in Hmi'. rewrite counter_at_decay_half in Hmi'. by rewrite Hma.
    - apply selected_min_ge. rewrite !N.shiftr_div_pow2. split.
      + etrans; [|exact Hm]. apply N.Div0.div_le_upper_bound.
        change (2 ^ 1)%N with 2%N. lia.
      + rewrite Hws, Hds. intros i Hi. unfold s'.
        rewrite counter_at_decay_half, N.shiftr_div_pow2.
        apply N.Div0.div_le_mono. by apply Hmi. }
  rewrite Hhalf.
  assert (N.shiftr (selected_min hasher k s) 1 ≤ selected_min hasher k s)%N.
  { rewrite N.shiftr_div_pow2. apply N.Div0.div_le_upper_bound.
    change (2 ^ 1)%N with 2%N. lia. }
  rewrite !decide_False by lia. done.
Qed.

(** X11. Aging a saturated key raises its estimate: when all selected
    counters of [k] are at [UINT32_MAX] (and there is at least one row),
    [estimate(k)] is 0 before [decay_half] and 2^31 - 1 after it. *)
Theorem CMS_decay_half_revives_saturated_estimate (s : CountMinSketch) (k : Key) :
  1 ≤ depth_ s →
  (∀ i, i < depth_ s →
        counter_at (rows_ s) i (index hasher (width_ s) k i) = UINT32_MAX) →
  CMS_estimate hasher k s = 0%N ∧
  CMS_estimate hasher k (CMS_decay_half s) = 2147483647%N.
Proof.
  intros Hd Hsat. rewrite !CMS_estimate_selected_min.
  assert (selected_min hasher k s = UINT32_MAX) as Hm.
  { destruct (selected_min_attained k s) as [?|(a & Ha & Hma)]; [done|].
    by rewrite Hma, Hsat. }
  assert (selected_min hasher k (CMS_decay_half s) = 2147483647%N) as Hm'.
  { unfold selected_min. cbn [width_ depth_ CMS_decay_half].
    rewrite (min_loop_const _ _ _ 2147483647%N).
    - rewrite (decide_False (P:=seq 0 (depth_ s) = [])); [done|].
      intros Heq. apply (f_equal length) in Heq.
      rewrite length_seq in Heq. simpl in Heq. lia.
    - intros i Hi. apply elem_of_seq in Hi.
      change (mkCMS (width_ s) (depth_ s) _) with (CMS_decay_half s).
      rewrite counter_at_decay_half, Hsat by lia. done. }
  rewrite Hm, Hm'. done.
Qed.

Lemma index_width_one k i : index hasher 1 k i = 0.
Proof. pose proof (index_lt hasher 1 k i). lia. Qed.

Lemma hits_width_one (ks : list Key) i : hits hasher 1 ks i 0 = length ks.
Proof.
  unfold hits. induction ks as [|k0 ks IH]; [done|].
  rewrite filter_cons, decide_True by apply index_width_one. simpl. by rewrite IH.
Qed.

(** X12. With width 1 all keys share one counter per row: on a fresh
    sketch with at least one row, [estimate] of any key, added or not, is
    the total number of adds (below [UINT32_MAX]). *)
Theorem CMS_width_one_counts_all_adds (depth : nat) (ks : list Key) (k : Key) :
  1 ≤ depth → (N.of_nat (length ks) < UINT32_MAX)%N →
  CMS_estimate hasher k (CMS_add_all hasher ks (CMS_new 1 depth))
    = N.of_nat (length ks).
Proof.
  intros Hd Hlen.
  destruct (CMS_add_all_shape hasher ks (CMS_new 1 depth)
              (CMS_new_shape 1 depth ltac:(lia))) as (Hs & Hw & Hdp).
  simpl in Hw, Hdp.
  rewrite CMS_estimate_selected_min. unfold selected_min. rewrite Hw, Hdp.
  rewrite (min_loop_const _ _ _ (N.of_nat (length ks))).
  - rewrite (decide_False (P:=seq 0 depth = [])).
    + rewrite N.min_r by lia. rewrite decide_False by lia. done.
    + intros Heq. apply (f_equal length) in Heq.
      rewrite length_seq in Heq. simpl in Heq. lia.
  - intros i Hi. apply elem_of_seq in Hi. rewrite index_width_one.
    rewrite CMS_add_all_counter by lia. rewrite hits_width_one. lia.
Qed.

(** X13. [add(k)] leaves alone the estimate of every key whose column
    differs from [k]'s in every row. *)
Theorem CMS_add_leaves_disjoint_keys (s : CountMinSketch) (k k' : Key) :
  CMS_shape s →
  (∀ i, i < depth_ s →
        index hasher (width_ s) k' i ≠ index hasher (width_ s) k i) →
  CMS_estimate hasher k' (CMS_add hasher k s) = CMS_estimate hasher k' s.
Proof.
  intros Hs Hdis. pose proof Hs as (Hw & _ & _).
  rewrite !CMS_estimate_selected_min.
  assert (selected_min hasher k' (CMS_add hasher k s) = selected_min hasher k' s)
    as ->; [|done].
  unfold selected_min. cbn [width_ depth_ CMS_add].
  change (mkCMS (width_ s) (depth_ s) _) with (CMS_add hasher k s).
  apply min_loop_ext. intros i Hi. apply elem_of_seq in Hi.
  rewrite CMS_add_counter by (done || lia || by apply index_lt).
  rewrite decide_False; [done|]. apply Hdis. lia.
Qed.

End CountMinSketch_more.

(** Worked instances on small sketches. *)
Lemma CMS_accesses_stay_in_bounds_witness :
  let s := CMS_run int_hasher [CAdd 5%Z; CDecay; CAdd 9%Z] (CMS_new 3 2) in
  0 < 3 ∧ 1 < 2 ∧
  index int_hasher (width_ s) 7%Z 1 < 3 ∧
  in_range (rows_ s) 1 (index int_hasher (width_ s) 7%Z 1).
Proof.
  intros s.
  assert (0 < 3) as Hw by lia. assert (1 < 2) as Hi by lia.
  split; [exact Hw|]. split; [exact Hi|].
  exact (proj2 (proj2 (CMS_accesses_stay_in_bounds int_hasher 3 2
                         [CAdd 5%Z; CDecay; CAdd 9%Z] 7%Z 1 Hw Hi))).
Defined.

Lemma CMS_add_estimate_monotone_witness :
  let s := CMS_add_all int_hasher [1%Z; 2%Z; 1%Z] (CMS_new 16 2) in
  (CMS_estimate int_hasher 1%Z s
   ≤ CMS_estimate int_hasher 1%Z (CMS_add int_hasher 2%Z s))%N.
Proof.
  intros s.
  assert (CMS_shape s) as Hs.
  { apply (CMS_add_all_shape int_hasher), CMS_new_shape. lia. }
  apply (CMS_add_estimate_monotone int_hasher s 1%Z 2%Z Hs).
  exists 0. split; [vm_compute; lia|vm_compute; reflexivity].
Defined.

Lemma CMS_add_raises_own_estimate_by_one_witness :
  let s := CMS_add_all int_hasher [1%Z; 2%Z; 1%Z] (CMS_new 16 2) in
  CMS_estimate int_hasher 1%Z (CMS_add int_hasher 1%Z s)
    = (CMS_estimate int_hasher 1%Z s + 1)%N.
Proof.
  intros s.
  assert (CMS_shape s) as Hs.
  { apply (CMS_add_all_shape int_hasher), CMS_new_shape. lia. }
  apply (CMS_add_raises_own_estimate_by_one int_hasher s 1%Z Hs).
  exists 0. split; [vm_compute; lia|vm_compute; reflexivity].
Defined.

Lemma CMS_decay_half_halves_estimate_witness :
  let s := CMS_add_all int_hasher [1%Z; 2%Z; 1%Z; 1%Z] (CMS_new 16 2) in
  CMS_estimate int_hasher 1%Z (CMS_decay_half s)
    = N.shiftr (CMS_estimate int_hasher 1%Z s) 1.
Proof.
  intros s.
  apply (CMS_decay_half_halves_estimate int_hasher s 1%Z).
  exists 0. split; [vm_compute; lia|vm_compute; reflexivity].
Defined.

(** The sketch of width 1 and depth 1 after 2^32 - 1 adds. *)
Lemma CMS_decay_half_revives_saturated_estimate_witness :
  let s := mkCMS 1 1 [[UINT32_MAX]] in
  CMS_estimate int_hasher 1%Z s = 0%N ∧
  CMS_estimate int_hasher 1%Z (CMS_decay_half s) = 2147483647%N.
Proof.
  intros s.
  apply (CMS_decay_half_revives_saturated_estimate int_hasher s 1%Z).
  - vm_compute. lia.
  - intros i Hi. assert (i = 0) as -> by (vm_compute in Hi; lia).
    vm_compute. reflexivity.
Defined.

Lemma CMS_width_one_counts_all_adds_witness :
  CMS_estimate int_hasher 99%Z
    (CMS_add_all int_hasher [1%Z; 2%Z; 3%Z] (CMS_new 1 2)) = 3%N.
Proof.
  apply (CMS_width_one_counts_all_adds int_hasher 2 [1%Z; 2%Z; 3%Z] 99%Z).
  - lia.
  - vm_compute. reflexivity.
Defined.

Lemma CMS_add_leaves_disjoint_keys_witness :
  let s := CMS_add_all int_hasher [2%Z] (CMS_new 16 2) in
  CMS_estimate int_hasher 2%Z (CMS_add int_hasher 1%Z s)
    = CMS_estimate int_hasher 2%Z s.
Proof.
  intros s.
  assert (CMS_shape s) as Hs.
  { apply (CMS_add_all_shape int_hasher), CMS_new_shape. lia. }
  apply (CMS_add_leaves_disjoint_keys int_hasher s 1%Z 2%Z Hs).
  intros i Hi. assert (i = 0 ∨ i = 1) as [-> | ->] by (vm_compute in Hi; lia);
    vm_compute; lia.
Defined.

(** ** TinyLFU-admitted LRU: capacity and residency *)

Section TinyLFU_more.
Context {Key Value : Type} `{Countable Key}.
Variable hasher : Key → N.
Implicit Types (t : TinyLFUAdmittingLRU Key Value) (c : LRUCache Key Value).

(** Every operation acts on the core through core operations only. *)
Lemma TinyLFU_step_core t (o : TinyLFU_op Key Value) :
  ∃ lops, lru_ (TinyLFU_step hasher t o) = LRU_run lops (lru_ t).
Proof.
  destruct o as [k|k v|k|]; simpl.
  - by exists [OpGet k].
  - unfold TinyLFU_put.
    destruct (LRUCache_contains k (lru_ t)); [by exists [OpPut k v]|].
    destruct (decide _); [by exists [OpPut k v]|].
    destruct (peek_lru_key (lru_ t)) as [victim|]; [|by exists [OpPut k v]].
    destruct (decide _); [by exists [OpErase victim; OpPut k v]|by exists []].
  - by exists [OpErase k].
  - by exists [].
Qed.

Lemma TinyLFU_run_core (ops : list (TinyLFU_op Key Value)) t :
  ∃ lops, lru_ (TinyLFU_run hasher ops t) = LRU_run lops (lru_ t).
Proof.
  revert t. induction ops as [|o ops IH]; intros t; [by exists []|].
  unfold TinyLFU_run in *. simpl.
  destruct (IH (TinyLFU_step hasher t o)) as [l2 H2].
  destruct (TinyLFU_step_core t o) as [l1 H1].
  exists (l1 ++ l2). rewrite H2, H1. unfold LRU_run. by rewrite foldl_app.
Qed.


(** The core after [put], branch by branch, for a core within capacity. *)
Lemma TinyLFU_put_core k (v : Value) t :
  LRUCache_wf (lru_ t) → LRUCache_size (lru_ t) ≤ capacity_ (lru_ t) →
  lru_ (TinyLFU_put hasher k v t) =
    if decide (k ∈ map_ (lru_ t)) then
      mkLRUCache ((k, v) :: unlink k (items_ (lru_ t))) (map_ (lru_ t))
                 (capacity_ (lru_ t))
    else if decide (LRUCache_size (lru_ t) < capacity_ (lru_ t)) then
      mkLRUCache ((k, v) :: items_ (lru_ t)) ({[k]} ∪ map_ (lru_ t))
                 (capacity_ (lru_ t))
    else
      match peek_lru_key (lru_ t) with
      | None => lru_ t
      | Some victim =>
          if decide (CMS_estimate hasher victim (CMS_add hasher k (cms_ t))
                     ≤ CMS_estimate hasher k (CMS_add hasher k (cms_ t)))%N
          then mkLRUCache ((k, v) :: unlink victim (items_ (lru_ t)))
                          ({[k]} ∪ map_ (lru_ t) ∖ {[victim]}) (capacity_ (lru_ t))
          else lru_ t
      end.
Proof.
  intros Hwf Hsz. unfold TinyLFU_put, LRUCache_contains, LRUCache_capacity.
  destruct (decide (k ∈ map_ (lru_ t))) as [Hin|Hout].
  - rewrite bool_decide_eq_true_2 by done. simpl.
    by apply LRUCache_put_resident_shape.
  - rewrite bool_decide_eq_false_2 by done.
    pose proof (LRUCache_wf_size _ Hwf) as Hlen.
    destruct (decide (LRUCache_size (lru_ t) < capacity_ (lru_ t))) as [Hroom|Hfull];
      simpl.
    + apply LRUCache_put_room; [done|done|lia].
    + destruct (peek_lru_key (lru_ t)) as [victim|] eqn:Hpeek; simpl.
      * destruct (decide _); simpl; [|done].
        apply peek_lru_key_Some in Hpeek as (l' & a & Heq & <-).
        assert (a.1 ∈ map_ (lru_ t)) as Hvic.
        { apply Hwf. rewrite Heq, fmap_app. apply elem_of_app. right.
          apply elem_of_cons. by left. }
        pose proof (LRUCache_erase_wf a.1 _ Hwf) as Hwf1.
        unfold LRUCache_erase in *. rewrite decide_True in * by done. simpl in *.
        rewrite LRUCache_put_room; [done|done|set_solver|]. simpl.
        assert (a.1 ∈ (items_ (lru_ t)).*1) as Hin by by apply Hwf.
        pose proof (unlink_length _ _ Hin). lia.
      * assert (items_ (lru_ t) = []) as Hnil.
        { unfold peek_lru_key in Hpeek. by destruct (items_ (lru_ t)). }
        rewrite LRUCache_put_fresh by done. rewrite Hnil in *. simpl in *.
        rewrite decide_True by lia.
        assert (map_ (lru_ t) = ∅) as Hmap.
        { apply set_eq. intros x. destruct Hwf as [_ Hdom].
          rewrite Hdom, Hnil. set_solver. }
        destruct (lru_ t) as [its mp cap]. simpl in *. subst.
        f_equal. set_solver.
Qed.


(** X16. [put(k, v)] removes at most one other key, and only the LRU key,
    and only by admitting [k] against it: if [k' ≠ k] was resident and is
    not after the put, then [k'] was [peek_lru_key()] and [k] is resident. *)
Theorem TinyLFU_put_removes_at_most_the_victim
    (t : TinyLFUAdmittingLRU Key Value) (k k' : Key) (v : Value) :
  LRUCache_wf (lru_ t) →
  TinyLFU_size t ≤ TinyLFU_capacity t →
  k' ≠ k →
  TinyLFU_contains k' t = true →
  TinyLFU_contains k' (TinyLFU_put hasher k v t) = false →
  peek_lru_key (lru_ t) = Some k' ∧
  TinyLFU_contains k (TinyLFU_put hasher k v t) = true.
Proof.
  intros Hwf Hsz Hne Hin Hout.
  unfold TinyLFU_contains, LRUCache_contains in *.
  apply bool_decide_eq_true in Hin. apply bool_decide_eq_false in Hout.
  rewrite bool_decide_eq_true.
  rewrite (TinyLFU_put_core k v t Hwf Hsz) in *.
  destruct (decide (k ∈ map_ (lru_ t))); [done|].
  destruct (decide (LRUCache_size (lru_ t) < capacity_ (lru_ t)));
    [simpl in *; set_solver|].
  destruct (peek_lru_key (lru_ t)) as [victim|]; [|done].
  destruct (decide _); [|done]. simpl in *.
  destruct (decide (k' = victim)) as [->|]; [|set_solver].
  split; [done|set_solver].
Qed.

End TinyLFU_more.


Lemma TinyLFU_put_removes_at_most_the_victim_witness :
  let t := mkTinyLFU
             (LRU_run [OpPut 1%Z "a"%string; OpPut 2%Z "b"%string] (LRUCache_new 2))
             (CMS_add_all int_hasher [1%Z; 2%Z] (CMS_new 4096 4)) in
  TinyLFU_contains 1%Z t = true ∧
  TinyLFU_contains 1%Z (TinyLFU_put int_hasher 3%Z "c"%string t) = false ∧
  peek_lru_key (lru_ t) = Some 1%Z ∧
  TinyLFU_contains 3%Z (TinyLFU_put int_hasher 3%Z "c"%string t) = true.
Proof.
  intros t.
  assert (LRUCache_wf (lru_ t)) as Hwf by apply LRU_run_wf, LRUCache_new_wf.
  assert (TinyLFU_size t ≤ TinyLFU_capacity t) as Hsz by (vm_compute; lia).
  assert (1%Z ≠ 3%Z) as Hne by lia.
  assert (TinyLFU_contains 1%Z t = true) as Hin by (vm_compute; reflexivity).
  assert (TinyLFU_contains 1%Z (TinyLFU_put int_hasher 3%Z "c"%string t) = false)
    as Hout by (vm_compute; reflexivity).
  split; [exact Hin|]. split; [exact Hout|].
  exact (TinyLFU_put_removes_at_most_the_victim int_hasher t 3%Z 1%Z "c"%string
           Hwf Hsz Hne Hin Hout).
Defined.

(** ** Sharded caches: routing and capacity *)

Section Sharded_more.
Context {Key Value : Type} `{Countable Key}.
Variable hasher : Key → N.
Implicit Types (s : ShardedLRU Key Value) (w : ShardedWTinyLFU Key Value).

Lemma alter_lookup_insert {A : Type} (f : A → A) (l : list A) (i : nat) :
  alter f i l = match l !! i with Some x => <[i := f x]> l | None => l end.
Proof.
  revert i. induction l as [|y l IH]; intros [|i]; simpl; try done.
  specialize (IH i). destruct (l !! i); simpl in *; f_equal; exact IH.
Qed.

(** Every operation rewrites one shard, by the corresponding core operation. *)
Lemma ShardedLRU_step_alter s (o : LRU_op Key Value) :
  ∃ i, SL_shards_ (ShardedLRU_step hasher s o) =
         alter (λ sh, LRU_step sh o) i (SL_shards_ s).
Proof.
  destruct o as [k|k v|k]; exists (shard_idx hasher k s); simpl.
  - unfold ShardedLRU_get. rewrite alter_lookup_insert.
    by destruct (SL_shards_ s !! _).
  - done.
  - unfold ShardedLRU_erase. rewrite alter_lookup_insert.
    by destruct (SL_shards_ s !! _).
Qed.

Lemma shard_within_step (sh : LRUCache Key Value) cap (o : LRU_op Key Value) :
  shard_within sh cap → shard_within (LRU_step sh o) cap.
Proof.
  intros (Hwf & Hsz & Hcap). split; [by apply LRU_step_wf|].
  rewrite LRU_step_capacity. split; [|done].
  rewrite <- Hcap. apply LRU_step_size; [done|lia].
Qed.

Lemma ShardedLRU_run_within (ops : list (LRU_op Key Value)) s caps :
  Forall2 shard_within (SL_shards_ s) caps →
  Forall2 shard_within (SL_shards_ (ShardedLRU_run hasher ops s)) caps.
Proof.
  revert s. induction ops as [|o ops IH]; intros s Hs; [done|].
  unfold ShardedLRU_run in *. simpl. apply IH.
  destruct (ShardedLRU_step_alter s o) as [i ->].
  apply Forall2_alter_l; [done|]. intros sh cap _ _. apply shard_within_step.
Qed.

Lemma ShardedLRU_ctor_within (T N : nat) :
  Forall2 shard_within
    (LRUCache_new (Key:=Key) (Value:=Value) <$> shard_capacities T N)
    (shard_capacities T N).
Proof.
  apply Forall2_fmap_l. apply Forall_Forall2_diag, Forall_forall.
  intros cap _. simpl. split; [apply LRUCache_new_wf|].
  rewrite LRUCache_new_size. split; [lia|done].
Qed.

Lemma sum_list_cons_unfold (x : nat) (l : list nat) :
  sum_list (x :: l) = x + sum_list l.
Proof. reflexivity. Qed.

Lemma ShardedLRU_size_sum s :
  ShardedLRU_size s = sum_list (LRUCache_size <$> SL_shards_ s).
Proof.
  unfold ShardedLRU_size.
  assert (∀ l acc, foldl (λ acc (sh : LRUCache Key Value), acc + LRUCache_size sh) acc l
                   = acc + sum_list (LRUCache_size <$> l)) as Hgen.
  { induction l as [|sh l IH]; intros acc; [simpl; lia|].
    rewrite fmap_cons, sum_list_cons_unfold. cbn [foldl]. rewrite IH. lia. }
  by rewrite Hgen.
Qed.

Lemma shard_within_sum (l : list (LRUCache Key Value)) caps :
  Forall2 shard_within l caps →
  sum_list (LRUCache_size <$> l) ≤ sum_list caps.
Proof.
  induction 1 as [|sh cap l caps (_ & Hsz & _) _ IH]; [done|].
  rewrite fmap_cons, !sum_list_cons_unfold. lia.
Qed.

(** X17. A ShardedLRU built with total capacity [T] over [N >= 1] shards
    never holds more than [T] entries: after any sequence of get, put and
    erase, [size() <= T], [num_shards() = N], and every shard holds at most
    the capacity it was built with. *)
Theorem ShardedLRU_size_within_total (T N : nat) (ops : list (LRU_op Key Value)) :
  1 ≤ N →
  ∃ s0, ShardedLRU_ctor T N = Constructed s0 ∧
        let s := ShardedLRU_run hasher ops s0 in
        ShardedLRU_size s ≤ T ∧
        ShardedLRU_num_shards s = N ∧
        Forall2 (λ sh cap, LRUCache_size sh ≤ cap ∧ LRUCache_capacity sh = cap)
                (SL_shards_ s) (shard_capacities T N).
Proof.
  intros HN. unfold ShardedLRU_ctor. rewrite decide_False by lia.
  eexists. split; [reflexivity|]. cbv zeta.
  set (s := ShardedLRU_run hasher ops _).
  pose proof (ShardedLRU_run_within ops (mkShardedLRU _) _ (ShardedLRU_ctor_within T N)) as Hin.
  fold s in Hin. split; [|split].
  - rewrite ShardedLRU_size_sum.
    etrans; [by apply shard_within_sum|]. by rewrite shard_capacities_sum.
  - unfold ShardedLRU_num_shards. rewrite (Forall2_length _ _ _ Hin).
    unfold shard_capacities. by rewrite length_fmap, length_seq.
  - eapply Forall2_impl; [exact Hin|]. intros sh cap (_ & ? & ?). done.
Qed.

Lemma shard_idx_lt k s : SL_shards_ s ≠ [] → shard_idx hasher k s < length (SL_shards_ s).
Proof.
  intros Hne. unfold shard_idx.
  assert (0 < length (SL_shards_ s)) by (destruct (SL_shards_ s); simpl; [done|lia]).
  pose proof (N.mod_lt (wrap64 (hasher k)) (N.of_nat (length (SL_shards_ s)))). lia.
Qed.

Lemma shard_capacities_lookup (T N i : nat) :
  i < N →
  shard_capacities T N !! i = Some (T / N + if decide (i = N - 1) then T mod N else 0).
Proof.
  intros Hi. unfold shard_capacities. rewrite list_lookup_fmap.
  rewrite lookup_seq_lt by done. done.
Qed.

(** X18. When the total capacity is at least the number of shards, every
    shard can hold an entry: on any state reached from the constructed
    cache, [put(k, v)] followed by [get(k)] returns [v]. *)
Theorem ShardedLRU_put_then_get
    (T N : nat) (ops : list (LRU_op Key Value)) (k : Key) (v : Value) :
  1 ≤ N → N ≤ T →
  ∃ s0, ShardedLRU_ctor T N = Constructed s0 ∧
        let s := ShardedLRU_run hasher ops s0 in
        (ShardedLRU_get hasher k (ShardedLRU_put hasher k v s)).1 = Some v ∧
        ShardedLRU_contains hasher k (ShardedLRU_put hasher k v s) = true.
Proof.
  intros HN HT. unfold ShardedLRU_ctor. rewrite decide_False by lia.
  eexists. split; [reflexivity|]. cbv zeta.
  set (s := ShardedLRU_run hasher ops _).
  pose proof (ShardedLRU_run_within ops (mkShardedLRU _) _ (ShardedLRU_ctor_within T N)) as Hin.
  fold s in Hin.
  assert (length (SL_shards_ s) = N) as Hlen.
  { rewrite (Forall2_length _ _ _ Hin). unfold shard_capacities.
    by rewrite length_fmap, length_seq. }
  assert (shard_idx hasher k s < N) as Hi.
  { rewrite <- Hlen. apply shard_idx_lt. intros Hnil. rewrite Hnil in Hlen.
    simpl in Hlen. lia. }
  destruct (lookup_lt_is_Some_2 (SL_shards_ s) (shard_idx hasher k s)) as [sh Hsh];
    [lia|].
  destruct (Forall2_lookup_l _ _ _ _ _ Hin Hsh) as (cap & Hcap & Hwf & Hsz & Hc).
  rewrite shard_capacities_lookup in Hcap by done. injection Hcap as Hcap.
  assert (1 ≤ capacity_ sh) as Hpos.
  { rewrite Hc, <- Hcap. pose proof (Nat.div_le_lower_bound T N 1). lia. }
  destruct (LRUCache_put_front k v sh Hwf Hpos) as (rest & Hitems & Hk).
  unfold ShardedLRU_get, ShardedLRU_contains, ShardedLRU_put, shard_idx. simpl.
  rewrite length_alter. fold (shard_idx hasher k s).
  rewrite list_lookup_alter_eq, Hsh. simpl. split.
  - by eapply LRUCache_get_front.
  - by apply bool_decide_eq_true.
Qed.

(** X19. When the total capacity is below the number of shards, every shard
    but the last has capacity 0: a key whose hash routes it to one of them
    is never stored, so right after [put(k, v)] the key is absent and
    [get(k)] returns absent. *)
Theorem ShardedLRU_undersized_shards_store_nothing
    (T N : nat) (ops : list (LRU_op Key Value)) (k : Key) (v : Value) :
  1 ≤ N → T < N →
  N.to_nat (wrap64 (hasher k) mod N.of_nat N) ≠ N - 1 →
  ∃ s0, ShardedLRU_ctor T N = Constructed s0 ∧
        let s := ShardedLRU_run hasher ops s0 in
        ShardedLRU_contains hasher k (ShardedLRU_put hasher k v s) = false ∧
        (ShardedLRU_get hasher k (ShardedLRU_put hasher k v s)).1 = None.
Proof.
  intros HN HT Hidx. unfold ShardedLRU_ctor. rewrite decide_False by lia.
  eexists. split; [reflexivity|]. cbv zeta.
  set (s := ShardedLRU_run hasher ops _).
  pose proof (ShardedLRU_run_within (ops ++ [OpPut k v]) (mkShardedLRU _) _
                (ShardedLRU_ctor_within T N)) as Hin.
  unfold ShardedLRU_run in Hin. rewrite foldl_app in Hin.
  cbn [foldl ShardedLRU_step] in Hin.
  change (foldl (ShardedLRU_step hasher) _ ops) with s in Hin.
  set (s' := ShardedLRU_put hasher k v s) in *.
  assert (length (SL_shards_ s') = N) as Hlen.
  { rewrite (Forall2_length _ _ _ Hin). unfold shard_capacities.
    by rewrite length_fmap, length_seq. }
  assert (shard_idx hasher k s' = shard_idx hasher k s) as Hsame.
  { assert (length (SL_shards_ s') = length (SL_shards_ s)) as Hl
      by (unfold s', ShardedLRU_put; simpl; apply length_alter).
    unfold shard_idx. by rewrite Hl. }
  assert (shard_idx hasher k s' < N) as Hi.
  { rewrite <- Hlen. apply shard_idx_lt. intros Hnil. rewrite Hnil in Hlen.
    simpl in Hlen. lia. }
  destruct (lookup_lt_is_Some_2 (SL_shards_ s') (shard_idx hasher k s')) as [sh Hsh];
    [lia|].
  destruct (Forall2_lookup_l _ _ _ _ _ Hin Hsh) as (cap & Hcap & Hwf & Hsz & Hc).
  rewrite shard_capacities_lookup in Hcap by done. injection Hcap as Hcap.
  rewrite decide_False in Hcap by (unfold shard_idx; rewrite Hlen; exact Hidx).
  rewrite Nat.div_small in Hcap by lia.
  assert (map_ sh = ∅) as Hempty.
  { unfold LRUCache_size in Hsz. apply leibniz_equiv, size_empty_iff. lia. }
  unfold ShardedLRU_contains, ShardedLRU_get. rewrite Hsh.
  unfold LRUCache_contains, LRUCache_get. rewrite Hempty.
  rewrite bool_decide_eq_false_2 by set_solver.
  rewrite decide_False by set_solver. done.
Qed.

Lemma ShardedLRU_step_alter_at s (o : LRU_op Key Value) :
  SL_shards_ (ShardedLRU_step hasher s o) =
    alter (λ sh, LRU_step sh o) (shard_idx hasher (LRU_op_key o) s) (SL_shards_ s).
Proof.
  destruct o as [k|k v|k]; simpl.
  - unfold ShardedLRU_get. rewrite alter_lookup_insert.
    by destruct (SL_shards_ s !! _).
  - done.
  - unfold ShardedLRU_erase. rewrite alter_lookup_insert.
    by destruct (SL_shards_ s !! _).
Qed.

(** X20. An operation on one key never touches another shard: for a key
    [k'] routed to a different shard than the operation's key, [contains]
    and [get] answer after the operation as they did before. *)
Theorem ShardedLRU_step_keeps_other_shards
    (s : ShardedLRU Key Value) (o : LRU_op Key Value) (k' : Key) :
  shard_idx hasher k' s ≠ shard_idx hasher (LRU_op_key o) s →
  ShardedLRU_contains hasher k' (ShardedLRU_step hasher s o)
    = ShardedLRU_contains hasher k' s ∧
  (ShardedLRU_get hasher k' (ShardedLRU_step hasher s o)).1
    = (ShardedLRU_get hasher k' s).1.
Proof.
  intros Hne.
  assert (shard_idx hasher k' (ShardedLRU_step hasher s o) = shard_idx hasher k' s)
    as Hsame.
  { unfold shard_idx. by rewrite ShardedLRU_step_alter_at, length_alter. }
  unfold ShardedLRU_contains, ShardedLRU_get. rewrite Hsame.
  rewrite ShardedLRU_step_alter_at, list_lookup_alter_ne by done.
  by destruct (SL_shards_ s !! _).
Qed.

Lemma shard_within_run (sh : LRUCache Key Value) cap (lops : list (LRU_op Key Value)) :
  shard_within sh cap → shard_within (LRU_run lops sh) cap.
Proof.
  revert sh. induction lops as [|o lops IH]; intros sh Hsh; [done|].
  unfold LRU_run in *. simpl. by apply IH, shard_within_step.
Qed.

(** Every operation of the sharded TinyLFU cache rewrites one shard by the
    corresponding single-shard operation. *)
Lemma ShardedWTinyLFU_step_alter w (o : LRU_op Key Value) :
  ∃ i o', shards_ (ShardedWTinyLFU_step hasher w o) =
            alter (λ sh, TinyLFU_step hasher sh o') i (shards_ w).
Proof.
  destruct o as [k|k v|k]; exists (idx hasher k w); simpl.
  - exists (TGet k). unfold ShardedWTinyLFU_get. rewrite alter_lookup_insert.
    by destruct (shards_ w !! _).
  - by exists (TPut k v).
  - exists (TErase k). unfold ShardedWTinyLFU_erase. rewrite alter_lookup_insert.
    by destruct (shards_ w !! _).
Qed.

Lemma ShardedWTinyLFU_run_within (ops : list (LRU_op Key Value)) w caps :
  Forall2 (λ sh cap, shard_within (lru_ sh) cap) (shards_ w) caps →
  Forall2 (λ sh cap, shard_within (lru_ sh) cap)
          (shards_ (ShardedWTinyLFU_run hasher ops w)) caps.
Proof.
  revert w. induction ops as [|o ops IH]; intros w Hw; [done|].
  unfold ShardedWTinyLFU_run in *. simpl. apply IH.
  destruct (ShardedWTinyLFU_step_alter w o) as (i & o' & ->).
  apply Forall2_alter_l; [done|]. intros sh cap _ _ Hsh. simpl in *.
  destruct (TinyLFU_step_core hasher sh o') as [lops ->].
  by apply shard_within_run.
Qed.

Lemma tiny_shards_within_sum (l : list (TinyLFUAdmittingLRU Key Value)) caps :
  Forall2 (λ sh cap, shard_within (lru_ sh) cap) l caps →
  sum_list (TinyLFU_size <$> l) ≤ sum_list caps.
Proof.
  induction 1 as [|sh cap l caps (_ & Hsz & _) _ IH]; [done|].
  rewrite fmap_cons, !sum_list_cons_unfold. unfold TinyLFU_size at 1. lia.
Qed.


End Sharded_more.

(** The driver's cache, total capacity 8 over 4 shards, and an undersized
    one, total capacity 2 over 4 shards. *)
Lemma ShardedLRU_size_within_total_witness :
  ∃ s0 : ShardedLRU Z string,
    ShardedLRU_ctor 8 4 = Constructed s0 ∧
    let s := ShardedLRU_run int_hasher
               [OpPut 1%Z "A"%string; OpPut 5%Z "B"%string; OpGet 1%Z] s0 in
    ShardedLRU_size s ≤ 8 ∧ ShardedLRU_num_shards s = 4.
Proof.
  destruct (ShardedLRU_size_within_total (Key:=Z) (Value:=string) int_hasher 8 4
              [OpPut 1%Z "A"%string; OpPut 5%Z "B"%string; OpGet 1%Z] ltac:(lia))
    as (s0 & Hc & Hs & Hn & _).
  exists s0. split; [exact Hc|]. split; [exact Hs|exact Hn].
Defined.

Lemma ShardedLRU_put_then_get_witness :
  ∃ s0 : ShardedLRU Z string,
    ShardedLRU_ctor 8 4 = Constructed s0 ∧
    (ShardedLRU_get int_hasher 9%Z
       (ShardedLRU_put int_hasher 9%Z "C"%string
          (ShardedLRU_run int_hasher [OpPut 1%Z "A"%string] s0))).1
      = Some "C"%string.
Proof.
  destruct (ShardedLRU_put_then_get (Key:=Z) (Value:=string) int_hasher 8 4
              [OpPut 1%Z "A"%string] 9%Z "C"%string ltac:(lia) ltac:(lia))
    as (s0 & Hc & Hg & _).
  exists s0. split; [exact Hc|exact Hg].
Defined.

Lemma ShardedLRU_undersized_shards_store_nothing_witness :
  N.to_nat (wrap64 (int_hasher 1%Z) mod N.of_nat 4) ≠ 4 - 1 ∧
  ∃ s0 : ShardedLRU Z string,
    ShardedLRU_ctor 2 4 = Constructed s0 ∧
    ShardedLRU_contains int_hasher 1%Z
      (ShardedLRU_put int_hasher 1%Z "A"%string (ShardedLRU_run int_hasher [] s0))
      = false.
Proof.
  assert (N.to_nat (wrap64 (int_hasher 1%Z) mod N.of_nat 4) ≠ 4 - 1) as Hidx
    by (vm_compute; lia).
  split; [exact Hidx|].
  destruct (ShardedLRU_undersized_shards_store_nothing (Key:=Z) (Value:=string)
              int_hasher 2 4 [] 1%Z "A"%string ltac:(lia) ltac:(lia) Hidx)
    as (s0 & Hc & Hg & _).
  exists s0. split; [exact Hc|exact Hg].
Defined.

Lemma ShardedLRU_step_keeps_other_shards_witness :
  let s := mkShardedLRU (LRUCache_new (Key:=Z) (Value:=string) <$> shard_capacities 8 4) in
  ShardedLRU_contains int_hasher 2%Z
    (ShardedLRU_step int_hasher (ShardedLRU_put int_hasher 2%Z "B"%string s)
       (OpPut 1%Z "A"%string))
    = ShardedLRU_contains int_hasher 2%Z (ShardedLRU_put int_hasher 2%Z "B"%string s).
Proof.
  intros s.
  apply (ShardedLRU_step_keeps_other_shards int_hasher
           (ShardedLRU_put int_hasher 2%Z "B"%string s) (OpPut 1%Z "A"%string) 2%Z).
  vm_compute. lia.
Defined.


(** ** Markov predictor: exact counting, aging and candidate selection *)

Section MarkovPredictor_more.
Context {Key : Type} `{Countable Key}.
Implicit Types (m : MarkovPredictor Key) (p k : Key).

Lemma pair_count_snoc p k (ops : list (Markov_op Key)) o :
  pair_count p k (ops ++ [o]) =
    pair_count p k ops + (if observes_pair p k o then 1 else 0).
Proof.
  unfold pair_count. rewrite filter_app, length_app. f_equal.
  rewrite filter_cons, filter_nil. by destruct (observes_pair p k o).
Qed.

Lemma from_count_snoc p (ops : list (Markov_op Key)) o :
  from_count p (ops ++ [o]) =
    from_count p ops + (if observes_from p o then 1 else 0).
Proof.
  unfold from_count. rewrite filter_app, length_app. f_equal.
  rewrite filter_cons, filter_nil. by destruct (observes_from p o).
Qed.

Lemma pair_count_le_length p k (ops : list (Markov_op Key)) :
  pair_count p k ops ≤ length ops.
Proof. apply length_filter. Qed.

Lemma from_count_le_length p (ops : list (Markov_op Key)) :
  from_count p ops ≤ length ops.
Proof. apply length_filter. Qed.

(** X22. Without decay and with fewer than 2^32 observations, the
    predictor counts exactly: [c[p][k]] is the number of times the
    transition [p -> k] was observed and [t[p]] the number of transitions
    observed out of [p]. *)
Theorem Markov_counts_observations_exactly (ops : list (Markov_op Key)) (p k : Key) :
  Forall (λ o, is_observe o = true) ops →
  (N.of_nat (length ops) < 2 ^ 32)%N →
  count_of (Markov_run ops) p k = N.of_nat (pair_count p k ops) ∧
  total_of (Markov_run ops) p = N.of_nat (from_count p ops).
Proof.
  induction ops as [|o ops IH] using rev_ind; intros Hobs Hlen.
  - unfold count_of, total_of, Markov_run. simpl. by rewrite !lookup_empty.
  - apply Forall_app in Hobs as [Hobs Ho]. rewrite Forall_singleton in Ho.
    rewrite length_app in Hlen. simpl in Hlen.
    destruct IH as [IHc IHt]; [done|lia|].
    rewrite Markov_run_snoc, pair_count_snoc, from_count_snoc.
    destruct o as [p' k'|]; [|simpl in Ho; discriminate]. simpl.
    rewrite count_of_observe, total_of_observe, IHc, IHt.
    pose proof (pair_count_le_length p k ops).
    pose proof (from_count_le_length p ops).
    split.
    + destruct (decide (p = p' ∧ k = k')) as [[-> ->]|Hne].
      * rewrite bool_decide_eq_true_2 by done.
        rewrite wrap32_small by lia. lia.
      * rewrite bool_decide_eq_false_2 by naive_solver. lia.
    + destruct (decide (p = p')) as [->|Hne].
      * rewrite bool_decide_eq_true_2 by done.
        rewrite wrap32_small by lia. lia.
      * rewrite bool_decide_eq_false_2 by naive_solver. lia.
Qed.

(** X23. [decay_half] halves every stored count and every stored total,
    rounding down, and erases the entries that reach 0: afterwards no
    stored count or total is 0.  A predecessor stays in the transition
    table even when all its successors were erased. *)
Theorem Markov_decay_half_halves_and_prunes (m : MarkovPredictor Key) (p k : Key) :
  count_of (Markov_decay_half m) p k = N.shiftr (count_of m p k) 1 ∧
  total_of (Markov_decay_half m) p = N.shiftr (total_of m p) 1 ∧
  (∀ mp c, trans_ (Markov_decay_half m) !! p = Some mp → mp !! k = Some c → c ≠ 0%N) ∧
  (∀ c, totals_ (Markov_decay_half m) !! p = Some c → c ≠ 0%N) ∧
  (is_Some (trans_ (Markov_decay_half m) !! p) ↔ is_Some (trans_ m !! p)).
Proof.
  split; [apply count_of_decay|]. split; [apply total_of_decay|].
  assert (∀ (mp : gmap Key N) x c, omap halve_or_erase mp !! x = Some c → c ≠ 0%N)
    as Hpos.
  { intros mp x c Hc. apply lookup_omap_Some in Hc as (c0 & Hh & _).
    unfold halve_or_erase in Hh. destruct (decide _); congruence. }
  unfold Markov_decay_half. simpl. split; [|split].
  - intros mp c Hmp Hc. rewrite lookup_fmap in Hmp.
    destruct (trans_ m !! p) as [mp0|]; simpl in Hmp; [|done].
    injection Hmp as <-. by eapply Hpos.
  - intros c Hc. by eapply Hpos.
  - rewrite lookup_fmap. by rewrite fmap_is_Some.
Qed.

Section candidates.
Context {double : Type}.
Variable of_uint32 : N → double.
Variable fdiv : double → double → double.
Variable fge : double → double → bool.
Variable iterate : gmap Key N → list (Key * N).
Variable sort_desc : list (Key * double) → list (Key * double).
Hypothesis iterate_lists_entries : ∀ mp, iterate mp ≡ₚ map_to_list mp.
Hypothesis sort_desc_permutes : ∀ l, sort_desc l ≡ₚ l.

Lemma candidate_of_Some total min_count min_prob (e : Key * N) (x : Key * double) :
  candidate_of of_uint32 fdiv fge total min_count min_prob e = Some x →
  x.1 = e.1 ∧ (min_count ≤ e.2)%N ∧ fge (fdiv (of_uint32 e.2) total) min_prob = true.
Proof.
  unfold candidate_of. destruct (decide _) as [|Hge]; [done|].
  destruct (fge _ _) eqn:Hp; [|done]. intros [= <-]. simpl. split; [done|]. split; [lia|done].
Qed.

Lemma candidates_keys_sublist total min_count min_prob (l : list (Key * N)) :
  (omap (candidate_of of_uint32 fdiv fge total min_count min_prob) l).*1
    `sublist_of` l.*1.
Proof.
  induction l as [|e l IH]; [done|]. simpl.
  destruct (candidate_of _ _ _ _ _ _ e) as [x|] eqn:Hx; simpl.
  - apply candidate_of_Some in Hx as (-> & _). by apply sublist_skip.
  - by apply sublist_cons.
Qed.

(** X24. What [topk_next] returns: at most [top_k] keys, no key twice, none
    if [cur] has no transitions or its total is absent or 0; and every
    returned key is a stored successor of [cur] whose count is at least
    [min_count] and whose count divided by the total passes [>= min_prob].
    This holds for any iteration order of the inner map and any order the
    sort gives to ties. *)
Theorem topk_next_returns_qualified_successors
    (m : MarkovPredictor Key) (cur : Key) (top_k : nat) (min_count : N)
    (min_prob : double) :
  let out := topk_next_model of_uint32 fdiv fge iterate sort_desc
               m cur top_k min_count min_prob in
  length out ≤ top_k ∧
  NoDup out ∧
  (trans_ m !! cur = None ∨ total_of m cur = 0%N → out = []) ∧
  ∀ s, s ∈ out →
       ∃ successors c,
         trans_ m !! cur = Some successors ∧ successors !! s = Some c ∧
         (min_count ≤ c)%N ∧
         fge (fdiv (of_uint32 c) (of_uint32 (total_of m cur))) min_prob = true.
Proof.
  intros out. unfold out, topk_next_model, total_of.
  destruct (trans_ m !! cur) as [successors|] eqn:Htr; simpl.
  2:{ split; [lia|]. split; [constructor|]. split; [done|].
      intros s Hs. by apply elem_of_nil in Hs. }
  destruct (totals_ m !! cur) as [t|] eqn:Htot; simpl.
  2:{ split; [lia|]. split; [constructor|]. split; [done|].
      intros s Hs. by apply elem_of_nil in Hs. }
  destruct (decide (t = 0%N)) as [Ht|Ht].
  { split; [simpl; lia|]. split; [constructor|]. split; [done|].
    intros s Hs. by apply elem_of_nil in Hs. }
  set (f := candidate_of of_uint32 fdiv fge (of_uint32 t) min_count min_prob).
  set (cand := omap f (iterate successors)).
  assert ((take top_k (sort_desc cand)).*1 `sublist_of` (sort_desc cand).*1) as Hsub
    by apply fmap_sublist, sublist_take.
  assert (NoDup cand.*1) as Hnd.
  { eapply sublist_NoDup; [|apply candidates_keys_sublist].
    rewrite iterate_lists_entries. apply NoDup_fst_map_to_list. }
  split; [|split; [|split]].
  - rewrite length_fmap, length_take. lia.
  - eapply sublist_NoDup; [|exact Hsub]. by rewrite sort_desc_permutes.
  - intros [?|?]; done.
  - intros s Hs. exists successors.
    apply (elem_of_sublist _ _ _ Hs) in Hsub as Hs'.
    rewrite sort_desc_permutes in Hs'. clear Hs. rename Hs' into Hs.
    apply list_elem_of_fmap in Hs as (x & -> & Hx).
    apply list_elem_of_omap in Hx as (e & He & Hfe).
    apply candidate_of_Some in Hfe as (Hk & Hc & Hp).
    rewrite iterate_lists_entries in He. destruct e as [s0 c].
    apply elem_of_map_to_list in He. simpl in *. subst.
    exists c. done.
Qed.

End candidates.

End MarkovPredictor_more.

Lemma insert_desc_permutes (x : Z * QArith_base.Q) (l : list (Z * QArith_base.Q)) :
  insert_desc x l ≡ₚ x :: l.
Proof.
  induction l as [|y l IH]; simpl; [done|].
  destruct (QArith_base.Qle_bool y.2 x.2); [done|].
  rewrite IH. apply Permutation_swap.
Qed.

Lemma insertion_sort_desc_permutes (l : list (Z * QArith_base.Q)) :
  insertion_sort_desc l ≡ₚ l.
Proof.
  unfold insertion_sort_desc. induction l as [|x l IH]; simpl; [done|].
  by rewrite insert_desc_permutes, IH.
Qed.

(** After 0 -> 1 three times and 0 -> 2 once, with [min_count = 2] and
    [min_prob = 1/5], the one candidate for key 0 is key 1. *)
Example topk_next_example :
  topk_next_Q
    (Markov_run [MObserve 0%Z 1%Z; MObserve 0%Z 2%Z; MObserve 0%Z 1%Z; MObserve 0%Z 1%Z])
    0%Z 2 2%N (QArith_base.Qmake 1 5) = [1%Z].
Proof. vm_compute. reflexivity. Qed.

Lemma topk_next_returns_qualified_successors_witness :
  let m := Markov_run [MObserve 0%Z 1%Z; MObserve 0%Z 2%Z;
                       MObserve 0%Z 1%Z; MObserve 0%Z 1%Z] in
  let out := topk_next_Q m 0%Z 2 2%N (QArith_base.Qmake 1 5) in
  length out ≤ 2 ∧ NoDup out ∧
  ∀ s, s ∈ out → ∃ successors c,
      trans_ m !! 0%Z = Some successors ∧ successors !! s = Some c ∧ (2 ≤ c)%N.
Proof.
  intros m out.
  pose proof (topk_next_returns_qualified_successors
                Q_of_uint32 QArith_base.Qdiv Q_ge map_to_list insertion_sort_desc
                (λ mp, reflexivity (map_to_list mp)) insertion_sort_desc_permutes
                m 0%Z 2 2%N (QArith_base.Qmake 1 5)) as (Hlen & Hnd & _ & Hin).
  split; [exact Hlen|]. split; [exact Hnd|].
  intros s Hs. destruct (Hin s Hs) as (succ & c & H1 & H2 & H3 & _).
  exists succ, c. split; [exact H1|]. split; [exact H2|exact H3].
Defined.

Lemma Markov_counts_observations_exactly_witness :
  let ops := [MObserve 0%Z 1%Z; MObserve 0%Z 2%Z; MObserve 0%Z 1%Z] in
  count_of (Markov_run ops) 0%Z 1%Z = N.of_nat (pair_count 0%Z 1%Z ops) ∧
  total_of (Markov_run ops) 0%Z = N.of_nat (from_count 0%Z ops).
Proof.
  intros ops.
  apply (Markov_counts_observations_exactly ops 0%Z 1%Z).
  - repeat constructor.
  - vm_compute. reflexivity.
Defined.

Lemma Markov_decay_half_halves_and_prunes_witness :
  let m := Markov_run [MObserve 0%Z 1%Z; MObserve 0%Z 2%Z; MObserve 0%Z 1%Z] in
  count_of (Markov_decay_half m) 0%Z 1%Z = N.shiftr (count_of m 0%Z 1%Z) 1 ∧
  trans_ (Markov_decay_half m) !! 0%Z = Some {[1%Z := 1%N]} ∧
  (1%N ≠ 0%N).
Proof.
  intros m.
  pose proof (Markov_decay_half_halves_and_prunes m 0%Z 1%Z) as (Hc & _ & Hpos & _).
  assert (trans_ (Markov_decay_half m) !! 0%Z = Some {[1%Z := 1%N]}) as Htr
    by (vm_compute; reflexivity).
  split; [exact Hc|]. split; [exact Htr|].
  apply (Hpos {[1%Z := 1%N]} 1%N Htr). vm_compute. reflexivity.
Defined.

(** ** Predictive wrapper: shards, learning over consecutive accesses, prefetch *)

Section Predictive_more.
Context {Key Value : Type} `{Countable Key}.
Variable hasher : Key → N.
Variable default_value : Value.
Context {double : Type}.
Variable topk_next : MarkovPredictor Key → Key → nat → N → double → list Key.
Implicit Types (pc : PredictiveShardedCache Key Value double) (k : Key)
  (b : ShardedWTinyLFU Key Value).

Lemma ShardedWTinyLFU_get_shards k b :
  length (shards_ (ShardedWTinyLFU_get hasher k b).2) = length (shards_ b).
Proof.
  unfold ShardedWTinyLFU_get. destruct (shards_ b !! _); simpl; [|done].
  by rewrite length_insert.
Qed.

Lemma ShardedWTinyLFU_put_shards k (v : Value) b :
  length (shards_ (ShardedWTinyLFU_put hasher k v b)) = length (shards_ b).
Proof. unfold ShardedWTinyLFU_put. simpl. by rewrite length_alter. Qed.

Lemma ShardedWTinyLFU_erase_shards k b :
  length (shards_ (ShardedWTinyLFU_erase hasher k b).2) = length (shards_ b).
Proof.
  unfold ShardedWTinyLFU_erase. destruct (shards_ b !! _); simpl; [|done].
  by rewrite length_insert.
Qed.

Lemma prefetch_loop_shards (cand : list Key) b :
  length (shards_ (foldl (prefetch_one hasher default_value) b cand))
    = length (shards_ b).
Proof.
  revert b. induction cand as [|nxt cand IH]; intros b; [done|].
  cbn [foldl]. rewrite IH. unfold prefetch_one.
  destruct (ShardedWTinyLFU_get hasher nxt b).1.
  - apply ShardedWTinyLFU_get_shards.
  - by rewrite ShardedWTinyLFU_put_shards, ShardedWTinyLFU_get_shards.
Qed.

Lemma Predictive_step_keeps_shards pc (o : Predictive_op Key Value) :
  Predictive_wf pc → length (shards_ (base_ pc)) = shards (opts_ pc) →
  let pc' := Predictive_step hasher default_value topk_next pc o in
  Predictive_wf pc' ∧
  length (shards_ (base_ pc')) = shards (opts_ pc') ∧
  opts_ pc' = opts_ pc.
Proof.
  intros Hwf Hb pc'. unfold pc'. destruct o as [k|k v|k|]; cbn [Predictive_step].
  - split; [by apply Predictive_get_wf|]. split; [|done].
    unfold Predictive_get. cbn [snd base_ opts_].
    destruct (enable_prefetch (opts_ pc)).
    + by rewrite prefetch_loop_shards, ShardedWTinyLFU_get_shards.
    + by rewrite ShardedWTinyLFU_get_shards.
  - split; [by apply Predictive_put_wf|]. split; [|done].
    unfold Predictive_put. cbn [base_ opts_].
    by rewrite ShardedWTinyLFU_put_shards.
  - unfold Predictive_erase. cbn [snd base_ opts_].
    split; [done|]. split; [|done]. by rewrite ShardedWTinyLFU_erase_shards.
  - destruct Hwf as (? & ? & ?). unfold decay_models. split; [|done].
    unfold Predictive_wf. cbn [opts_ preds_ prev_]. by rewrite length_fmap.
Qed.

(** X25. The wrapper and the cache under it always agree on the shards: in
    every state reached from a constructed wrapper by get, put, erase and
    decay_models, the options are the ones given, the predictor and
    last-key vectors and the underlying cache all have [opts.shards]
    entries, and the wrapper's shard index of every key is the underlying
    cache's shard index of it. *)
Theorem Predictive_wrapper_and_base_agree_on_shards
    (capacity : nat) (opt : Options double) (ops : list (Predictive_op Key Value))
    (pc0 : PredictiveShardedCache Key Value double) :
  Predictive_ctor capacity opt = Constructed pc0 →
  let pc := Predictive_run hasher default_value topk_next ops pc0 in
  opts_ pc = opt ∧
  Predictive_num_shards pc = shards opt ∧
  ShardedWTinyLFU_num_shards (base_ pc) = shards opt ∧
  length (preds_ pc) = shards opt ∧
  length (prev_ pc) = shards opt ∧
  ∀ k, shidx hasher k pc = idx hasher k (base_ pc).
Proof.
  intros Hc pc.
  assert (Predictive_wf pc0 ∧ length (shards_ (base_ pc0)) = shards (opts_ pc0) ∧
          opts_ pc0 = opt) as Hinit.
  { split; [by eapply Predictive_ctor_wf|].
    unfold Predictive_ctor, ShardedWTinyLFU_ctor in Hc.
    destruct (decide (shards opt = 0)); [done|]. injection Hc as <-. simpl.
    unfold shard_capacities. by rewrite !length_fmap, length_seq. }
  assert (Predictive_wf pc ∧ length (shards_ (base_ pc)) = shards (opts_ pc) ∧
          opts_ pc = opt) as (Hwf & Hb & Ho).
  { unfold pc, Predictive_run. clear pc Hc. revert pc0 Hinit.
    induction ops as [|o ops IH]; intros pc0 Hinit; [done|].
    cbn [foldl]. apply IH. destruct Hinit as (Hwf & Hb & Ho).
    destruct (Predictive_step_keeps_shards pc0 o Hwf Hb) as (? & ? & Ho').
    split; [done|]. split; [done|]. by rewrite Ho'. }
  destruct Hwf as (Hpos & Hpreds & Hprev).
  unfold Predictive_num_shards, ShardedWTinyLFU_num_shards.
  rewrite Ho in *. repeat (split; [done|]).
  intros k. unfold shidx, idx. by rewrite Hb, Ho.
Qed.

(** X26. Two consecutive [get]s on the same shard teach the predictor the
    transition between them: after [get(a)] then [get(b)], with [a] and [b]
    routed to the same shard, that shard's predictor is the one left by
    [get(a)] with [observe(a, b)] applied, so its count of [a -> b] is one
    more (modulo 2^32). *)
Theorem Predictive_consecutive_gets_learn_transition
    (pc : PredictiveShardedCache Key Value double) (a b : Key) :
  Predictive_wf pc →
  shidx hasher a pc = shidx hasher b pc →
  let i := shidx hasher b pc in
  let r1 := Predictive_get hasher default_value topk_next a pc in
  let r2 := Predictive_get hasher default_value topk_next b r1.2 in
  ∃ pr, preds_ r1.2 !! i = Some pr ∧
        preds_ r2.2 !! i = Some (observe a b pr) ∧
        count_of (observe a b pr) a b = wrap32 (count_of pr a b + 1) ∧
        prev_ r2.2 !! i = Some (Some b).
Proof.
  intros Hwf Hab i r1 r2.
  pose proof (Predictive_get_wf hasher default_value topk_next a pc Hwf) as Hwf1.
  fold r1 in Hwf1.
  assert (shidx hasher b r1.2 = i) as Hi1 by done.
  assert (i < shards (opts_ pc)) as Hlt by by apply shidx_lt.
  assert (prev_ r1.2 !! i = Some (Some a)) as Hprev1.
  { unfold r1, Predictive_get. simpl. rewrite Hab. fold i.
    apply list_lookup_insert_eq. destruct Hwf as (_ & _ & ->). done. }
  destruct Hwf1 as (_ & Hp1 & Hv1).
  destruct (lookup_lt_is_Some_2 (preds_ r1.2) i) as [pr Hpr].
  { rewrite Hp1. done. }
  exists pr. split; [done|]. split; [|split].
  - unfold r2, Predictive_get. cbn [snd preds_]. rewrite Hi1, Hprev1.
    by rewrite list_lookup_alter_eq, Hpr.
  - rewrite count_of_observe. by rewrite decide_True.
  - unfold r2, Predictive_get. cbn [snd prev_]. rewrite Hi1.
    apply list_lookup_insert_eq. rewrite Hv1. done.
Qed.

End Predictive_more.

Section Predictive_prefetch_off.
Context {Key Value : Type} `{Countable Key}.
Variable hasher : Key → N.
Variable default_value : Value.
Context {double : Type}.
Variable of_uint32 : N → double.
Variable fdiv : double → double → double.
Variable fge : double → double → bool.
Variable iterate : gmap Key N → list (Key * N).
Variable sort_desc : list (Key * double) → list (Key * double).

Lemma topk_next_model_zero (m : MarkovPredictor Key) cur min_count min_prob :
  topk_next_model of_uint32 fdiv fge iterate sort_desc m cur 0 min_count min_prob = [].
Proof.
  unfold topk_next_model. destruct (trans_ m !! cur); [|done].
  destruct (totals_ m !! cur); [|done]. by destruct (decide _).
Qed.

(** X27. With [enable_prefetch] off, or with [prefetch_topk = 0], [get(k)]
    does nothing to the underlying cache beyond its own lookup of [k]: no
    candidate is looked up and no placeholder is inserted.  The transition
    is learned all the same. *)
Theorem Predictive_get_without_prefetch
    (pc : PredictiveShardedCache Key Value double) (k : Key) :
  enable_prefetch (opts_ pc) = false ∨ prefetch_topk (opts_ pc) = 0 →
  let r := Predictive_get hasher default_value
             (topk_next_model of_uint32 fdiv fge iterate sort_desc) k pc in
  base_ r.2 = (ShardedWTinyLFU_get hasher k (base_ pc)).2 ∧
  r.1 = (ShardedWTinyLFU_get hasher k (base_ pc)).1 ∧
  preds_ r.2 =
    match prev_ pc !! shidx hasher k pc with
    | Some (Some p) => alter (observe p k) (shidx hasher k pc) (preds_ pc)
    | _ => preds_ pc
    end.
Proof.
  intros Hoff r. unfold r, Predictive_get. simpl. split; [|done].
  destruct (enable_prefetch (opts_ pc)); [|done].
  destruct Hoff as [?|Hz]; [done|]. rewrite Hz.
  destruct (_ !! shidx hasher k pc); [|done].
  by rewrite topk_next_model_zero.
Qed.

End Predictive_prefetch_off.

Lemma Predictive_wrapper_and_base_agree_on_shards_witness :
  let pc := Predictive_run int_hasher ""%string topk_next_Q
              [PPut 1%Z "a"%string; PGet 5%Z; PDecayModels; PErase 1%Z]
              example_predictive in
  Predictive_ctor 8 example_options = Constructed example_predictive ∧
  Predictive_num_shards pc = 4 ∧
  ShardedWTinyLFU_num_shards (base_ pc) = 4 ∧
  ∀ k, shidx int_hasher k pc = idx int_hasher k (base_ pc).
Proof.
  intros pc.
  assert (Predictive_ctor 8 example_options = Constructed example_predictive) as Hc
    by reflexivity.
  pose proof (Predictive_wrapper_and_base_agree_on_shards int_hasher ""%string
                topk_next_Q 8 example_options
                [PPut 1%Z "a"%string; PGet 5%Z; PDecayModels; PErase 1%Z]
                example_predictive Hc) as (_ & Hn & Hb & _ & _ & Hk).
  split; [exact Hc|]. split; [exact Hn|]. split; [exact Hb|exact Hk].
Defined.

Lemma Predictive_consecutive_gets_learn_transition_witness :
  let i := shidx int_hasher 5%Z example_predictive in
  let r1 := Predictive_get int_hasher ""%string topk_next_Q 1%Z example_predictive in
  let r2 := Predictive_get int_hasher ""%string topk_next_Q 5%Z r1.2 in
  shidx int_hasher 1%Z example_predictive = shidx int_hasher 5%Z example_predictive ∧
  ∃ pr, preds_ r1.2 !! i = Some pr ∧
        preds_ r2.2 !! i = Some (observe 1%Z 5%Z pr).
Proof.
  intros i r1 r2.
  assert (Predictive_wf example_predictive) as Hwf
    by exact (Predictive_ctor_wf 8 example_options example_predictive eq_refl).
  assert (shidx int_hasher 1%Z example_predictive
          = shidx int_hasher 5%Z example_predictive) as Hab by (vm_compute; reflexivity).
  split; [exact Hab|].
  destruct (Predictive_consecutive_gets_learn_transition int_hasher ""%string
              topk_next_Q example_predictive 1%Z 5%Z Hwf Hab) as (pr & H1 & H2 & _).
  exists pr. split; [exact H1|exact H2].
Defined.

Lemma Predictive_get_without_prefetch_witness :
  let pc := mkPredictive (base_ example_predictive)
              (mkOptions 4 0 2%N (QArith_base.Qmake 1 5) true)
              (preds_ example_predictive) (prev_ example_predictive) in
  prefetch_topk (opts_ pc) = 0 ∧
  base_ (Predictive_get int_hasher ""%string topk_next_Q 1%Z pc).2
    = (ShardedWTinyLFU_get int_hasher 1%Z (base_ pc)).2.
Proof.
  intros pc.
  assert (prefetch_topk (opts_ pc) = 0) as Hz by reflexivity.
  split; [exact Hz|].
  exact (proj1 (Predictive_get_without_prefetch int_hasher ""%string
                  Q_of_uint32 QArith_base.Qdiv Q_ge map_to_list insertion_sort_desc
                  pc 1%Z (or_intror Hz))).
Defined.

(** ** LFU reference cache *)

Section LFUCache_facts.
Context {Key Value : Type} `{Countable Key}.
Implicit Types (c : LFUCache Key Value) (fl : gmap nat (list Key)) (l : list Key).

Lemma bucket_insert fl f l g :
  bucket (<[f := l]> fl) g = if decide (g = f) then l else bucket fl g.
Proof.
  unfold bucket. destruct (decide (g = f)) as [->|Hne].
  - by rewrite lookup_insert_eq.
  - by rewrite lookup_insert_ne.
Qed.

Lemma bucket_delete fl f g :
  bucket (delete f fl) g = if decide (g = f) then [] else bucket fl g.
Proof.
  unfold bucket. destruct (decide (g = f)) as [->|Hne].
  - by rewrite lookup_delete_eq.
  - by rewrite lookup_delete_ne.
Qed.

Lemma remove_key_elem l key x :
  NoDup l → x ∈ remove_key key l ↔ x ∈ l ∧ x ≠ key.
Proof.
  induction l as [|y l IH]; simpl; intros Hnd.
  - set_solver.
  - apply NoDup_cons in Hnd as [Hy Hnd].
    destruct (decide (y = key)) as [->|Hne].
    + set_solver.
    + rewrite !elem_of_cons, IH by done. naive_solver.
Qed.

Lemma remove_key_NoDup l key : NoDup l → NoDup (remove_key key l).
Proof.
  induction l as [|y l IH]; simpl; intros Hnd; [done|].
  apply NoDup_cons in Hnd as [Hy Hnd].
  destruct (decide (y = key)); [done|].
  apply NoDup_cons. split; [|by apply IH].
  rewrite remove_key_elem by done. tauto.
Qed.

Lemma LFU_touch_inv key c :
  LFU_inv c → is_Some (kv_ c !! key) → LFU_inv (LFU_touch key c).
Proof.
  intros (Hcap & Hsz & Hin & Hback & Hnd & Hmin) [[v f] Hk].
  unfold LFU_touch. rewrite Hk.
  set (l := remove_key key (bucket (freq_list_ c) f)).
  assert (∀ g, bucket (<[S f := key :: bucket (<[f := l]> (freq_list_ c)) (S f)]>
                         (<[f := l]> (freq_list_ c))) g =
               if decide (g = S f) then key :: bucket (freq_list_ c) (S f)
               else if decide (g = f) then l else bucket (freq_list_ c) g) as Hb.
  { intros g. rewrite !bucket_insert. rewrite (decide_False (P:=S f = f)) by lia.
    done. }
  assert (∀ x, x ∈ l ↔ x ∈ bucket (freq_list_ c) f ∧ x ≠ key) as Hl.
  { intros x. by apply remove_key_elem. }
  assert (∀ k v' f', k ≠ key → kv_ c !! k = Some (v', f') → f' = f → k ∈ l) as Hstay.
  { intros k v' f' Hne Hk' ->. apply Hl. split; [by apply (Hin k v')|done]. }
  assert (key ∉ bucket (freq_list_ c) (S f)) as Hfresh.
  { intros Hx. destruct (Hback _ _ Hx) as [v' Hv']. rewrite Hk in Hv'.
    injection Hv' as _ Hf. lia. }
  split; [done|]. simpl.
  split; [by rewrite map_size_insert_Some|].
  split; [|split; [|split]].
  - intros k v' f' Hk'. rewrite Hb.
    destruct (decide (k = key)) as [->|Hne].
    + rewrite lookup_insert_eq in Hk'. injection Hk' as <- <-.
      rewrite decide_True by done. split; [apply elem_of_cons; by left|lia].
    + rewrite lookup_insert_ne in Hk' by done.
      destruct (Hin _ _ _ Hk') as [Hkin Hpos]. split; [|done].
      destruct (decide (f' = S f)) as [->|]; [apply elem_of_cons; by right|].
      destruct (decide (f' = f)); [by eapply Hstay|done].
  - intros g k. rewrite Hb.
    destruct (decide (g = S f)) as [->|Hg1].
    + intros [->|Hx]%elem_of_cons.
      * exists v. by rewrite lookup_insert_eq.
      * destruct (Hback _ _ Hx) as [v' Hv']. exists v'.
        rewrite lookup_insert_ne; [done|]. intros <-. done.
    + destruct (decide (g = f)) as [->|Hg2].
      * intros [Hx Hne]%Hl. destruct (Hback _ _ Hx) as [v' Hv']. exists v'.
        by rewrite lookup_insert_ne.
      * intros Hx. destruct (Hback _ _ Hx) as [v' Hv']. exists v'.
        rewrite lookup_insert_ne; [done|]. intros <-. rewrite Hk in Hv'.
        injection Hv' as _ Hf. done.
  - intros g. rewrite Hb.
    destruct (decide (g = S f)); [by apply NoDup_cons|].
    destruct (decide (g = f)); [by apply remove_key_NoDup|done].
  - rewrite map_size_insert_Some by done. intros Hfull.
    destruct (Hmin Hfull) as [Hne Hleast].
    pose proof (Hleast _ _ _ Hk) as Hfmin. rewrite Hb.
    destruct (decide (l = [] ∧ f = min_freq_ c)) as [[Hnil Hf]|Hnot].
    + rewrite decide_True by lia. split; [done|].
      intros k v' f' Hk'. destruct (decide (k = key)) as [->|Hnek].
      * rewrite lookup_insert_eq in Hk'. injection Hk' as <- <-. lia.
      * rewrite lookup_insert_ne in Hk' by done.
        pose proof (Hleast _ _ _ Hk'). destruct (decide (f' = f)) as [Hff|]; [|lia].
        pose proof (Hstay _ _ _ Hnek Hk' Hff) as Hx. rewrite Hnil in Hx.
        by apply elem_of_nil in Hx.
    + split.
      * destruct (decide (min_freq_ c = S f)); [done|].
        destruct (decide (min_freq_ c = f)) as [Hmf|]; [|done].
        intros Hnil. apply Hnot. done.
      * intros k v' f' Hk'. destruct (decide (k = key)) as [->|Hnek].
        -- rewrite lookup_insert_eq in Hk'. injection Hk' as <- <-. lia.
        -- rewrite lookup_insert_ne in Hk' by done. by eapply Hleast.
Qed.

Lemma LFU_set_value_inv key (value : Value) c v f :
  LFU_inv c → kv_ c !! key = Some (v, f) →
  LFU_inv (mkLFUCache (LFU_capacity_ c) (min_freq_ c)
                      (<[key := (value, f)]> (kv_ c)) (freq_list_ c)).
Proof.
  intros (Hcap & Hsz & Hin & Hback & Hnd & Hmin) Hk.
  assert (∀ k v' f', <[key := (value, f)]> (kv_ c) !! k = Some (v', f') →
                     ∃ v0, kv_ c !! k = Some (v0, f')) as Hold.
  { intros k v' f' Hk'. destruct (decide (k = key)) as [->|Hne].
    - rewrite lookup_insert_eq in Hk'. injection Hk' as <- <-. eauto.
    - rewrite lookup_insert_ne in Hk' by done. eauto. }
  split; [done|]. simpl. rewrite map_size_insert_Some by done.
  split; [done|]. split; [|split; [|split]].
  - intros k v' f' Hk'. destruct (Hold _ _ _ Hk') as [v0 Hv0]. by eapply Hin.
  - intros g k Hx. destruct (Hback _ _ Hx) as [v' Hv'].
    destruct (decide (k = key)) as [->|Hne].
    + rewrite Hk in Hv'. injection Hv' as <- <-. exists value.
      by rewrite lookup_insert_eq.
    + exists v'. by rewrite lookup_insert_ne.
  - done.
  - intros Hfull. destruct (Hmin Hfull) as [Hne Hleast]. split; [done|].
    intros k v' f' Hk'. destruct (Hold _ _ _ Hk') as [v0 Hv0]. by eapply Hleast.
Qed.

(** On a full cache [evict] is defined: it removes the least recently
    touched key of the least frequency. *)
Lemma LFU_evict_inv c :
  LFU_inv c → size (kv_ c) = LFU_capacity_ c →
  ∃ e c1,
    LFU_evict c = Some c1 ∧ LFU_inv c1 ∧
    kv_ c1 = delete e (kv_ c) ∧
    LFU_capacity_ c1 = LFU_capacity_ c ∧
    LFU_freq e c = Some (min_freq_ c) ∧
    last (bucket (freq_list_ c) (min_freq_ c)) = Some e.
Proof.
  intros (Hcap & Hsz & Hin & Hback & Hnd & Hmin) Hfull.
  destruct (Hmin Hfull) as [Hne Hleast].
  unfold LFU_evict.
  destruct (last (bucket (freq_list_ c) (min_freq_ c))) as [e|] eqn:Hlast.
  2:{ apply last_None in Hlast. done. }
  apply last_Some in Hlast as [l' Hl].
  assert (e ∈ bucket (freq_list_ c) (min_freq_ c)) as He.
  { rewrite Hl. apply elem_of_app. right. apply elem_of_cons. by left. }
  destruct (Hback _ _ He) as [ve Hve].
  pose proof (Hnd (min_freq_ c)) as Hndm. rewrite Hl in Hndm.
  apply NoDup_app in Hndm as (Hndl & Hdisj & _).
  assert (e ∉ l') as Hel.
  { intros Hx. apply (Hdisj e Hx). apply elem_of_cons. by left. }
  rewrite Hl, removelast_last.
  set (fl' := if decide (l' = []) then delete (min_freq_ c) (freq_list_ c)
              else <[min_freq_ c := l']> (freq_list_ c)).
  assert (∀ g, bucket fl' g = if decide (g = min_freq_ c) then l'
                              else bucket (freq_list_ c) g) as Hb.
  { intros g. unfold fl'. destruct (decide (l' = [])) as [->|].
    - apply bucket_delete.
    - apply bucket_insert. }
  exists e. eexists. split; [done|]. split; [|split; [done|split; [done|split]]].
  - split; [done|]. simpl.
    assert (size (delete e (kv_ c)) < size (kv_ c)) as Hlt.
    { rewrite <- (insert_id (kv_ c) e (ve, min_freq_ c) Hve) at 2.
      rewrite <- insert_delete_eq.
      rewrite map_size_insert_None by apply lookup_delete_eq. lia. }
    split; [lia|]. split; [|split; [|split]].
    + intros k v f Hk'.
      assert (k ≠ e) as Hke by (intros ->; by rewrite lookup_delete_eq in Hk').
      rewrite lookup_delete_ne in Hk' by done.
      destruct (Hin _ _ _ Hk') as [Hx Hpos]. split; [|done]. rewrite Hb.
      destruct (decide (f = min_freq_ c)) as [->|]; [|done].
      rewrite Hl in Hx. apply elem_of_app in Hx as [Hx|Hx]; [done|].
      apply list_elem_of_singleton in Hx. done.
    + intros g k. rewrite Hb. intros Hx.
      assert (k ∈ bucket (freq_list_ c) g ∧ k ≠ e) as [Hx' Hke].
      { destruct (decide (g = min_freq_ c)) as [->|Hg].
        - split; [rewrite Hl; apply elem_of_app; by left|]. intros ->. done.
        - split; [done|]. intros ->. destruct (Hback _ _ Hx) as [v' Hv'].
          rewrite Hve in Hv'. injection Hv' as _ Hf. done. }
      destruct (Hback _ _ Hx') as [v' Hv']. exists v'. by rewrite lookup_delete_ne.
    + intros g. rewrite Hb. destruct (decide (g = min_freq_ c)); [done|apply Hnd].
    + intros Heq. lia.
  - unfold LFU_freq. by rewrite Hve.
  - reflexivity.
Qed.

Lemma LFU_insert_new_inv key (value : Value) c :
  LFU_inv c → kv_ c !! key = None → size (kv_ c) < LFU_capacity_ c →
  LFU_inv (mkLFUCache (LFU_capacity_ c) 1 (<[key := (value, 1)]> (kv_ c))
             (<[1 := key :: bucket (freq_list_ c) 1]> (freq_list_ c))).
Proof.
  intros (Hcap & Hsz & Hin & Hback & Hnd & Hmin) Hk Hroom.
  split; [done|]. simpl. rewrite map_size_insert_None by done.
  split; [lia|]. split; [|split; [|split]].
  - intros k v f Hk'. rewrite bucket_insert.
    destruct (decide (k = key)) as [->|Hne].
    + rewrite lookup_insert_eq in Hk'. injection Hk' as <- <-.
      rewrite decide_True by done. split; [apply elem_of_cons; by left|done].
    + rewrite lookup_insert_ne in Hk' by done.
      destruct (Hin _ _ _ Hk') as [Hx Hpos]. split; [|done].
      destruct (decide (f = 1)) as [->|]; [apply elem_of_cons; by right|done].
  - intros g k. rewrite bucket_insert.
    destruct (decide (g = 1)) as [->|Hg].
    + intros [->|Hx]%elem_of_cons.
      * exists value. by rewrite lookup_insert_eq.
      * destruct (Hback _ _ Hx) as [v' Hv']. exists v'.
        rewrite lookup_insert_ne; [done|]. intros <-. congruence.
    + intros Hx. destruct (Hback _ _ Hx) as [v' Hv']. exists v'.
      rewrite lookup_insert_ne; [done|]. intros <-. congruence.
  - intros g. rewrite bucket_insert. destruct (decide (g = 1)); [|apply Hnd].
    apply NoDup_cons. split; [|apply Hnd].
    intros Hx. destruct (Hback _ _ Hx) as [v' Hv']. congruence.
  - intros _. rewrite bucket_insert, decide_True by done. split; [done|].
    intros k v f Hk'. destruct (decide (k = key)) as [->|Hne].
    + rewrite lookup_insert_eq in Hk'. by injection Hk' as <- <-.
    + rewrite lookup_insert_ne in Hk' by done. by eapply Hin.
Qed.

Lemma LFUCache_erase_inv key c : LFU_inv c → LFU_inv (LFUCache_erase key c).2.
Proof.
  intros Hinv. pose proof Hinv as (Hcap & Hsz & Hin & Hback & Hnd & Hmin).
  unfold LFUCache_erase. destruct (kv_ c !! key) as [[v f]|] eqn:Hk; [|done].
  simpl.
  assert (size (delete key (kv_ c)) < size (kv_ c)) as Hlt.
  { rewrite <- (insert_id (kv_ c) key (v, f) Hk) at 2.
    rewrite <- insert_delete_eq.
    rewrite map_size_insert_None by apply lookup_delete_eq. lia. }
  split; [done|]. simpl. split; [lia|]. split; [|split; [|split]].
  - intros k v' f' Hk'.
    assert (k ≠ key) as Hne by (intros ->; by rewrite lookup_delete_eq in Hk').
    rewrite lookup_delete_ne in Hk' by done.
    destruct (Hin _ _ _ Hk') as [Hx Hpos]. split; [|done]. rewrite bucket_insert.
    destruct (decide (f' = f)) as [->|]; [|done].
    by apply remove_key_elem.
  - intros g k. rewrite bucket_insert. intros Hx.
    assert (k ∈ bucket (freq_list_ c) g ∧ k ≠ key) as [Hx' Hne].
    { destruct (decide (g = f)) as [->|Hg].
      - by apply remove_key_elem in Hx.
      - split; [done|]. intros ->. destruct (Hback _ _ Hx) as [v' Hv']. congruence. }
    destruct (Hback _ _ Hx') as [v' Hv']. exists v'. by rewrite lookup_delete_ne.
  - intros g. rewrite bucket_insert.
    destruct (decide (g = f)); [by apply remove_key_NoDup|done].
  - intros Heq. lia.
Qed.

Lemma LFUCache_get_inv key c : LFU_inv c → LFU_inv (LFUCache_get key c).2.
Proof.
  intros Hinv. unfold LFUCache_get.
  destruct (kv_ c !! key) as [[v f]|] eqn:Hk; [|done].
  simpl. apply LFU_touch_inv; [done|]. by rewrite Hk.
Qed.

Lemma LFU_touch_capacity key c : LFU_capacity_ (LFU_touch key c) = LFU_capacity_ c.
Proof. unfold LFU_touch. by destruct (kv_ c !! key) as [[v f]|]. Qed.

Lemma LFUCache_put_inv key (value : Value) c :
  LFU_inv c →
  ∃ c', LFUCache_put key value c = Some c' ∧ LFU_inv c' ∧
        LFU_capacity_ c' = LFU_capacity_ c.
Proof.
  intros Hinv. pose proof Hinv as (Hcap & Hsz & _).
  unfold LFUCache_put. rewrite decide_False by lia.
  destruct (kv_ c !! key) as [[v f]|] eqn:Hk.
  - eexists. split; [done|]. split.
    + apply LFU_touch_inv; [by eapply LFU_set_value_inv|].
      simpl. by rewrite lookup_insert_eq.
    + by rewrite LFU_touch_capacity.
  - destruct (decide (LFU_capacity_ c ≤ size (kv_ c))) as [Hfull|Hroom].
    + destruct (LFU_evict_inv c Hinv ltac:(lia))
        as (e & c1 & -> & Hinv1 & Hkv1 & Hcap1 & Hfreq & _).
      simpl. eexists. split; [done|]. split; [|done].
      apply LFU_insert_new_inv; [done|..].
      * rewrite Hkv1. destruct (decide (key = e)) as [->|].
        -- apply lookup_delete_eq.
        -- by rewrite lookup_delete_ne.
      * rewrite Hkv1, Hcap1.
        unfold LFU_freq in Hfreq. destruct (kv_ c !! e) as [ve|] eqn:Hve; [|done].
        rewrite <- (insert_id (kv_ c) e ve Hve) in Hsz.
        rewrite <- insert_delete_eq in Hsz.
        rewrite map_size_insert_None in Hsz by apply lookup_delete_eq. lia.
    + simpl. eexists. split; [done|]. split; [|done].
      apply LFU_insert_new_inv; [done|done|lia].
Qed.

Lemma LFU_step_inv c (o : LRU_op Key Value) :
  LFU_inv c →
  ∃ c', LFU_step c o = Some c' ∧ LFU_inv c' ∧ LFU_capacity_ c' = LFU_capacity_ c.
Proof.
  intros Hinv. destruct o as [k|k v|k]; simpl.
  - eexists. split; [done|]. split; [by apply LFUCache_get_inv|].
    unfold LFUCache_get. destruct (kv_ c !! k) as [[v f]|]; [|done].
    apply LFU_touch_capacity.
  - by apply LFUCache_put_inv.
  - eexists. split; [done|]. split; [by apply LFUCache_erase_inv|].
    unfold LFUCache_erase. by destruct (kv_ c !! k) as [[v f]|].
Qed.

Lemma LFU_run_inv (ops : list (LRU_op Key Value)) c :
  LFU_inv c →
  ∃ c', LFU_run ops c = Some c' ∧ LFU_inv c' ∧ LFU_capacity_ c' = LFU_capacity_ c.
Proof.
  revert c. induction ops as [|o ops IH]; intros c Hinv; simpl; [by eexists|].
  destruct (LFU_step_inv c o Hinv) as (c1 & -> & Hinv1 & Hcap1). simpl.
  destruct (IH c1 Hinv1) as (c' & Hrun & Hinv' & Hcap').
  exists c'. split; [done|]. split; [done|]. congruence.
Qed.

Lemma LFU_new_inv (capacity : nat) :
  1 ≤ capacity → LFU_inv (mkLFUCache (Key:=Key) (Value:=Value) capacity 0 ∅ ∅).
Proof.
  intros Hcap. split; [done|]. simpl. rewrite map_size_empty.
  split; [lia|]. split; [|split; [|split]].
  - intros k v f Hk. by rewrite lookup_empty in Hk.
  - intros f k Hx. unfold bucket in Hx. rewrite lookup_empty in Hx.
    by apply elem_of_nil in Hx.
  - intros f. unfold bucket. rewrite lookup_empty. constructor.
  - intros Heq. lia.
Qed.

Lemma LFU_reachable_inv
    (capacity : nat) (ops : list (LRU_op Key Value)) (c0 c : LFUCache Key Value) :
  LFUCache_ctor capacity = Constructed c0 → LFU_run ops c0 = Some c →
  LFU_inv c ∧ LFU_capacity_ c = capacity.
Proof.
  unfold LFUCache_ctor. destruct (decide (capacity = 0)) as [|Hpos]; [done|].
  intros [= <-] Hrun.
  destruct (LFU_run_inv ops _ (LFU_new_inv capacity ltac:(lia)))
    as (c' & Hrun' & Hinv & Hc).
  rewrite Hrun in Hrun'. injection Hrun' as <-. done.
Qed.

(** X28. The LFU cache's constructor throws exactly for capacity 0.  A
    constructed cache never runs [evict] on an empty frequency list: every
    sequence of get, put and erase is defined, and after it
    [size() <= capacity()] and [capacity()] is the constructor argument. *)
Theorem LFUCache_runs_within_capacity
    (capacity : nat) (ops : list (LRU_op Key Value)) :
  match LFUCache_ctor (Key:=Key) (Value:=Value) capacity with
  | Thrown what => capacity = 0 ∧ what = "capacity must be > 0"%string
  | Constructed c0 =>
      1 ≤ capacity ∧
      ∃ c, LFU_run ops c0 = Some c ∧
           LFUCache_size c ≤ capacity ∧
           LFUCache_capacity c = capacity
  end.
Proof.
  unfold LFUCache_ctor. destruct (decide (capacity = 0)) as [|Hpos]; [done|].
  split; [lia|].
  destruct (LFU_run_inv ops _ (LFU_new_inv capacity ltac:(lia)))
    as (c & Hrun & (_ & Hsz & _) & Hc).
  exists c. split; [done|]. split; [|done].
  unfold LFUCache_size. simpl in Hc. lia.
Qed.

(** X29. In every state reached from a constructed LFU cache, [put(k, v)]
    is defined and the following [get(k)] returns [v]; a new key enters
    with frequency 1, a resident key's frequency goes up by one. *)
Theorem LFUCache_put_then_get
    (capacity : nat) (ops : list (LRU_op Key Value))
    (c0 c : LFUCache Key Value) (k : Key) (v : Value) :
  LFUCache_ctor capacity = Constructed c0 → LFU_run ops c0 = Some c →
  ∃ c', LFUCache_put k v c = Some c' ∧
        (LFUCache_get k c').1 = Some v ∧
        LFU_freq k c' = Some (match LFU_freq k c with Some f => S f | None => 1 end).
Proof.
  intros Hctor Hrun.
  destruct (LFU_reachable_inv _ _ _ _ Hctor Hrun) as [Hinv Hc].
  destruct (LFUCache_put_inv k v c Hinv) as (c' & Hput & _ & _).
  exists c'. split; [done|].
  assert (kv_ c' !! k =
          Some (v, match LFU_freq k c with Some f => S f | None => 1 end)) as Hk.
  { unfold LFUCache_put in Hput. destruct Hinv as (Hpos & _).
    rewrite decide_False in Hput by lia. unfold LFU_freq.
    destruct (kv_ c !! k) as [[v0 f]|] eqn:Hk0; simpl.
    - injection Hput as <-. unfold LFU_touch. simpl.
      rewrite lookup_insert_eq. simpl. by rewrite lookup_insert_eq.
    - destruct (decide (LFU_capacity_ c ≤ size (kv_ c))); simpl in Hput.
      + destruct (LFU_evict c); simpl in Hput; [|done].
        injection Hput as <-. simpl. by rewrite lookup_insert_eq.
      + injection Hput as <-. simpl. by rewrite lookup_insert_eq. }
  unfold LFUCache_get, LFU_freq. rewrite Hk. done.
Qed.

(** X30. A full LFU cache makes room for a new key by evicting one
    resident of least frequency, the least recently touched among them:
    in every reachable state with [size() = capacity()], [put(k, v)] of a
    key that is not resident removes exactly one key [e], the back of the
    list of its frequency; no resident has a lower frequency than [e];
    every other resident stays. *)
Theorem LFUCache_evicts_least_frequent
    (capacity : nat) (ops : list (LRU_op Key Value))
    (c0 c : LFUCache Key Value) (k : Key) (v : Value) :
  LFUCache_ctor capacity = Constructed c0 → LFU_run ops c0 = Some c →
  LFUCache_contains k c = false → LFUCache_size c = LFUCache_capacity c →
  ∃ e c' fe,
    LFUCache_put k v c = Some c' ∧
    LFU_freq e c = Some fe ∧
    last (bucket (freq_list_ c) fe) = Some e ∧
    (∀ k' f', LFU_freq k' c = Some f' → fe ≤ f') ∧
    LFUCache_contains e c' = false ∧
    (∀ k', k' ≠ e → LFUCache_contains k' c = true →
           LFUCache_contains k' c' = true) ∧
    LFUCache_size c' = LFUCache_size c.
Proof.
  intros Hctor Hrun Hk Hfull.
  destruct (LFU_reachable_inv _ _ _ _ Hctor Hrun) as [Hinv Hc].
  unfold LFUCache_contains, LFUCache_size, LFUCache_capacity in *.
  apply bool_decide_eq_false in Hk.
  assert (kv_ c !! k = None) as Hnone.
  { destruct (kv_ c !! k) eqn:E; [|done]. exfalso. apply Hk. by eexists. }
  destruct (LFU_evict_inv c Hinv Hfull)
    as (e & c1 & Hev & Hinv1 & Hkv1 & Hcap1 & Hfreq & Hlast).
  pose proof Hinv as (Hpos & _ & _ & _ & _ & Hmin).
  destruct (Hmin Hfull) as [_ Hleast].
  assert (is_Some (kv_ c !! e)) as [ve Hve].
  { unfold LFU_freq in Hfreq. destruct (kv_ c !! e); [by eexists|done]. }
  assert (e ≠ k) as Hek by (intros ->; congruence).
  exists e. eexists. exists (min_freq_ c).
  split.
  { unfold LFUCache_put. rewrite decide_False by lia. rewrite Hnone.
    rewrite decide_True by lia. rewrite Hev. simpl. done. }
  split; [done|]. split; [done|]. split; [|split; [|split]].
  - intros k' f' Hf'. unfold LFU_freq in Hf'.
    destruct (kv_ c !! k') as [[v' f0]|] eqn:Hk'; [|done].
    injection Hf' as <-. by eapply Hleast.
  - apply bool_decide_eq_false. simpl. rewrite Hkv1.
    rewrite lookup_insert_ne by done. rewrite lookup_delete_eq.
    by intros [? ?].
  - intros k' Hne Hin. apply bool_decide_eq_true in Hin.
    apply bool_decide_eq_true. simpl. rewrite Hkv1.
    destruct (decide (k' = k)) as [->|]; [by rewrite lookup_insert_eq|].
    rewrite lookup_insert_ne by done. by rewrite lookup_delete_ne.
  - simpl. rewrite Hkv1.
    rewrite map_size_insert_None.
    2:{ by rewrite lookup_delete_ne. }
    rewrite <- (insert_id (kv_ c) e ve Hve) at 2.
    rewrite <- insert_delete_eq.
    by rewrite map_size_insert_None by apply lookup_delete_eq.
Qed.

End LFUCache_facts.

Lemma LFUCache_put_then_get_witness :
  ∃ c0 c : LFUCache Z string,
    LFUCache_ctor 2 = Constructed c0 ∧
    LFU_run [OpPut 1%Z "a"%string; OpPut 2%Z "b"%string; OpGet 1%Z] c0 = Some c ∧
    ∃ c', LFUCache_put 1%Z "z"%string c = Some c' ∧
          (LFUCache_get 1%Z c').1 = Some "z"%string ∧
          LFU_freq 1%Z c' =
            Some (match LFU_freq 1%Z c with Some f => S f | None => 1 end).
Proof.
  destruct (LFUCache_ctor (Key:=Z) (Value:=string) 2) as [c0|what] eqn:Hctor;
    [|discriminate Hctor].
  destruct (LFU_run [OpPut 1%Z "a"%string; OpPut 2%Z "b"%string; OpGet 1%Z] c0)
    as [c|] eqn:Hrun.
  2:{ injection Hctor as <-. vm_compute in Hrun. discriminate Hrun. }
  exists c0, c. split; [reflexivity|]. split; [exact Hrun|].
  exact (LFUCache_put_then_get 2 _ c0 c 1%Z "z"%string Hctor Hrun).
Defined.

Lemma LFUCache_evicts_least_frequent_witness :
  ∃ c0 c : LFUCache Z string,
    LFUCache_ctor 2 = Constructed c0 ∧
    LFU_run [OpPut 1%Z "a"%string; OpPut 2%Z "b"%string; OpGet 1%Z] c0 = Some c ∧
    LFUCache_contains 3%Z c = false ∧
    LFUCache_size c = LFUCache_capacity c ∧
    ∃ e c' fe,
      LFUCache_put 3%Z "c"%string c = Some c' ∧
      LFU_freq e c = Some fe ∧
      last (bucket (freq_list_ c) fe) = Some e ∧
      (∀ k' f', LFU_freq k' c = Some f' → fe ≤ f') ∧
      LFUCache_contains e c' = false ∧
      (∀ k', k' ≠ e → LFUCache_contains k' c = true →
             LFUCache_contains k' c' = true) ∧
      LFUCache_size c' = LFUCache_size c.
Proof.
  destruct (LFUCache_ctor (Key:=Z) (Value:=string) 2) as [c0|what] eqn:Hctor;
    [|discriminate Hctor].
  destruct (LFU_run [OpPut 1%Z "a"%string; OpPut 2%Z "b"%string; OpGet 1%Z] c0)
    as [c|] eqn:Hrun.
  2:{ injection Hctor as <-. vm_compute in Hrun. discriminate Hrun. }
  assert (LFUCache_contains 3%Z c = false) as Hk.
  { injection Hctor as <-. vm_compute in Hrun. injection Hrun as <-. reflexivity. }
  assert (LFUCache_size c = LFUCache_capacity c) as Hfull.
  { injection Hctor as <-. vm_compute in Hrun. injection Hrun as <-. reflexivity. }
  exists c0, c. split; [reflexivity|]. split; [exact Hrun|].
  split; [exact Hk|]. split; [exact Hfull|].
  exact (LFUCache_evicts_least_frequent 2 _ c0 c 3%Z "c"%string Hctor Hrun Hk Hfull).
Defined.
